(** * Batched packet forwarding between two TUN devices

    A shallow embedding of the Go forwarding engine: the direct forwarder
    [forward], the channel based pipeline [readToChannel] /
    [writeFromChannel] with its optional [sync.Pool], the strategy selection
    of [Run], and the earlier stand-alone [forward] of the basic variant. *)

From Stdlib Require Import ZArith String Lia.
From stdpp Require Import base option list.

Open Scope Z_scope.

(** ** Constants of package [tun] *)

Definition batchSize : Z := 128.
Definition offset : Z := 10.
Definition mtuSize : Z := 1500.
Definition maxPktSize : Z := 65535 + offset.

(** Capacity of the channel made by [forwardWithChannel]. *)
Definition chanCap : nat := 2048.

(** ** Go's [int]: 64-bit two's complement *)

Definition wrap_int (z : Z) : Z := (z + 2 ^ 63) mod 2 ^ 64 - 2 ^ 63.
Definition int_add (a b : Z) : Z := wrap_int (a + b).

(** ** Byte buffers

    Every slice of the program starts at index 0 of its backing array, so a
    slice is a backing array together with a length and a capacity.  The
    array is kept as the list of bytes stored explicitly so far; [make]
    zero-fills, so every byte past that list is [x00]. *)

Definition byte := Byte.byte.

(** The first [k] bytes of a backing array whose stored prefix is [d]. *)
Definition pad_take (k : nat) (d : list byte) : list byte :=
  take k (d ++ replicate k Byte.x00).

(** Overwrite the start of an array with [w]. *)
Definition write_prefix (d w : list byte) : list byte :=
  w ++ drop (length w) d.

(** A buffer owned by one task only ([bufs], [outBufs], [readBufs]): the
    array is held by value. *)
Record lbuf := LBuf { b_data : list byte; b_len : Z; b_cap : Z }.

(** [make([]byte, n)] *)
Definition make_lbuf (n : Z) : lbuf := LBuf [] n n.

(** the nil slice *)
Definition nil_lbuf : lbuf := LBuf [] 0 0.

(** [b[:k]]: [None] is the run-time panic "slice bounds out of range". *)
Definition reslice (b : lbuf) (k : Z) : option lbuf :=
  if (0 <=? k) && (k <=? b_cap b) then Some (LBuf (b_data b) k (b_cap b))
  else None.

(** The bytes a callee sees in [b], that is [b[0:len(b)]]. *)
Definition lbuf_bytes (b : lbuf) : list byte :=
  pad_take (Z.to_nat (b_len b)) (b_data b).

(** [l[:n]] for a slice [l] whose capacity is its length. *)
Definition slice_to {A} (l : list A) (n : Z) : option (list A) :=
  if (0 <=? n) && (n <=? Z.of_nat (length l)) then Some (take (Z.to_nat n) l)
  else None.

(** ** The Device interface *)

(** Modelled from the spec: the [Device] interface, whose declaration and
    implementation ([CreateTUN]) are not among the source files.  The
    forwarders only call [Read(bufs, sizes, offset)] and [Write(bufs,
    offset)] on it, so a device is taken as a parameter: a source device is
    the list of what its successive [Read] calls do, a destination device
    the list of what its successive [Write] calls answer, and every theorem
    holds for all such lists.

    One [Read] returns [(n, err)]; on the way it may store bytes at the
    start of [bufs[i]] (header room included), store [sizes[i]], and
    reassign [bufs[i]] to a reslice of itself ("truncated by the
    implementation to the actual bytes read plus headerOffset"), as any
    callee holding [bufs] can.  It cannot write past the capacity of a
    buffer.  When the list is used up, [Read] blocks for good. *)
Record fill := Fill {
  f_data : list byte;     (* bytes stored from index 0 of bufs[i] *)
  f_size : Z;             (* value stored in sizes[i] *)
  f_len : option Z        (* new length of bufs[i], when the device reslices *)
}.

Record read_result := ReadResult {
  rr_n : Z;
  rr_err : option string;
  rr_fills : list fill
}.

(** One [Write(bufs, offset)] returns [(n, err)]; the count may be short of
    the batch.  The bytes handed over are recorded in the trace at the call,
    and [Write] is taken to leave the buffers as they are.  Past the end of
    the list every call succeeds. *)
Record write_result := WriteResult { wr_n : Z; wr_err : option string }.

Definition fill_data (cap : Z) (d : list byte) (f : fill) : list byte :=
  write_prefix d (take (Z.to_nat cap) (f_data f)).

Definition apply_fill (b : lbuf) (f : fill) : lbuf :=
  LBuf (fill_data (b_cap b) (b_data b) f)
       (match f_len f with
        | Some k => if (0 <=? k) && (k <=? b_cap b) then k else b_len b
        | None => b_len b
        end)
       (b_cap b).

Fixpoint apply_fills (bufs : list lbuf) (fs : list fill) : list lbuf :=
  match bufs, fs with
  | b :: bufs', f :: fs' => apply_fill b f :: apply_fills bufs' fs'
  | _, _ => bufs
  end.

Fixpoint store_sizes (sizes : list Z) (fs : list fill) : list Z :=
  match sizes, fs with
  | _ :: sizes', f :: fs' => f_size f :: store_sizes sizes' fs'
  | _, _ => sizes
  end.

Definition next_write (len : nat) (dst : list write_result)
  : write_result * list write_result :=
  match dst with
  | [] => (WriteResult (Z.of_nat len) None, [])
  | w :: dst' => (w, dst')
  end.

(** ** What a task does, as seen from outside *)

Inductive event :=
| EvRead (lens : list Z) (off : Z)
    (* src.Read(bufs, sizes, off) is called; lens = len(bufs[i]) for each i *)
| EvWrite (pkts : list (list byte)) (off : Z)
    (* dst.Write(bufs, off) is called; pkts = the bytes of each buffer *)
| EvLog (msg : string).

Inductive outcome :=
| BlockedOnRead     (* waiting in a Read that never returns *)
| Returned          (* the function returned *)
| Panicked.         (* a run-time panic *)

Definition log_write_err (w : write_result) : list event :=
  match wr_err w with
  | Some e => [EvLog ("Write error: " ++ e)]
  | None => []
  end.

Definition written (tr : list event) : list (list byte) :=
  concat (omap (fun e => match e with EvWrite p _ => Some p | _ => None end) tr).

Definition read_calls (tr : list event) : list (list Z) :=
  omap (fun e => match e with EvRead l _ => Some l | _ => None end) tr.

Definition write_calls (tr : list event) : list (list (list byte)) :=
  omap (fun e => match e with EvWrite p _ => Some p | _ => None end) tr.

(** ** Direct forwarding: [forward] *)

Record fwd_state := FwdState {
  fs_bufs : list lbuf;
  fs_outBufs : list lbuf;
  fs_sizes : list Z
}.

Inductive iter_result :=
| Continue (evs : list event) (dst : list write_result) (st : fwd_state)
| Stop (evs : list event) (o : outcome).

(** [for i := 0; i < batch; i++ { bufs[i] = bufs[i][:bufLen] }] *)
Fixpoint reset_bufs (bufLen : Z) (bufs : list lbuf) : option (list lbuf) :=
  match bufs with
  | [] => Some []
  | b :: bufs' =>
      b' ← reslice b bufLen;
      rest ← reset_bufs bufLen bufs';
      Some (b' :: rest)
  end.

(** [for i := 0; i < n; i++ { outBufs[i] = bufs[i][:sizes[i]+offset] }],
    started at index [i] with [cnt] rounds to go. *)
Fixpoint reslice_out (bufs : list lbuf) (sizes : list Z)
    (i cnt : nat) (outBufs : list lbuf) : option (list lbuf) :=
  match cnt with
  | O => Some outBufs
  | S cnt' =>
      sz ← sizes !! i;
      b ← bufs !! i;
      b' ← reslice b (int_add sz offset);
      if decide (i < length outBufs)%nat
      then reslice_out bufs sizes (S i) cnt' (<[i := b']> outBufs)
      else None
  end.

Definition prepend (evs : list event) (r : list event * outcome)
  : list event * outcome := (evs ++ r.1, r.2).

Definition forward_init (n : Z) : fwd_state :=
  FwdState (replicate (Z.to_nat batchSize) (make_lbuf n))
           (replicate (Z.to_nat batchSize) nil_lbuf)
           (replicate (Z.to_nat batchSize) 0).

(** The loop body of [forward] from the return of [src.Read] on; [bufs] are
    the buffers as handed to [Read]. *)
Definition forward_body (r : read_result) (dst : list write_result)
    (bufs : list lbuf) (st : fwd_state) : iter_result :=
  let ev_read := EvRead (b_len <$> bufs) offset in
  let bufs := apply_fills bufs (rr_fills r) in
  let sizes := store_sizes (fs_sizes st) (rr_fills r) in
  match rr_err r with
  | Some e => Stop [ev_read; EvLog ("Read error, exiting goroutine: " ++ e)] Returned
  | None =>
      if rr_n r =? 0 then Continue [ev_read] dst (FwdState bufs (fs_outBufs st) sizes)
      else
        match reslice_out bufs sizes 0 (Z.to_nat (rr_n r)) (fs_outBufs st) with
        | None => Stop [ev_read] Panicked
        | Some outBufs =>
            match slice_to outBufs (rr_n r) with
            | None => Stop [ev_read] Panicked
            | Some batch =>
                let '(w, dst') := next_write (length batch) dst in
                Continue (ev_read :: EvWrite (lbuf_bytes <$> batch) offset
                                  :: log_write_err w)
                         dst' (FwdState bufs outBufs sizes)
            end
        end
  end.

Fixpoint forward_loop (src : list read_result) (dst : list write_result)
    (st : fwd_state) : list event * outcome :=
  match reset_bufs (mtuSize + offset) (fs_bufs st) with
  | None => ([], Panicked)
  | Some bufs =>
      match src with
      | [] => ([EvRead (b_len <$> bufs) offset], BlockedOnRead)
      | r :: src' =>
          match forward_body r dst bufs st with
          | Stop evs o => (evs, o)
          | Continue evs dst' st' => prepend evs (forward_loop src' dst' st')
          end
      end
  end.

Definition forward (src : list read_result) (dst : list write_result)
  : list event * outcome :=
  forward_loop src dst (forward_init maxPktSize).

(** ** The stand-alone variant of [forward] (package [tun] without channels)

    Same loop, with [bufLen = 65535 + offset] and a [continue] after each
    logged error. *)

Module Basic.

Definition batch : Z := 128.
Definition offset : Z := 10.
Definition bufLen : Z := 65535 + offset.

Definition forward_body (r : read_result) (dst : list write_result)
    (bufs : list lbuf) (st : fwd_state) : iter_result :=
  let ev_read := EvRead (b_len <$> bufs) offset in
  let bufs := apply_fills bufs (rr_fills r) in
  let sizes := store_sizes (fs_sizes st) (rr_fills r) in
  match rr_err r with
  | Some e =>
      Continue [ev_read; EvLog ("Read error: " ++ e)] dst
               (FwdState bufs (fs_outBufs st) sizes)
  | None =>
      if rr_n r =? 0 then Continue [ev_read] dst (FwdState bufs (fs_outBufs st) sizes)
      else
        match reslice_out bufs sizes 0 (Z.to_nat (rr_n r)) (fs_outBufs st) with
        | None => Stop [ev_read] Panicked
        | Some outBufs =>
            match slice_to outBufs (rr_n r) with
            | None => Stop [ev_read] Panicked
            | Some out =>
                let '(w, dst') := next_write (length out) dst in
                Continue (ev_read :: EvWrite (lbuf_bytes <$> out) offset
                                  :: log_write_err w)
                         dst' (FwdState bufs outBufs sizes)
            end
        end
  end.

Fixpoint forward_loop (src : list read_result) (dst : list write_result)
    (st : fwd_state) : list event * outcome :=
  match reset_bufs bufLen (fs_bufs st) with
  | None => ([], Panicked)
  | Some bufs =>
      match src with
      | [] => ([EvRead (b_len <$> bufs) offset], BlockedOnRead)
      | r :: src' =>
          match forward_body r dst bufs st with
          | Stop evs o => (evs, o)
          | Continue evs dst' st' => prepend evs (forward_loop src' dst' st')
          end
      end
  end.

Definition forward (src : list read_result) (dst : list write_result)
  : list event * outcome :=
  forward_loop src dst
    (FwdState (replicate (Z.to_nat batch) (make_lbuf bufLen))
              (replicate (Z.to_nat batch) nil_lbuf)
              (replicate (Z.to_nat batch) 0)).

End Basic.

(** ** Packet buffers shared between goroutines

    The buffers that travel through the channel and the pool are reached by
    several goroutines, so they live in a heap of backing arrays and a slice
    is a pointer into it. *)

Record slice := Slice { s_ptr : nat; s_len : Z; s_cap : Z }.

(** the nil slice: no byte can be reached through it *)
Definition nil_slice : slice := Slice 0 0 0.

Definition heap_get (h : list (list byte)) (p : nat) : list byte :=
  default [] (h !! p).

(** [make([]byte, n)] *)
Definition alloc (h : list (list byte)) (n : Z) : list (list byte) * slice :=
  (h ++ [[]], Slice (length h) n n).

(** [s[:k]] *)
Definition slice_reslice (s : slice) (k : Z) : option slice :=
  if (0 <=? k) && (k <=? s_cap s) then Some (Slice (s_ptr s) k (s_cap s))
  else None.

Definition slice_bytes (h : list (list byte)) (s : slice) : list byte :=
  pad_take (Z.to_nat (s_len s)) (heap_get h (s_ptr s)).

(** [copy(dst, src)]: min(len(dst), len(src)) bytes are copied. *)
Definition copy (h : list (list byte)) (dst : slice) (src : list byte)
  : list (list byte) :=
  <[s_ptr dst := write_prefix (heap_get h (s_ptr dst))
                              (take (Z.to_nat (s_len dst)) src)]> h.

(** [type packet struct { buf []byte; size int }] *)
Record packet := Packet { pkt_buf : slice; pkt_size : Z }.

(** [sync.Pool] with [New = make([]byte, maxPktSize)].  [Get] may hand out
    any pooled item or a new one: [choice] selects the item, and an index
    past the end stands for a miss (an item the pool has dropped is one
    that is never chosen).  [Put] adds the slice as it is. *)
Definition pool_get (choice : nat) (h : list (list byte)) (p : list slice)
  : list (list byte) * list slice * slice :=
  match p !! choice with
  | Some s => (h, delete choice p, s)
  | None => let '(h', s) := alloc h maxPktSize in (h', p, s)
  end.

Definition pool_put (p : list slice) (s : slice) : list slice := p ++ [s].

(** ** Channel based forwarding: the two goroutines of one direction *)

Inductive reader_pc :=
| RRead                                       (* at src.Read *)
| RLoop (n : Z) (i : nat)                     (* at the test i < n *)
| RCopy (n : Z) (i : nat) (pktBuf : slice) (size : Z)   (* at copy *)
| RSend (n : Z) (i : nat) (pkt : packet)      (* at ch <- packet *)
| RDone                                       (* returned *)
| RPanic.

Record reader := Reader {
  r_pc : reader_pc;
  r_readBufs : list lbuf;
  r_sizes : list Z;
  r_usePool : bool
}.

Inductive writer_pc :=
| WRecv                      (* at for pkt := range ch *)
| WCollect (n : nat)         (* at the test n < batchSize of the collect loop *)
| WWrite (n : nat)           (* at if n > 0 *)
| WPut (n i : nat)           (* at the test i < n of the return loop *)
| WPanic.

Record writer := Writer {
  w_pc : writer_pc;
  w_bufs : list slice;
  w_originalBufs : list slice;
  w_usePool : bool
}.

Record direction := Direction {
  d_src : list read_result;
  d_dst : list write_result;
  d_ch : list packet;
  d_reader : reader;
  d_writer : writer;
  d_trace : list event
}.

(** The process: the heap, the global [packetBufferPool] ([None] is nil),
    the directions started so far, what the main goroutine logged, and
    whether a goroutine has panicked (which ends the process). *)
Record system := System {
  sys_heap : list (list byte);
  sys_pool : option (list slice);
  sys_dirs : list direction;
  sys_log : list event;
  sys_crashed : bool
}.

Definition warn_small : string :=
  "Warning: Buffer obtained is too small. Allocating new.".

Definition set_reader (d : direction) (pc : reader_pc) : direction :=
  Direction (d_src d) (d_dst d) (d_ch d)
    (Reader pc (r_readBufs (d_reader d)) (r_sizes (d_reader d))
            (r_usePool (d_reader d)))
    (d_writer d) (d_trace d).

Definition set_writer (d : direction) (pc : writer_pc) : direction :=
  Direction (d_src d) (d_dst d) (d_ch d) (d_reader d)
    (Writer pc (w_bufs (d_writer d)) (w_originalBufs (d_writer d))
            (w_usePool (d_writer d)))
    (d_trace d).

Definition add_events (d : direction) (evs : list event) : direction :=
  Direction (d_src d) (d_dst d) (d_ch d) (d_reader d) (d_writer d)
    (d_trace d ++ evs).

(** [pktBuf = packetBufferPool.Get().([]byte)] with the pool, else
    [pktBuf = make([]byte, maxPktSize)]; [None] is the nil dereference of a
    pool that was never made. *)
Definition acquire (usePool : bool) (choice : nat) (h : list (list byte))
    (pool : option (list slice))
  : option (list (list byte) * option (list slice) * slice) :=
  if usePool then
    match pool with
    | Some p => let '(h', p', s) := pool_get choice h p in Some (h', Some p', s)
    | None => None
    end
  else let '(h', s) := alloc h maxPktSize in Some (h', pool, s).

(** The shared part a goroutine step may change, and the direction. *)
Definition step_result : Type :=
  list (list byte) * option (list slice) * direction.

(** One step of [readToChannel]; [None] when the goroutine is blocked or
    has ended. *)
Definition reader_step (choice : nat) (h : list (list byte))
    (pool : option (list slice)) (d : direction) : option step_result :=
  let rd := d_reader d in
  match r_pc rd with
  | RRead =>
      match d_src d with
      | [] => None
      | r :: src' =>
          let ev_read := EvRead (b_len <$> r_readBufs rd) offset in
          let bufs := apply_fills (r_readBufs rd) (rr_fills r) in
          let sizes := store_sizes (r_sizes rd) (rr_fills r) in
          let '(pc, evs) :=
            match rr_err r with
            | Some e =>
                (RDone, [ev_read; EvLog ("Read error, exiting goroutine: " ++ e)])
            | None => (RLoop (rr_n r) 0, [ev_read])
            end in
          Some (h, pool,
                Direction src' (d_dst d) (d_ch d)
                  (Reader pc bufs sizes (r_usePool rd))
                  (d_writer d) (d_trace d ++ evs))
      end
  | RLoop n i =>
      if Z.of_nat i <? n then
        match acquire (r_usePool rd) choice h pool with
        | None => Some (h, pool, set_reader d RPanic)
        | Some (h', pool', pktBuf) =>
            match r_sizes rd !! i with
            | None => Some (h', pool', set_reader d RPanic)
            | Some sz =>
                let size := int_add sz offset in
                if s_cap pktBuf <? size then
                  let '(h'', pktBuf') := alloc h' size in
                  Some (h'', pool',
                        add_events (set_reader d (RCopy n i pktBuf' size))
                                   [EvLog warn_small])
                else Some (h', pool', set_reader d (RCopy n i pktBuf size))
            end
        end
      else Some (h, pool, set_reader d RRead)
  | RCopy n i pktBuf size =>
      match r_readBufs rd !! i with
      | None => Some (h, pool, set_reader d RPanic)
      | Some b =>
          match reslice b size with
          | None => Some (h, pool, set_reader d RPanic)
          | Some src =>
              Some (copy h pktBuf (lbuf_bytes src), pool,
                    set_reader d (RSend n i (Packet pktBuf size)))
          end
      end
  | RSend n i pkt =>
      if decide (length (d_ch d) < chanCap)%nat then
        Some (h, pool,
              Direction (d_src d) (d_dst d) (d_ch d ++ [pkt])
                (Reader (RLoop n (S i)) (r_readBufs rd) (r_sizes rd)
                        (r_usePool rd))
                (d_writer d) (d_trace d))
      else None
  | RDone | RPanic => None
  end.

(** [bufs[n] = pkt.buf[:pkt.size]] and, with the pool,
    [originalBufs[n] = pkt.buf]; [None] is a panic. *)
Definition take_packet (wr : writer) (n : nat) (pkt : packet) : option writer :=
  b ← slice_reslice (pkt_buf pkt) (pkt_size pkt);
  if decide (n < length (w_bufs wr))%nat then
    if w_usePool wr then
      if decide (n < length (w_originalBufs wr))%nat then
        Some (Writer (w_pc wr) (<[n := b]> (w_bufs wr))
                (<[n := pkt_buf pkt]> (w_originalBufs wr)) true)
      else None
    else
      Some (Writer (w_pc wr) (<[n := b]> (w_bufs wr)) (w_originalBufs wr) false)
  else None.

Definition with_writer (d : direction) (ch : list packet) (wr : writer)
    (pc : writer_pc) : direction :=
  Direction (d_src d) (d_dst d) ch (d_reader d)
    (Writer pc (w_bufs wr) (w_originalBufs wr) (w_usePool wr)) (d_trace d).

(** One step of [writeFromChannel]. *)
Definition writer_step (h : list (list byte)) (pool : option (list slice))
    (d : direction) : option step_result :=
  let wr := d_writer d in
  match w_pc wr with
  | WRecv =>
      match d_ch d with
      | [] => None
      | pkt :: ch' =>
          match take_packet wr 0 pkt with
          | None => Some (h, pool, with_writer d ch' wr WPanic)
          | Some wr' => Some (h, pool, with_writer d ch' wr' (WCollect 1))
          end
      end
  | WCollect n =>
      if Z.of_nat n <? batchSize then
        match d_ch d with
        | pkt :: ch' =>
            match take_packet wr n pkt with
            | None => Some (h, pool, with_writer d ch' wr WPanic)
            | Some wr' => Some (h, pool, with_writer d ch' wr' (WCollect (S n)))
            end
        | [] => Some (h, pool, set_writer d (WWrite n))
        end
      else Some (h, pool, set_writer d (WWrite n))
  | WWrite n =>
      if decide (0 < n)%nat then
        match slice_to (w_bufs wr) (Z.of_nat n) with
        | None => Some (h, pool, set_writer d WPanic)
        | Some out =>
            let '(w, dst') := next_write (length out) (d_dst d) in
            Some (h, pool,
                  Direction (d_src d) dst' (d_ch d) (d_reader d)
                    (Writer (if w_usePool wr then WPut n 0 else WRecv)
                            (w_bufs wr) (w_originalBufs wr) (w_usePool wr))
                    (d_trace d ++ EvWrite (slice_bytes h <$> out) offset
                                  :: log_write_err w))
        end
      else Some (h, pool, set_writer d WRecv)
  | WPut n i =>
      if decide (i < n)%nat then
        match w_originalBufs wr !! i, pool with
        | Some s, Some p => Some (h, Some (pool_put p s), set_writer d (WPut n (S i)))
        | _, _ => Some (h, pool, set_writer d WPanic)
        end
      else Some (h, pool, set_writer d WRecv)
  | WPanic => None
  end.

(** ** The scheduler *)

Inductive action :=
| StepReader (k : nat) (choice : nat)   (* the reader of direction k *)
| StepWriter (k : nat).                 (* the writer of direction k *)

Definition dir_panicked (d : direction) : bool :=
  match r_pc (d_reader d), w_pc (d_writer d) with
  | RPanic, _ | _, WPanic => true
  | _, _ => false
  end.

Definition action_dir (a : action) : nat :=
  match a with StepReader k _ | StepWriter k => k end.

Definition step (a : action) (s : system) : option system :=
  if sys_crashed s then None
  else
    d ← sys_dirs s !! action_dir a;
    '(h, pool, d') ←
      match a with
      | StepReader _ choice => reader_step choice (sys_heap s) (sys_pool s) d
      | StepWriter _ => writer_step (sys_heap s) (sys_pool s) d
      end;
    Some (System h pool (<[action_dir a := d']> (sys_dirs s)) (sys_log s)
                 (dir_panicked d')).

(** Run a schedule; an action that cannot be taken is skipped. *)
Fixpoint run (sched : list action) (s : system) : system :=
  match sched with
  | [] => s
  | a :: sched' => run sched' (default s (step a s))
  end.

Inductive reachable (s0 : system) : system -> Prop :=
| reach_refl : reachable s0 s0
| reach_step s a s' : reachable s0 s -> step a s = Some s' -> reachable s0 s'.

(** ** Starting the goroutines: [forwardWithChannel] and [Run] *)

Record device := Device { dev_reads : list read_result; dev_writes : list write_result }.

Definition new_direction (src dst : device) (usePool : bool) : direction :=
  Direction (dev_reads src) (dev_writes dst) []
    (Reader RRead (replicate (Z.to_nat batchSize) (make_lbuf (mtuSize + offset)))
            (replicate (Z.to_nat batchSize) 0) usePool)
    (Writer WRecv (replicate (Z.to_nat batchSize) nil_slice)
            (replicate (Z.to_nat batchSize) nil_slice) usePool)
    [].

(** Both goroutines evaluate [packetBufferPool != nil] when they start; the
    global is not assigned between their start and that test unless a later
    call of [forwardWithChannel] flips it, which [Run] never does, so the
    test is taken at the [go] statements. *)
Definition forwardWithChannel (src dst : device) (usePool : bool) (s : system)
  : system :=
  let '(pool, evs) :=
    match usePool, sys_pool s with
    | true, None => (Some [], [EvLog "Initialized sync.Pool for packet buffers."])
    | false, Some _ => (None, [EvLog "Disabled sync.Pool for packet buffers."])
    | _, p => (p, [])
    end in
  System (sys_heap s) pool
    (sys_dirs s ++ [new_direction src dst (bool_decide (pool <> None))])
    (sys_log s ++ evs) (sys_crashed s).

Definition fmt_bool (b : bool) : string := if b then "true" else "false".

Definition banner (useChannel usePool : bool) : string :=
  "Starting TUN forwarding demo (useChannel: " ++ fmt_bool useChannel
    ++ ", usePool: " ++ fmt_bool usePool ++ ")".

(** What [Run] has set going when it reaches the wait for a signal. *)
Inductive started :=
| Direct (t12 t21 : list event * outcome)   (* go forward(tun1, tun2); go forward(tun2, tun1) *)
| Queued.                                   (* the directions of the system *)

Definition sys_add_log (s : system) (msg : string) : system :=
  System (sys_heap s) (sys_pool s) (sys_dirs s) (sys_log s ++ [EvLog msg])
         (sys_crashed s).

Definition empty_system : system := System [] None [] [] false.

(** [Run], for devices that [CreateTUN] and [setupTun] brought up without
    error (the [log.Fatalf] exits are not part of the model), up to the wait
    for a signal. *)
Definition Run (useChannel usePool : bool) (tun1 tun2 : device)
  : system * started :=
  let s := sys_add_log empty_system (banner useChannel usePool) in
  let s := sys_add_log s
    "Successfully set up TUN device tun11 with address 10.0.1.1/24" in
  let s := sys_add_log s
    "Successfully set up TUN device tun22 with address 10.0.2.1/24" in
  let '(s, st) :=
    if useChannel then
      let s := sys_add_log s "Using channel-based forwarding." in
      let s := forwardWithChannel tun1 tun2 usePool s in
      let s := forwardWithChannel tun2 tun1 usePool s in
      (s, Queued)
    else
      let s := sys_add_log s
        "Using direct forwarding (sync.Pool not applicable here)." in
      (s, Direct (forward (dev_reads tun1) (dev_writes tun2))
                 (forward (dev_reads tun2) (dev_writes tun1))) in
  (sys_add_log s "Forwarding started. Press Ctrl+C to exit.", st).

(** ** The packets a source device delivers

    [packet_bytes] is [bufs[i][:sizes[i]+offset]] as the device left it;
    [read_packets] lists, call after call, the packets of every successful
    [Read] up to the first failing one, for read buffers of capacity [cap]
    whose arrays hold [datas]. *)

Fixpoint fill_datas (cap : Z) (datas : list (list byte)) (fs : list fill)
  : list (list byte) :=
  match datas, fs with
  | d :: datas', f :: fs' => fill_data cap d f :: fill_datas cap datas' fs'
  | _, _ => datas
  end.

Definition packet_bytes (datas : list (list byte)) (sizes : list Z) (i : nat)
  : list byte :=
  pad_take (Z.to_nat (int_add (default 0 (sizes !! i)) offset))
           (default [] (datas !! i)).

Definition batch_packets (n : Z) (datas : list (list byte)) (sizes : list Z)
    (from : nat) : list (list byte) :=
  packet_bytes datas sizes <$> seq from (Z.to_nat n - from).

Fixpoint read_packets (cap : Z) (datas : list (list byte)) (sizes : list Z)
    (src : list read_result) : list (list byte) :=
  match src with
  | [] => []
  | r :: src' =>
      let datas' := fill_datas cap datas (rr_fills r) in
      let sizes' := store_sizes sizes (rr_fills r) in
      match rr_err r with
      | Some _ => []
      | None =>
          batch_packets (rr_n r) datas' sizes' 0
            ++ read_packets cap datas' sizes' src'
      end
  end.

Definition delivered (cap : Z) (src : list read_result) : list (list byte) :=
  read_packets cap (replicate (Z.to_nat batchSize) [])
               (replicate (Z.to_nat batchSize) 0) src.

(** ** Well-formedness of the loop states *)

Definition set_len (k : Z) (b : lbuf) : lbuf := LBuf (b_data b) k (b_cap b).

Definition fwd_ok (cap : Z) (st : fwd_state) : Prop :=
  length (fs_bufs st) = Z.to_nat batchSize
  /\ Forall (fun b => b_cap b = cap) (fs_bufs st)
  /\ length (fs_outBufs st) = Z.to_nat batchSize
  /\ length (fs_sizes st) = Z.to_nat batchSize.

(** [bufs[j][:sizes[j]+offset]] *)
Definition resliced (bufs : list lbuf) (sizes : list Z) (j : nat) : option lbuf :=
  sz ← sizes !! j; b ← bufs !! j; reslice b (int_add sz offset).

(** ** Invariants of the channel pipeline *)

(** A packet buffer as [New] and [make([]byte, maxPktSize)] produce it. *)
Definition full_buf (s : slice) : Prop :=
  s_len s = maxPktSize /\ s_cap s = maxPktSize.

Definition pkt_ok (p : packet) : Prop :=
  full_buf (pkt_buf p) /\ 0 <= pkt_size p <= mtuSize + offset.

Definition reader_ok (rd : reader) : Prop :=
  length (r_readBufs rd) = Z.to_nat batchSize
  /\ length (r_sizes rd) = Z.to_nat batchSize
  /\ Forall (fun b => b_cap b = mtuSize + offset) (r_readBufs rd)
  /\ match r_pc rd with
     | RCopy n i b size =>
         Z.of_nat i < n
         /\ s_len b = s_cap b /\ size <= s_cap b
         /\ (s_cap b = maxPktSize \/ maxPktSize < size)
         /\ exists sz, r_sizes rd !! i = Some sz /\ size = int_add sz offset
     | RSend n i pkt => pkt_ok pkt
     | _ => True
     end.

(** The first [n] entries of [bufs] and [originalBufs] hold a batch. *)
Definition batch_ok (wr : writer) (n : nat) : Prop :=
  forall j, (j < n)%nat ->
    exists b, w_bufs wr !! j = Some b
      /\ s_cap b = maxPktSize /\ 0 <= s_len b <= mtuSize + offset
      /\ (w_usePool wr = true ->
          w_originalBufs wr !! j = Some (Slice (s_ptr b) maxPktSize maxPktSize)).

Definition writer_ok (wr : writer) : Prop :=
  length (w_bufs wr) = Z.to_nat batchSize
  /\ length (w_originalBufs wr) = Z.to_nat batchSize
  /\ match w_pc wr with
     | WRecv => True
     | WCollect n | WWrite n =>
         (1 <= n <= Z.to_nat batchSize)%nat /\ batch_ok wr n
     | WPut n i =>
         (1 <= n <= Z.to_nat batchSize)%nat /\ (i <= n)%nat
         /\ w_usePool wr = true /\ batch_ok wr n
     | WPanic => False
     end.

Definition batch_sized (b : list (list byte)) : Prop :=
  (1 <= length b <= Z.to_nat batchSize)%nat.

Definition dir_ok (pool : option (list slice)) (d : direction) : Prop :=
  reader_ok (d_reader d) /\ writer_ok (d_writer d)
  /\ Forall pkt_ok (d_ch d)
  /\ (length (d_ch d) <= chanCap)%nat
  /\ r_usePool (d_reader d) = bool_decide (pool <> None)
  /\ w_usePool (d_writer d) = bool_decide (pool <> None)
  /\ Forall batch_sized (write_calls (d_trace d)).

Definition pool_items (pool : option (list slice)) : list slice :=
  default [] pool.

Definition sys_ok (s : system) : Prop :=
  Forall full_buf (pool_items (sys_pool s))
  /\ Forall (dir_ok (sys_pool s)) (sys_dirs s).

(** ** Predicates on device scripts and on one direction *)

(** The device keeps [sizes[i] + offset] within the read buffer. *)
Definition size_bounded (sz : Z) : Prop := int_add sz offset <= mtuSize + offset.

Definition read_bounded (r : read_result) : Prop :=
  Forall (fun f => size_bounded (f_size f)) (rr_fills r).


Definition full_lens : list Z := replicate (Z.to_nat batchSize) (mtuSize + offset).

(** The fallback of [readToChannel] has not been taken and will not be. *)
Definition never_small (d : direction) : Prop :=
  r_usePool (d_reader d) = false
  /\ Forall size_bounded (r_sizes (d_reader d))
  /\ Forall read_bounded (d_src d)
  /\ match r_pc (d_reader d) with
     | RCopy _ _ b size => s_cap b = maxPktSize /\ size <= mtuSize + offset
     | _ => True
     end
  /\ EvLog warn_small ∉ d_trace d.



Definition writer_count (d : direction) : Prop :=
  match w_pc (d_writer d) with
  | WCollect n | WWrite n | WPut n _ => (1 <= n <= Z.to_nat batchSize)%nat
  | WRecv => True
  | WPanic => False
  end.

(** ** Who holds which packet buffer, and what the buffers hold *)

Definition reader_owned (pc : reader_pc) : list nat :=
  match pc with
  | RCopy _ _ b _ => [s_ptr b]
  | RSend _ _ p => [s_ptr (pkt_buf p)]
  | _ => []
  end.

(** The buffers of the batch the writer has in hand and has not yet put
    back. *)
Definition writer_held (wr : writer) : list slice :=
  match w_pc wr with
  | WCollect n | WWrite n => take n (w_bufs wr)
  | WPut n i => drop i (take n (w_bufs wr))
  | _ => []
  end.

Definition pkt_ptr (p : packet) : nat := s_ptr (pkt_buf p).

Definition dir_owned (d : direction) : list nat :=
  (s_ptr <$> writer_held (d_writer d)) ++ (pkt_ptr <$> d_ch d)
    ++ reader_owned (r_pc (d_reader d)).

Definition sys_owned (s : system) : list nat :=
  (s_ptr <$> pool_items (sys_pool s)) ++ concat (dir_owned <$> sys_dirs s).

(** How often the array at address [q] occurs in a list of addresses. *)
Definition occ (q : nat) (l : list nat) : nat := count_occ Nat.eq_dec l q.

(** No buffer is held twice, and every held buffer is allocated: an
    allocated array occurs at most once among the held ones, any other
    address never. *)
Definition owned_ok (s : system) : Prop :=
  forall q, (occ q (sys_owned s)
             <= if decide (q < length (sys_heap s))%nat then 1 else 0)%nat.

(** [pkt.buf[:pkt.size]] *)
Definition pkt_bytes (h : list (list byte)) (p : packet) : list byte :=
  pad_take (Z.to_nat (pkt_size p)) (heap_get h (pkt_ptr p)).

Definition writer_inflight (h : list (list byte)) (wr : writer)
  : list (list byte) :=
  match w_pc wr with
  | WCollect n | WWrite n => slice_bytes h <$> take n (w_bufs wr)
  | _ => []
  end.

Definition reader_inflight (h : list (list byte)) (pc : reader_pc)
  : list (list byte) :=
  match pc with
  | RSend _ _ p => [pkt_bytes h p]
  | _ => []
  end.

(** The packets between the copy out of the read buffer and the [Write], in
    the order they were read. *)
Definition inflight (h : list (list byte)) (d : direction) : list (list byte) :=
  writer_inflight h (d_writer d) ++ (pkt_bytes h <$> d_ch d)
    ++ reader_inflight h (r_pc (d_reader d)).

(** The packets the reader has yet to copy: the rest of the current batch
    and all that the device will still deliver. *)
Definition pending (d : direction) : list (list byte) :=
  let rd := d_reader d in
  let datas := b_data <$> r_readBufs rd in
  let rest := read_packets (mtuSize + offset) datas (r_sizes rd) (d_src d) in
  match r_pc rd with
  | RRead => rest
  | RLoop n i | RCopy n i _ _ => batch_packets n datas (r_sizes rd) i ++ rest
  | RSend n i _ => batch_packets n datas (r_sizes rd) (S i) ++ rest
  | RDone | RPanic => []
  end.

(** [total] is what the source device delivers in all; a direction accounts
    for all of it, in order, until its reader panics, after which what it
    wrote and holds is still a prefix. *)
Definition dir_data (h : list (list byte)) (total : list (list byte))
    (d : direction) : Prop :=
  match r_pc (d_reader d) with
  | RPanic => (written (d_trace d) ++ inflight h d) `prefix_of` total
  | _ => written (d_trace d) ++ inflight h d ++ pending d = total
  end.

Definition data_ok (totals : list (list (list byte))) (s : system) : Prop :=
  length totals = length (sys_dirs s)
  /\ forall k t d, totals !! k = Some t -> sys_dirs s !! k = Some d ->
       dir_data (sys_heap s) t d.

Definition sys_inv (totals : list (list (list byte))) (s : system) : Prop :=
  sys_ok s /\ owned_ok s /\ data_ok totals s.

(** How many consecutive writer steps [k] a direction takes on its own. *)
Fixpoint writer_steps (k : nat) (st : step_result) : step_result :=
  match k with
  | O => st
  | S k' =>
      let '(h, pool, d) := st in
      match writer_step h pool d with
      | Some st' => writer_steps k' st'
      | None => st
      end
  end.

(** ** A device that honours the contract of [Read]

    For buffers of length [mtuSize + offset]: at most [batchSize] packets a
    call, each stored within its buffer, with a size between 0 and
    [mtuSize]. *)

Definition fill_fits (f : fill) : Prop :=
  (length (f_data f) <= Z.to_nat (mtuSize + offset))%nat
  /\ 0 <= f_size f <= mtuSize.

Definition well_behaved (r : read_result) : Prop :=
  0 <= rr_n r <= batchSize /\ Forall fill_fits (rr_fills r).

Definition size_ok (sz : Z) : Prop := 0 <= sz <= mtuSize.

(** The reader of a direction fed by such a device. *)
Definition calm (d : direction) : Prop :=
  Forall size_ok (r_sizes (d_reader d))
  /\ Forall well_behaved (d_src d)
  /\ match r_pc (d_reader d) with
     | RLoop n _ | RCopy n _ _ _ | RSend n _ _ => n <= batchSize
     | RPanic => False
     | _ => True
     end.

(** ** Concrete devices and states for the examples *)

(** One read of one packet whose first byte is [x45], with [sizes[0] = sz];
    [len] is the length the device leaves [bufs[0]] with, if it reslices. *)
Definition one_packet (sz : Z) (len : option Z) : read_result :=
  ReadResult 1 None [Fill [Byte.x45] sz len].

Definition idle_device : device := Device [] [].


(** * The rest of the program *)

(** ** [main]: the command line *)

(** [strings.HasPrefix(s, p)] *)
Definition HasPrefix (s p : string) : bool := String.prefix p s.

(** [strings.TrimPrefix(s, p)] *)
Definition TrimPrefix (s p : string) : string :=
  if HasPrefix s p
  then String.substring (String.length p) (String.length s - String.length p) s
  else s.

Record flags := Flags { fl_mode : string; fl_useChannel : bool; fl_usePool : bool }.

(** The body of [for _, arg := range os.Args[1:]]. *)
Definition parse_arg (f : flags) (arg : string) : flags :=
  if HasPrefix arg "-mode=" then
    Flags (TrimPrefix arg "-mode=") (fl_useChannel f) (fl_usePool f)
  else if String.eqb arg "-useChannel" then
    Flags (fl_mode f) true (fl_usePool f)
  else if String.eqb arg "-usePool" then
    Flags (fl_mode f) (fl_useChannel f) true
  else f.

Definition parse_args (args : list string) : flags :=
  foldl parse_arg (Flags "" false false) args.

(** Which [Run] [main] calls, and with what. *)
Inductive call :=
| CallNormalRun (useChannel : bool)            (* normal_tun.Run(useChannel) *)
| CallTunRun (useChannel usePool : bool).      (* tun.Run(useChannel, usePool) *)

Definition main (args : list string) : call :=
  let f := parse_args args in
  if String.eqb (fl_mode f) "normal" then CallNormalRun (fl_useChannel f)
  else CallTunRun (fl_useChannel f) (fl_usePool f).

(** The mode named by the last [-mode=] argument, if any. *)
Definition mode_of (arg : string) : option string :=
  if HasPrefix arg "-mode=" then Some (TrimPrefix arg "-mode=") else None.

(** ** [runCmd] and [setupTun]

    The operating system is the list of what the successive commands
    return, output and error; past its end every command succeeds. *)

Record cmd_result := CmdResult { cr_out : string; cr_err : option string }.

(** The state threaded through the commands: what is left of the system's
    answers and the commands run so far, each as its argv. *)
Record shell := Shell { sh_script : list cmd_result; sh_ran : list (list string) }.

(** [%v] of a [[]string] *)
Definition fmt_strings (l : list string) : string :=
  ("[" ++ String.concat " " l ++ "]")%string.

(** [runCmd]: [None] is the nil error. *)
Definition runCmd (name : string) (args : list string) (sh : shell)
  : option string * shell :=
  let r := match sh_script sh with
           | [] => CmdResult "" None
           | r :: _ => r
           end in
  let sh' := Shell (tail (sh_script sh)) (sh_ran sh ++ [name :: args]) in
  match cr_err r with
  | Some e =>
      (Some ("runCmd: " ++ name ++ " " ++ fmt_strings args ++ ": " ++ e
               ++ ": " ++ cr_out r)%string, sh')
  | None => (None, sh')
  end.

(** [setupTun] of the channel variant; the third component is what it
    logs. *)
Definition setupTun (name ip cidr : string) (sh : shell)
  : option string * shell * list event :=
  let addr := (ip ++ "/" ++ cidr)%string in
  match runCmd "ip" ["addr"; "add"; addr; "dev"; name]%string sh with
  | (Some e, sh1) => (Some e, sh1, [])
  | (None, sh1) =>
      match runCmd "ip" ["link"; "set"; "dev"; name; "up"]%string sh1 with
      | (Some e, sh2) => (Some e, sh2, [])
      | (None, sh2) =>
          (None, sh2,
           [EvLog ("Successfully set up TUN device " ++ name
                     ++ " with address " ++ addr)])
      end
  end.

(** ** Package [normal_tun]: one packet per call

    A [water.Interface] is taken as a parameter like [Device]: its name,
    what its successive [Read(p)] calls store at the start of [p] and
    return, and what its successive [Write(p)] calls answer. *)

Module Normal.

Record read_result := ReadResult {
  nr_data : list byte;       (* bytes stored from index 0 of the buffer *)
  nr_n : Z;
  nr_err : option string
}.

Record iface := Iface {
  if_name : string;
  if_reads : list read_result;
  if_writes : list write_result
}.

Inductive event :=
| NRead                       (* Read(buffer) is called *)
| NWrite (p : list byte)      (* Write(p) is called *)
| NLog (msg : string).

(** [make([]byte, 65536)] *)
Definition bufSize : Z := 65536.

(** the buffer after a [Read] *)
Definition after_read (buf : list byte) (r : read_result) : list byte :=
  write_prefix buf (take (Z.to_nat bufSize) (nr_data r)).

(** [buffer[:n]], [None] when out of range *)
Definition packet_of (buf : list byte) (n : Z) : option (list byte) :=
  if (0 <=? n) && (n <=? bufSize) then Some (pad_take (Z.to_nat n) buf)
  else None.

Definition written (tr : list event) : list (list byte) :=
  omap (fun e => match e with NWrite p => Some p | _ => None end) tr.

Definition reads_made (tr : list event) : nat :=
  length (omap (fun e => match e with NRead => Some tt | _ => None end) tr).

Definition cons_events (evs : list event) (r : list event * outcome)
  : list event * outcome := (evs ++ r.1, r.2).

(** [forward(src, dst)] *)
Fixpoint forward_loop (src_name dst_name : string)
    (reads : list read_result) (writes : list write_result)
    (packet : list byte) : list event * outcome :=
  match reads with
  | [] => ([NRead], BlockedOnRead)
  | r :: reads' =>
      let packet := after_read packet r in
      match nr_err r with
      | Some e =>
          ([NRead; NLog ("Error reading from " ++ src_name ++ ": " ++ e)],
           Returned)
      | None =>
          match packet_of packet (nr_n r) with
          | None => ([NRead], Panicked)
          | Some p =>
              let '(w, writes') := next_write (length p) writes in
              match wr_err w with
              | Some e =>
                  ([NRead; NWrite p;
                    NLog ("Error writing to " ++ dst_name ++ ": " ++ e)],
                   Returned)
              | None =>
                  cons_events [NRead; NWrite p]
                    (forward_loop src_name dst_name reads' writes' packet)
              end
          end
      end
  end.

Definition forward (src dst : iface) : list event * outcome :=
  forward_loop (if_name src) (if_name dst) (if_reads src) (if_writes dst) [].

(** The packets the interface delivers up to its first failing [Read]. *)
Fixpoint delivered (reads : list read_result) (buf : list byte)
  : list (list byte) :=
  match reads with
  | [] => []
  | r :: reads' =>
      match nr_err r with
      | Some _ => []
      | None =>
          pad_take (Z.to_nat (nr_n r)) (after_read buf r)
            :: delivered reads' (after_read buf r)
      end
  end.

(** *** [readFromTun] and [writeToTun] *)

Inductive reader_pc :=
| RdRead                    (* at iface.Read *)
| RdSend (pkt : list byte)  (* at ch <- packet *)
| RdDone                    (* returned; the deferred close has run *)
| RdPanic.

Inductive writer_pc :=
| WrRecv                    (* at for pkt := range ch *)
| WrWrite (pkt : list byte) (* at iface.Write *)
| WrFailed                  (* returned at the failing Write *)
| WrDone.                   (* returned after the channel was closed *)

Record pipe := Pipe {
  p_src : string;
  p_dst : string;
  p_reads : list read_result;
  p_writes : list write_result;
  p_buffer : list byte;
  p_ch : list (list byte);
  p_closed : bool;
  p_rd : reader_pc;
  p_wr : writer_pc;
  p_trace : list event
}.

Definition closed_msg (name : string) : string :=
  ("Channel for " ++ name ++ " closed. Writer goroutine finished.")%string.

(** One step of [readFromTun]. *)
Definition reader_step (p : pipe) : option pipe :=
  match p_rd p with
  | RdRead =>
      match p_reads p with
      | [] => None
      | r :: reads' =>
          let buffer := after_read (p_buffer p) r in
          match nr_err r with
          | Some e =>
              Some (Pipe (p_src p) (p_dst p) reads' (p_writes p) buffer (p_ch p)
                      true RdDone (p_wr p)
                      (p_trace p ++
                       [NRead;
                        NLog ("Error reading from " ++ p_src p ++ ": " ++ e
                                ++ ". Goroutine terminating.")]))
          | None =>
              match packet_of buffer (nr_n r) with
              | None =>
                  Some (Pipe (p_src p) (p_dst p) reads' (p_writes p) buffer
                          (p_ch p) true RdPanic (p_wr p) (p_trace p ++ [NRead]))
              | Some pkt =>
                  Some (Pipe (p_src p) (p_dst p) reads' (p_writes p) buffer
                          (p_ch p) (p_closed p) (RdSend pkt) (p_wr p)
                          (p_trace p ++ [NRead]))
              end
          end
      end
  | RdSend pkt =>
      if decide (length (p_ch p) < chanCap)%nat then
        Some (Pipe (p_src p) (p_dst p) (p_reads p) (p_writes p) (p_buffer p)
                (p_ch p ++ [pkt]) (p_closed p) RdRead (p_wr p) (p_trace p))
      else None
  | RdDone | RdPanic => None
  end.

(** One step of [writeToTun]. *)
Definition writer_step (p : pipe) : option pipe :=
  match p_wr p with
  | WrRecv =>
      match p_ch p with
      | pkt :: ch' =>
          Some (Pipe (p_src p) (p_dst p) (p_reads p) (p_writes p) (p_buffer p)
                  ch' (p_closed p) (p_rd p) (WrWrite pkt) (p_trace p))
      | [] =>
          if p_closed p then
            Some (Pipe (p_src p) (p_dst p) (p_reads p) (p_writes p) (p_buffer p)
                    [] true (p_rd p) WrDone
                    (p_trace p ++ [NLog (closed_msg (p_dst p))]))
          else None
      end
  | WrWrite pkt =>
      let '(w, writes') := next_write (length pkt) (p_writes p) in
      Some (Pipe (p_src p) (p_dst p) (p_reads p) writes' (p_buffer p) (p_ch p)
              (p_closed p) (p_rd p)
              (match wr_err w with Some _ => WrFailed | None => WrRecv end)
              (p_trace p ++ NWrite pkt ::
                 match wr_err w with
                 | Some e =>
                     [NLog ("Error writing to " ++ p_dst p ++ ": " ++ e
                              ++ ". Goroutine terminating.")]
                 | None => []
                 end))
  | WrFailed | WrDone => None
  end.

(** The scheduler: [true] runs the reader, [false] the writer; a panic of the
    reader ends the process. *)
Definition step (who : bool) (p : pipe) : option pipe :=
  match p_rd p with
  | RdPanic => None
  | _ => if who then reader_step p else writer_step p
  end.

Fixpoint run (sched : list bool) (p : pipe) : pipe :=
  match sched with
  | [] => p
  | who :: sched' => run sched' (default p (step who p))
  end.

(** [forwardWithChannel(src, dst)] *)
Definition forwardWithChannel (src dst : iface) : pipe :=
  Pipe (if_name src) (if_name dst) (if_reads src) (if_writes dst) [] [] false
       RdRead WrRecv [].

(** The packets between [readFromTun]'s copy and [Write], in order. *)
Definition inflight (p : pipe) : list (list byte) :=
  match p_wr p with WrWrite pkt => [pkt] | _ => [] end
    ++ p_ch p
    ++ match p_rd p with RdSend pkt => [pkt] | _ => [] end.

Definition pending (p : pipe) : list (list byte) :=
  match p_rd p with
  | RdRead | RdSend _ => delivered (p_reads p) (p_buffer p)
  | _ => []
  end.

(** The pipeline accounts for every packet until its writer has given up on
    an error or its reader has panicked; from then on it has written a
    prefix. *)
Definition accounted (total : list (list byte)) (p : pipe) : Prop :=
  match p_wr p, p_rd p with
  | WrFailed, _ | _, RdPanic => written (p_trace p) `prefix_of` total
  | _, _ => written (p_trace p) ++ inflight p ++ pending p = total
  end.

Definition pipe_ok (p : pipe) : Prop :=
  (length (p_ch p) <= chanCap)%nat
  /\ (p_closed p = true <-> p_rd p = RdDone \/ p_rd p = RdPanic)
  /\ (NLog (closed_msg (p_dst p)) ∈ p_trace p <-> p_wr p = WrDone)
  /\ (p_wr p = WrDone -> p_rd p = RdDone /\ p_ch p = []).

(** [setupNetwork]: the four commands, in order. *)
Definition network_commands : list (list string) :=
  [ ["ip"; "addr"; "add"; "10.0.1.1/24"; "dev"; "tun11"];
    ["ip"; "link"; "set"; "dev"; "tun11"; "up"];
    ["ip"; "addr"; "add"; "10.0.2.1/24"; "dev"; "tun22"];
    ["ip"; "link"; "set"; "dev"; "tun22"; "up"] ]%string.

(** [runCommand]: the command is logged, then run. *)
Definition runCommand (name : string) (args : list string) (sh : shell)
  : option string * shell * list event :=
  let r := match sh_script sh with
           | [] => CmdResult "" None
           | r :: _ => r
           end in
  let line := String.concat " " args in
  (match cr_err r with
   | Some e =>
       Some ("error running command `" ++ name ++ " " ++ line ++ "`: " ++ e)%string
   | None => None
   end,
   Shell (tail (sh_script sh)) (sh_ran sh ++ [name :: args]),
   [NLog ("Executing: " ++ name ++ " " ++ line)]).

(** [setupNetwork] *)
Definition setupNetwork (sh : shell) : option string * shell * list event :=
  let l0 := [NLog "--- Configuring Network ---"] in
  match runCommand "ip" ["addr"; "add"; "10.0.1.1/24"; "dev"; "tun11"]%string sh with
  | (Some e, sh1, l1) => (Some e, sh1, l0 ++ l1)
  | (None, sh1, l1) =>
  match runCommand "ip" ["link"; "set"; "dev"; "tun11"; "up"]%string sh1 with
  | (Some e, sh2, l2) => (Some e, sh2, l0 ++ l1 ++ l2)
  | (None, sh2, l2) =>
  match runCommand "ip" ["addr"; "add"; "10.0.2.1/24"; "dev"; "tun22"]%string sh2 with
  | (Some e, sh3, l3) => (Some e, sh3, l0 ++ l1 ++ l2 ++ l3)
  | (None, sh3, l3) =>
  match runCommand "ip" ["link"; "set"; "dev"; "tun22"; "up"]%string sh3 with
  | (Some e, sh4, l4) => (Some e, sh4, l0 ++ l1 ++ l2 ++ l3 ++ l4)
  | (None, sh4, l4) =>
      (None, sh4,
       l0 ++ l1 ++ l2 ++ l3 ++ l4
          ++ [NLog "--- Network Configuration Complete ---"])
  end end end end.

(** What [Run] has set going when it reaches the wait for a signal. *)
Inductive started :=
| Direct (t12 t21 : list event * outcome)   (* go forward(tun1, tun2); go forward(tun2, tun1) *)
| Queued (p12 p21 : pipe).                  (* the two calls of forwardWithChannel *)

Inductive boot :=
| Fatal (log : list event) (sh : shell)     (* log.Fatal: the process exits *)
| Up (log : list event) (sh : shell) (st : started).

(** [Run] up to the wait for a signal. [euid] is what [os.Geteuid] returns,
    [new1] and [new2] are the errors of the two [water.New] calls, if any,
    and [tun1], [tun2] the interfaces they return otherwise. *)
Definition Run (useChannel : bool) (euid : Z) (new1 new2 : option string)
    (tun1 tun2 : iface) (sh : shell) : boot :=
  let l0 := [NLog ("useChannel " ++ fmt_bool useChannel ++ " ")] in
  if negb (euid =? 0) then
    Fatal (l0 ++ [NLog "This program must be run as root/sudo to configure network interfaces."])
          sh
  else
  match new1 with
  | Some e => Fatal (l0 ++ [NLog ("Failed to create tun11: " ++ e)]) sh
  | None =>
  let l1 := l0 ++ [NLog ("Interface " ++ if_name tun1 ++ " created.")] in
  match new2 with
  | Some e => Fatal (l1 ++ [NLog ("Failed to create tun22: " ++ e)]) sh
  | None =>
  let l2 := l1 ++ [NLog ("Interface " ++ if_name tun2 ++ " created.")] in
  match setupNetwork sh with
  | (Some e, sh', l3) =>
      Fatal (l2 ++ l3 ++ [NLog ("Failed to setup network: " ++ e)]) sh'
  | (None, sh', l3) =>
      if useChannel then
        Up (l2 ++ l3 ++ [NLog "Starting forwarding with channel..."]) sh'
           (Queued (forwardWithChannel tun1 tun2) (forwardWithChannel tun2 tun1))
      else
        Up (l2 ++ l3 ++ [NLog "Starting direct forwarding (no channel)..."]) sh'
           (Direct (forward tun1 tun2) (forward tun2 tun1))
  end end end.

Definition boot_shell (b : boot) : shell :=
  match b with Fatal _ sh | Up _ sh _ => sh end.

End Normal.

Definition normal_inv (total : list (list byte)) (p : Normal.pipe) : Prop :=
  Normal.pipe_ok p /\ Normal.accounted total p.

(** ** The older [main] and [forward]

    [main] of the first version reads the mode only. *)
Inductive call0 := CallNormalRun0 | CallTunRun0.

Definition main0 (args : list string) : call0 :=
  let mode :=
    foldl (fun mode arg =>
             if HasPrefix arg "-mode=" then TrimPrefix arg "-mode=" else mode)
          ""%string args in
  if String.eqb mode "normal" then CallNormalRun0 else CallTunRun0.

(** The packets of every successful [Read], those after a failing one
    included. *)
Fixpoint read_packets_all (cap : Z) (datas : list (list byte)) (sizes : list Z)
    (src : list read_result) : list (list byte) :=
  match src with
  | [] => []
  | r :: src' =>
      let datas' := fill_datas cap datas (rr_fills r) in
      let sizes' := store_sizes sizes (rr_fills r) in
      match rr_err r with
      | Some _ => read_packets_all cap datas' sizes' src'
      | None =>
          batch_packets (rr_n r) datas' sizes' 0
            ++ read_packets_all cap datas' sizes' src'
      end
  end.

Definition delivered_all (cap : Z) (src : list read_result)
  : list (list byte) :=
  read_packets_all cap (replicate (Z.to_nat batchSize) [])
                   (replicate (Z.to_nat batchSize) 0) src.

(** ** Shapes of a trace *)

(** Every [Write] comes directly after a [Read]; [prev] tells whether the
    event before the trace was a [Read]. *)
Fixpoint sequential (prev : bool) (tr : list event) : bool :=
  match tr with
  | [] => true
  | EvRead _ _ :: tr' => sequential true tr'
  | EvWrite _ _ :: tr' => prev && sequential false tr'
  | EvLog _ :: tr' => sequential false tr'
  end.

(** A [Write] of the forwarders: between one and [batchSize] packets, none
    longer than a buffer of [cap] bytes, at the offset. *)
Definition write_shaped (cap : Z) (e : event) : Prop :=
  match e with
  | EvWrite pkts off =>
      off = offset
      /\ (1 <= length pkts <= Z.to_nat batchSize)%nat
      /\ Forall (fun p => Z.of_nat (length p) <= cap) pkts
  | _ => True
  end.

(** No goroutine of the system can take a step. *)
Definition quiescent (s : system) : Prop := forall a, step a s = None.

(** ** [Run] from its first line

    [create1] and [create2] are the errors of the two [CreateTUN] calls, if
    any; [log.Fatalf] ends the process with the log as it stands. *)
Inductive boot :=
| Fatal (log : list event) (sh : shell)
| Up (sh : shell) (r : system * started).

Definition Run_boot (useChannel usePool : bool) (create1 create2 : option string)
    (tun1 tun2 : device) (sh : shell) : boot :=
  let l0 := [EvLog (banner useChannel usePool)] in
  match create1 with
  | Some e => Fatal (l0 ++ [EvLog ("Failed to create tun11: " ++ e)]) sh
  | None =>
  match setupTun "tun11" "10.0.1.1" "24" sh with
  | (Some e, sh1, l1) =>
      Fatal (l0 ++ l1 ++ [EvLog ("Failed to setup tun11: " ++ e)]) sh1
  | (None, sh1, l1) =>
  match create2 with
  | Some e => Fatal (l0 ++ l1 ++ [EvLog ("Failed to create tun22: " ++ e)]) sh1
  | None =>
  match setupTun "tun22" "10.0.2.1" "24" sh1 with
  | (Some e, sh2, l2) =>
      Fatal (l0 ++ l1 ++ l2 ++ [EvLog ("Failed to setup tun22: " ++ e)]) sh2
  | (None, sh2, l2) => Up sh2 (Run useChannel usePool tun1 tun2)
  end end end end.

Definition tun_commands : list (list string) :=
  [ ["ip"; "addr"; "add"; "10.0.1.1/24"; "dev"; "tun11"];
    ["ip"; "link"; "set"; "dev"; "tun11"; "up"];
    ["ip"; "addr"; "add"; "10.0.2.1/24"; "dev"; "tun22"];
    ["ip"; "link"; "set"; "dev"; "tun22"; "up"] ]%string.

(** How many of the first [n] commands succeed before one fails; a command
    the script has no answer for succeeds. *)
Fixpoint leading_ok (n : nat) (script : list cmd_result) : nat :=
  match n with
  | O => O
  | S n' =>
      match script with
      | [] => n
      | r :: script' =>
          match cr_err r with
          | None => S (leading_ok n' script')
          | Some _ => O
          end
      end
  end.

(** The commands of [setupTun], in order. *)
Definition tun_setup_commands (name ip cidr : string) : list (list string) :=
  [ ["ip"; "addr"; "add"; ip ++ "/" ++ cidr; "dev"; name];
    ["ip"; "link"; "set"; "dev"; name; "up"] ]%string.

(** What the writer of a pipeline still has to do once its reader has
    returned: two steps a queued packet, one for the packet in hand, one to
    see the channel closed. *)
Definition writer_work (p : Normal.pipe) : nat :=
  match Normal.p_wr p with
  | Normal.WrWrite _ => 2 * length (Normal.p_ch p) + 2
  | Normal.WrRecv => 2 * length (Normal.p_ch p) + 1
  | _ => 0
  end.

(** A source that delivers one packet and then fails. *)
Definition one_then_closed : Normal.iface :=
  Normal.Iface "tun11"
    [Normal.ReadResult [Byte.x45] 1 None;
     Normal.ReadResult [] 0 (Some "file already closed"%string)] [].

Definition sink : Normal.iface := Normal.Iface "tun22" [] [].

(** A destination whose first [Write] fails. *)
Definition broken_sink : Normal.iface :=
  Normal.Iface "tun22" [] [WriteResult 0 (Some "input/output error"%string)].

(** ** The goroutines of the channel pipeline at rest *)

(** The reader of a direction has stopped: its device has nothing more for
    it, or it has returned. *)
Definition reader_at_rest (d : direction) : Prop :=
  (r_pc (d_reader d) = RRead /\ d_src d = []) \/ r_pc (d_reader d) = RDone.

(** A bound on the steps the writer of a direction takes, when nothing more
    is sent, until it waits at an empty channel: a packet costs its receive
    and its [Put], a batch the end of the collect loop, the [Write] and the
    end of the [Put] loop. *)
Definition writer_todo (d : direction) : nat :=
  5 * length (d_ch d)
  + match w_pc (d_writer d) with
    | WRecv | WPanic => 0
    | WCollect n => 3 + n
    | WWrite n => 2 + n
    | WPut n i => 1 + (n - i)
    end.

(** One packet read, copied and sent, with the writer yet to run. *)
Definition queued_one_system : system :=
  run [StepReader 0 0; StepReader 0 0; StepReader 0 0;
       StepReader 0 0; StepReader 0 0]
      (Run true false (Device [one_packet 64 None] []) idle_device).1.

Definition queued_one_direction : direction :=
  default (new_direction idle_device idle_device false)
          (sys_dirs queued_one_system !! 0%nat).

(** An interface that honours the contract of [Read]: the count it returns
    is within the buffer. *)
Definition count_in_range (r : Normal.read_result) : Prop :=
  0 <= Normal.nr_n r <= Normal.bufSize.

(** * Properties *)

(** ** Integers and buffers *)

Lemma wrap_int_id z : - 2 ^ 63 <= z < 2 ^ 63 -> wrap_int z = z.
Proof.
  intros Hz. unfold wrap_int.
  rewrite Z.mod_small; lia.
Qed.

Lemma int_add_small a b : - 2 ^ 63 <= a + b < 2 ^ 63 -> int_add a b = a + b.
Proof. apply wrap_int_id. Qed.

Lemma pad_take_length k d : length (pad_take k d) = k.
Proof.
  unfold pad_take. rewrite length_take, length_app, length_replicate. lia.
Qed.

Lemma pad_take_write_prefix k d w :
  length w = k -> pad_take k (write_prefix d w) = w.
Proof.
  intros <-. unfold pad_take, write_prefix.
  rewrite <- app_assoc. apply take_app_length.
Qed.

Lemma reslice_Some b k :
  0 <= k <= b_cap b -> reslice b k = Some (set_len k b).
Proof.
  intros Hk. unfold reslice.
  destruct (Z.leb_spec 0 k), (Z.leb_spec k (b_cap b)); simpl; try lia; done.
Qed.

Lemma reslice_inv b k b' :
  reslice b k = Some b' -> 0 <= k <= b_cap b /\ b' = set_len k b.
Proof.
  unfold reslice.
  destruct (Z.leb_spec 0 k), (Z.leb_spec k (b_cap b)); simpl; try done.
  intros [= <-]. split; [lia | done].
Qed.

Lemma reset_bufs_Some bufLen cap bufs :
  0 <= bufLen <= cap ->
  Forall (fun b => b_cap b = cap) bufs ->
  reset_bufs bufLen bufs = Some (set_len bufLen <$> bufs).
Proof.
  intros Hlen. induction 1 as [|b bufs Hb _ IH]; [done|].
  simpl. rewrite reslice_Some by lia. simpl. rewrite IH. done.
Qed.

Lemma apply_fill_cap b f : b_cap (apply_fill b f) = b_cap b.
Proof. done. Qed.

Lemma apply_fills_length bufs fs : length (apply_fills bufs fs) = length bufs.
Proof.
  revert fs. induction bufs as [|b bufs IH]; intros [|f fs]; simpl; auto.
Qed.

Lemma apply_fills_cap cap bufs fs :
  Forall (fun b => b_cap b = cap) bufs ->
  Forall (fun b => b_cap b = cap) (apply_fills bufs fs).
Proof.
  intros H. revert fs. induction H as [|b bufs Hb Hbs IH]; intros [|f fs]; simpl;
    try constructor; auto.
Qed.

Lemma store_sizes_length sizes fs : length (store_sizes sizes fs) = length sizes.
Proof.
  revert fs. induction sizes as [|b sizes IH]; intros [|f fs]; simpl; auto.
Qed.

Lemma apply_fills_data cap bufs fs :
  Forall (fun b => b_cap b = cap) bufs ->
  b_data <$> apply_fills bufs fs = fill_datas cap (b_data <$> bufs) fs.
Proof.
  intros H. revert fs. induction H as [|b bufs Hb _ IH]; intros [|f fs]; simpl;
    try done.
  rewrite IH, Hb. done.
Qed.

Lemma set_len_data k (bufs : list lbuf) :
  b_data <$> (set_len k <$> bufs) = b_data <$> bufs.
Proof. rewrite <- list_fmap_compose. done. Qed.

Lemma set_len_cap cap k (bufs : list lbuf) :
  Forall (fun b => b_cap b = cap) bufs ->
  Forall (fun b => b_cap b = cap) (set_len k <$> bufs).
Proof. intros H. apply Forall_fmap. eapply Forall_impl; [exact H|]. done. Qed.

Lemma set_len_lens k (bufs : list lbuf) :
  b_len <$> (set_len k <$> bufs) = replicate (length bufs) k.
Proof. induction bufs; simpl; [done | by f_equal]. Qed.

(** ** The reslicing loop of [forward] *)

Lemma reslice_out_spec bufs sizes cnt : forall i outBufs out,
  reslice_out bufs sizes i cnt outBufs = Some out ->
  length out = length outBufs
  /\ forall j, out !! j =
       if decide (i <= j < i + cnt)%nat then resliced bufs sizes j
       else outBufs !! j.
Proof.
  induction cnt as [|cnt IH]; intros i outBufs out; simpl.
  - intros [= <-]. split; [done|]. intros j. case_decide; [lia | done].
  - unfold resliced at 1.
    destruct (sizes !! i) as [sz|] eqn:Hsz; simpl; [|done].
    destruct (bufs !! i) as [b|] eqn:Hb; simpl; [|done].
    destruct (reslice b (int_add sz offset)) as [b'|] eqn:Hb'; simpl; [|done].
    case_decide as Hi; [|done].
    intros Hout. apply IH in Hout as [Hlen Hlook].
    rewrite length_insert in Hlen. split; [done|].
    intros j. rewrite Hlook.
    destruct (decide (j = i)) as [->|Hne].
    + rewrite decide_False by lia. rewrite decide_True by lia.
      rewrite list_lookup_insert_eq by done.
      unfold resliced. rewrite Hsz. simpl. rewrite Hb. simpl. done.
    + rewrite list_lookup_insert_ne by done.
      repeat case_decide; try lia; done.
Qed.

Lemma reslice_out_is_Some bufs sizes cnt : forall i outBufs,
  (i + cnt <= length outBufs)%nat ->
  (forall j, (i <= j < i + cnt)%nat -> is_Some (resliced bufs sizes j)) ->
  is_Some (reslice_out bufs sizes i cnt outBufs).
Proof.
  induction cnt as [|cnt IH]; intros i outBufs Hlen Hall; simpl; [by eexists|].
  destruct (Hall i) as [b' Hb']; [lia|].
  unfold resliced in Hb'.
  destruct (sizes !! i) as [sz|]; simpl in *; [|done].
  destruct (bufs !! i) as [b|]; simpl in *; [|done].
  rewrite Hb'. simpl. rewrite decide_True by lia.
  apply IH; [rewrite length_insert; lia|].
  intros j Hj. apply Hall. lia.
Qed.

(** ** The direct forwarder *)

Lemma forward_init_ok cap : fwd_ok cap (forward_init cap).
Proof.
  unfold fwd_ok, forward_init. cbn [fs_bufs fs_outBufs fs_sizes].
  rewrite !length_replicate. repeat split; try done.
  apply Forall_replicate. done.
Qed.

Lemma forward_loop_nil dst st :
  fwd_ok maxPktSize st ->
  forward_loop [] dst st
  = ([EvRead (replicate (Z.to_nat batchSize) (mtuSize + offset)) offset],
     BlockedOnRead).
Proof.
  intros (Hlen & Hcap & _). simpl.
  rewrite (reset_bufs_Some _ maxPktSize) by (done || (unfold mtuSize, offset, maxPktSize; lia)).
  rewrite set_len_lens, Hlen. done.
Qed.

Lemma forward_loop_cons r src dst st :
  fwd_ok maxPktSize st ->
  forward_loop (r :: src) dst st
  = match forward_body r dst (set_len (mtuSize + offset) <$> fs_bufs st) st with
    | Stop evs o => (evs, o)
    | Continue evs dst' st' => prepend evs (forward_loop src dst' st')
    end.
Proof.
  intros (Hlen & Hcap & _). simpl.
  rewrite (reset_bufs_Some _ maxPktSize) by (done || (unfold mtuSize, offset, maxPktSize; lia)).
  done.
Qed.

Lemma forward_body_read_event r dst st :
  fwd_ok maxPktSize st ->
  exists evs,
    match forward_body r dst (set_len (mtuSize + offset) <$> fs_bufs st) st with
    | Stop evs' _ | Continue evs' _ _ =>
        evs' = EvRead (replicate (Z.to_nat batchSize) (mtuSize + offset)) offset :: evs
        /\ read_calls evs = []
    end.
Proof.
  intros (Hlen & _). unfold forward_body.
  rewrite set_len_lens, Hlen.
  destruct (rr_err r); [by eexists|].
  destruct (rr_n r =? 0); [by eexists|].
  destruct (reslice_out _ _ _ _ _); [|by eexists].
  destruct (slice_to _ _); [|by eexists].
  destruct (next_write _ _) as [w dst'].
  eexists. split; [done|]. unfold log_write_err. by destruct (wr_err w).
Qed.

Lemma forward_body_ok r dst bufs st evs dst' st' :
  fwd_ok maxPktSize st ->
  length bufs = Z.to_nat batchSize ->
  Forall (fun b => b_cap b = maxPktSize) bufs ->
  forward_body r dst bufs st = Continue evs dst' st' ->
  fwd_ok maxPktSize st'.
Proof.
  intros (Hlen & Hcap & Hout & Hsz) Hlen' Hcap'. unfold forward_body.
  assert (fwd_ok maxPktSize
            (FwdState (apply_fills bufs (rr_fills r)) (fs_outBufs st)
                      (store_sizes (fs_sizes st) (rr_fills r)))) as Hok.
  { repeat split; simpl.
    - by rewrite apply_fills_length.
    - by apply apply_fills_cap.
    - done.
    - by rewrite store_sizes_length. }
  destruct (rr_err r); [done|].
  destruct (rr_n r =? 0); [by intros [= <- <- <-]|].
  destruct (reslice_out _ _ _ _ _) as [out|] eqn:Hro; [|done].
  destruct (slice_to _ _); [|done].
  destruct (next_write _ _) as [w dst''].
  intros [= <- <- <-].
  apply reslice_out_spec in Hro as [Hl _].
  destruct Hok as (? & ? & ? & ?). repeat split; simpl in *; congruence.
Qed.

Lemma forward_body_step_ok r dst st evs dst' st' :
  fwd_ok maxPktSize st ->
  forward_body r dst (set_len (mtuSize + offset) <$> fs_bufs st) st
    = Continue evs dst' st' ->
  fwd_ok maxPktSize st'.
Proof.
  intros Hok. apply forward_body_ok; [done| |].
  - rewrite length_fmap. apply Hok.
  - apply set_len_cap, Hok.
Qed.

(** The buffers of a batch, read off the state after [Read]. *)
Lemma slice_to_Some {A} (l : list A) n :
  0 <= n <= Z.of_nat (length l) -> slice_to l n = Some (take (Z.to_nat n) l).
Proof.
  intros Hn. unfold slice_to.
  destruct (Z.leb_spec 0 n), (Z.leb_spec n (Z.of_nat (length l))); simpl;
    try lia; done.
Qed.

Lemma slice_to_inv {A} (l out : list A) n :
  slice_to l n = Some out ->
  0 <= n <= Z.of_nat (length l) /\ out = take (Z.to_nat n) l.
Proof.
  unfold slice_to.
  destruct (Z.leb_spec 0 n), (Z.leb_spec n (Z.of_nat (length l))); simpl;
    try done.
  intros [= <-]. split; [lia | done].
Qed.

(** One round of the loop on a successful, well-formed [Read]. *)
Lemma forward_loop_round (r : read_result) (src : list read_result)
    (st : fwd_state) :
  fwd_ok maxPktSize st ->
  rr_err r = None ->
  let ev_read := EvRead (replicate (Z.to_nat batchSize) (mtuSize + offset)) offset in
  let bufs :=
    apply_fills (set_len (mtuSize + offset) <$> fs_bufs st) (rr_fills r) in
  let sizes := store_sizes (fs_sizes st) (rr_fills r) in
  (rr_n r = 0 ->
   forall dst,
     forward_loop (r :: src) dst st
     = prepend [ev_read]
         (forward_loop src dst (FwdState bufs (fs_outBufs st) sizes)))
  /\ (0 < rr_n r <= batchSize ->
      (forall i sz, (i < Z.to_nat (rr_n r))%nat -> sizes !! i = Some sz ->
                    0 <= sz + offset <= maxPktSize) ->
      exists out outBufs,
        length out = Z.to_nat (rr_n r)
        /\ (forall i, (i < Z.to_nat (rr_n r))%nat ->
              exists b sz, bufs !! i = Some b /\ sizes !! i = Some sz
                /\ reslice b (sz + offset) = Some (set_len (sz + offset) b)
                /\ out !! i = Some (set_len (sz + offset) b))
        /\ fwd_ok maxPktSize (FwdState bufs outBufs sizes)
        /\ forall dst,
             forward_loop (r :: src) dst st
             = prepend (ev_read :: EvWrite (lbuf_bytes <$> out) offset
                                :: log_write_err (next_write (length out) dst).1)
                 (forward_loop src (next_write (length out) dst).2
                    (FwdState bufs outBufs sizes))).
Proof.
  intros Hok Herr ev_read bufs sizes.
  pose proof Hok as (Hlen & Hcap & Hout & Hsz).
  assert (length bufs = Z.to_nat batchSize) as Hlenb.
  { unfold bufs. by rewrite apply_fills_length, length_fmap. }
  assert (Forall (fun b => b_cap b = maxPktSize) bufs) as Hcapb.
  { unfold bufs. by apply apply_fills_cap, set_len_cap. }
  assert (length sizes = Z.to_nat batchSize) as Hlens.
  { unfold sizes. by rewrite store_sizes_length. }
  split.
  - intros Hn dst. rewrite forward_loop_cons by done.
    unfold forward_body. rewrite Herr, Hn. simpl.
    rewrite set_len_lens, Hlen. done.
  - intros Hn Hsizes.
    assert (forall i, (i < Z.to_nat (rr_n r))%nat ->
              exists b sz, bufs !! i = Some b /\ sizes !! i = Some sz
                /\ reslice b (sz + offset) = Some (set_len (sz + offset) b)
                /\ resliced bufs sizes i = Some (set_len (sz + offset) b)) as Hres.
    { intros i Hi.
      assert (i < Z.to_nat batchSize)%nat as Hi' by lia.
      destruct (lookup_lt_is_Some_2 bufs i) as [b Hb]; [lia|].
      destruct (lookup_lt_is_Some_2 sizes i) as [sz Hs]; [lia|].
      exists b, sz. specialize (Hsizes i sz Hi Hs).
      assert (b_cap b = maxPktSize) as Hc.
      { eapply Forall_lookup_1 in Hcapb; [exact Hcapb | exact Hb]. }
      assert (reslice b (sz + offset) = Some (set_len (sz + offset) b)) as Hr.
      { apply reslice_Some. lia. }
      repeat split; try done.
      unfold resliced. rewrite Hs. simpl. rewrite Hb. simpl.
      rewrite int_add_small; [done|].
      unfold maxPktSize, offset in *. lia. }
    destruct (reslice_out_is_Some bufs sizes (Z.to_nat (rr_n r)) 0 (fs_outBufs st))
      as [outBufs HoutBufs].
    { rewrite Hout. lia. }
    { intros j Hj. destruct (Hres j) as (b & sz & _ & _ & _ & ->); [lia|]. done. }
    pose proof (reslice_out_spec _ _ _ _ _ _ HoutBufs) as [Hl Hlook].
    exists (take (Z.to_nat (rr_n r)) outBufs), outBufs.
    split; [rewrite length_take; lia|]. split; [|split].
    + intros i Hi. destruct (Hres i Hi) as (b & sz & Hb & Hs & Hr & Hrs).
      exists b, sz. repeat split; try done.
      rewrite lookup_take_lt by done. rewrite Hlook.
      rewrite decide_True by lia. done.
    + unfold fwd_ok. cbn [fs_bufs fs_outBufs fs_sizes].
      split_and!; try done. congruence.
    + intros dst. rewrite forward_loop_cons by done.
      unfold forward_body. rewrite Herr.
      destruct (Z.eqb_spec (rr_n r) 0) as [|_]; [lia|].
      rewrite set_len_lens, Hlen.
      fold bufs sizes. rewrite HoutBufs.
      rewrite slice_to_Some by lia.
      destruct (next_write _ dst) as [w dst'] eqn:Hw. simpl. done.
Qed.


(** C7: in the loop of [forward], a successful [Read] of count zero goes
    straight to the next [Read] without any [Write]; a successful [Read] of
    count [n > 0] is followed by exactly one [Write], of [n] buffers, the
    [i]-th being [bufs[i][:sizes[i]+offset]]. *)
Theorem forward_zero_retry_else_one_write
    (r : read_result) (src : list read_result) (dst : list write_result)
    (st : fwd_state) :
  fwd_ok maxPktSize st ->
  rr_err r = None ->
  let ev_read := EvRead (replicate (Z.to_nat batchSize) (mtuSize + offset)) offset in
  let bufs :=
    apply_fills (set_len (mtuSize + offset) <$> fs_bufs st) (rr_fills r) in
  let sizes := store_sizes (fs_sizes st) (rr_fills r) in
  (rr_n r = 0 ->
     forward_loop (r :: src) dst st
     = prepend [ev_read]
         (forward_loop src dst (FwdState bufs (fs_outBufs st) sizes)))
  /\ (0 < rr_n r <= batchSize ->
      (forall i sz, (i < Z.to_nat (rr_n r))%nat -> sizes !! i = Some sz ->
                    0 <= sz + offset <= maxPktSize) ->
      exists out outBufs,
        length out = Z.to_nat (rr_n r)
        /\ (forall i, (i < Z.to_nat (rr_n r))%nat ->
              exists b sz, bufs !! i = Some b /\ sizes !! i = Some sz
                /\ reslice b (sz + offset) = Some (set_len (sz + offset) b)
                /\ out !! i = Some (set_len (sz + offset) b))
        /\ forward_loop (r :: src) dst st
           = prepend (ev_read :: EvWrite (lbuf_bytes <$> out) offset
                              :: log_write_err (next_write (length out) dst).1)
               (forward_loop src (next_write (length out) dst).2
                  (FwdState bufs outBufs sizes))).
Proof.
  intros Hok Herr ev_read bufs sizes.
  destruct (forward_loop_round r src st Hok Herr) as [H0 Hn].
  split; [intros Hz; by apply H0|].
  intros Hrange Hsizes.
  destruct (Hn Hrange Hsizes) as (out & outBufs & Hlen & Hbufs & _ & Heq).
  by exists out, outBufs.
Qed.

Lemma written_app tr1 tr2 : written (tr1 ++ tr2) = written tr1 ++ written tr2.
Proof. unfold written. by rewrite omap_app, concat_app. Qed.

Lemma written_log_write_err w : written (log_write_err w) = [].
Proof. unfold log_write_err. by destruct (wr_err w). Qed.

Lemma read_calls_app tr1 tr2 :
  read_calls (tr1 ++ tr2) = read_calls tr1 ++ read_calls tr2.
Proof. unfold read_calls. by rewrite omap_app. Qed.

Lemma write_calls_app tr1 tr2 :
  write_calls (tr1 ++ tr2) = write_calls tr1 ++ write_calls tr2.
Proof. unfold write_calls. by rewrite omap_app. Qed.

(** The bytes of a batch are the packets the device delivered. *)
Lemma batch_bytes bufs sizes cnt outBufs out n :
  reslice_out bufs sizes 0 cnt outBufs = Some out ->
  (n <= cnt)%nat -> (n <= length out)%nat ->
  lbuf_bytes <$> take n out
  = packet_bytes (b_data <$> bufs) sizes <$> seq 0 n.
Proof.
  intros Hro Hn Hlen. apply reslice_out_spec in Hro as [_ Hlook].
  apply list_eq. intros i.
  rewrite !list_lookup_fmap.
  destruct (decide (i < n)%nat) as [Hi|Hi].
  - rewrite lookup_take_lt by done. rewrite lookup_seq_lt by done. simpl.
    destruct (lookup_lt_is_Some_2 out i) as [b' Hb']; [lia|].
    rewrite Hb'. simpl. f_equal.
    rewrite Hlook in Hb'. rewrite decide_True in Hb' by lia.
    unfold resliced in Hb'.
    destruct (sizes !! i) as [sz|] eqn:Hsz; simpl in Hb'; [|done].
    destruct (bufs !! i) as [b|] eqn:Hb; simpl in Hb'; [|done].
    apply reslice_inv in Hb' as [_ ->].
    unfold packet_bytes, lbuf_bytes. rewrite Hsz, list_lookup_fmap, Hb. done.
  - rewrite lookup_take_ge by lia. rewrite lookup_seq_ge by lia. done.
Qed.

Lemma forward_body_written r dst bufs st :
  Forall (fun b => b_cap b = maxPktSize) bufs ->
  let datas := fill_datas maxPktSize (b_data <$> bufs) (rr_fills r) in
  let sizes := store_sizes (fs_sizes st) (rr_fills r) in
  match forward_body r dst bufs st with
  | Stop evs Panicked => written evs = [] /\ rr_err r = None
  | Stop evs _ => written evs = [] /\ rr_err r <> None
  | Continue evs dst' st' =>
      rr_err r = None
      /\ written evs = batch_packets (rr_n r) datas sizes 0
      /\ b_data <$> fs_bufs st' = datas
      /\ fs_sizes st' = sizes
  end.
Proof.
  intros Hcap datas sizes. unfold forward_body.
  destruct (rr_err r) eqn:Herr; [done|].
  destruct (Z.eqb_spec (rr_n r) 0) as [Hn|Hn].
  { simpl. rewrite Hn. split; [done|]. split; [done|].
    split; [|done]. by apply (apply_fills_data maxPktSize). }
  destruct (reslice_out _ _ _ _ _) as [out|] eqn:Hro; [|done].
  destruct (slice_to _ _) as [batch|] eqn:Hst; [|done].
  destruct (next_write _ _) as [w dst'].
  apply slice_to_inv in Hst as [Hrange ->].
  cbn [fs_bufs fs_sizes]. split; [done|]. split; [|split; [|done]].
  - change (written (?a :: ?b :: ?c)) with (written ([a; b] ++ c)).
    rewrite written_app, written_log_write_err, app_nil_r.
    unfold written. simpl. rewrite app_nil_r.
    erewrite batch_bytes; [|exact Hro|done|lia].
    unfold batch_packets. rewrite Nat.sub_0_r.
    by rewrite (apply_fills_data maxPktSize).
  - by apply (apply_fills_data maxPktSize).
Qed.

Lemma forward_loop_written src : forall dst st,
  fwd_ok maxPktSize st ->
  written (forward_loop src dst st).1
    `prefix_of` read_packets maxPktSize (b_data <$> fs_bufs st) (fs_sizes st) src
  /\ ((forward_loop src dst st).2 <> Panicked ->
      written (forward_loop src dst st).1
      = read_packets maxPktSize (b_data <$> fs_bufs st) (fs_sizes st) src).
Proof.
  induction src as [|r src IH]; intros dst st Hok.
  { rewrite forward_loop_nil by done. simpl. done. }
  rewrite forward_loop_cons by done.
  pose proof (forward_body_written r dst (set_len (mtuSize + offset) <$> fs_bufs st) st) as Hw.
  pose proof (forward_body_step_ok r dst st) as Hstep.
  rewrite set_len_data in Hw.
  destruct (forward_body _ _ _ _) as [evs dst' st'|evs o].
  - destruct Hw as (Herr & Hwr & Hdat & Hsz); [apply set_len_cap, Hok|].
    specialize (Hstep _ _ _ Hok eq_refl).
    destruct (IH dst' st' Hstep) as [IH1 IH2].
    simpl. rewrite Herr, written_app, Hwr.
    rewrite Hdat, Hsz in IH1, IH2.
    split; [by apply prefix_app|].
    intros Hnp. by rewrite IH2.
  - simpl. destruct o; destruct Hw as [-> Herr]; try (apply set_len_cap, Hok).
    + destruct (rr_err r); done.
    + destruct (rr_err r); done.
    + split; [apply prefix_nil | done].
Qed.


(** *** The stand-alone variant *)

Lemma basic_forward_loop_nil dst st :
  fwd_ok Basic.bufLen st ->
  Basic.forward_loop [] dst st
  = ([EvRead (replicate (Z.to_nat Basic.batch) Basic.bufLen) Basic.offset],
     BlockedOnRead).
Proof.
  intros (Hlen & Hcap & _). simpl.
  rewrite (reset_bufs_Some _ Basic.bufLen) by (done || (unfold Basic.bufLen; lia)).
  rewrite set_len_lens, Hlen. done.
Qed.

Lemma basic_forward_loop_cons r src dst st :
  fwd_ok Basic.bufLen st ->
  Basic.forward_loop (r :: src) dst st
  = match Basic.forward_body r dst (set_len Basic.bufLen <$> fs_bufs st) st with
    | Stop evs o => (evs, o)
    | Continue evs dst' st' => prepend evs (Basic.forward_loop src dst' st')
    end.
Proof.
  intros (Hlen & Hcap & _). simpl.
  rewrite (reset_bufs_Some _ Basic.bufLen) by (done || (unfold Basic.bufLen; lia)).
  done.
Qed.

(** Whatever is left of the script, the loop opens with a [Read]. *)
Lemma basic_forward_loop_head src dst st :
  fwd_ok Basic.bufLen st ->
  exists tr,
    (Basic.forward_loop src dst st).1
    = EvRead (replicate (Z.to_nat Basic.batch) Basic.bufLen) Basic.offset :: tr.
Proof.
  intros Hok. destruct src as [|r src].
  { rewrite basic_forward_loop_nil by done. by eexists. }
  rewrite basic_forward_loop_cons by done.
  destruct Hok as (Hlen & _).
  unfold Basic.forward_body. rewrite set_len_lens, Hlen.
  destruct (rr_err r); [by eexists|].
  destruct (rr_n r =? 0); [by eexists|].
  destruct (reslice_out _ _ _ _ _); [|by eexists].
  destruct (slice_to _ _); [|by eexists].
  destruct (next_write _ _) as [w dst']. by eexists.
Qed.

Lemma basic_after_read_error_ok (fills : list fill) :
  fwd_ok Basic.bufLen
    (FwdState
       (apply_fills
          (set_len Basic.bufLen <$> replicate (Z.to_nat Basic.batch) (make_lbuf Basic.bufLen))
          fills)
       (replicate (Z.to_nat Basic.batch) nil_lbuf)
       (store_sizes (replicate (Z.to_nat Basic.batch) 0) fills)).
Proof.
  unfold fwd_ok. cbn [fs_bufs fs_outBufs fs_sizes].
  rewrite apply_fills_length, store_sizes_length, length_fmap, !length_replicate.
  repeat split; try done.
  apply apply_fills_cap, set_len_cap, Forall_replicate. done.
Qed.

(** C2: a failing [Read] ends [forward] and [readToChannel] on the spot: the
    trace stops at the log line and the goroutine has returned, whatever the
    device would deliver next.  The stand-alone [forward] does not: after
    the log line it calls [Read] again. *)
Theorem read_error_terminal_except_basic_forward :
  (forall n e fills src dst,
     forward (ReadResult n (Some e) fills :: src) dst
     = ([EvRead (replicate (Z.to_nat batchSize) (mtuSize + offset)) offset;
         EvLog ("Read error, exiting goroutine: " ++ e)], Returned))
  /\ (forall choice h pool n e fills src dst ch bufs sizes up wr tr,
        reader_step choice h pool
          (Direction (ReadResult n (Some e) fills :: src) dst ch
                     (Reader RRead bufs sizes up) wr tr)
        = Some (h, pool,
                Direction src dst ch
                  (Reader RDone (apply_fills bufs fills) (store_sizes sizes fills) up)
                  wr
                  (tr ++ [EvRead (b_len <$> bufs) offset;
                          EvLog ("Read error, exiting goroutine: " ++ e)])))
  /\ (forall choice h pool src dst ch bufs sizes up wr tr,
        reader_step choice h pool
          (Direction src dst ch (Reader RDone bufs sizes up) wr tr) = None)
  /\ (forall n e fills src dst,
        exists tr,
          (Basic.forward (ReadResult n (Some e) fills :: src) dst).1
          = EvRead (replicate (Z.to_nat Basic.batch) Basic.bufLen) Basic.offset
              :: EvLog ("Read error: " ++ e)
              :: EvRead (replicate (Z.to_nat Basic.batch) Basic.bufLen) Basic.offset
              :: tr).
Proof.
  split; [|split; [|split]].
  - intros n e fills src dst. unfold forward.
    rewrite forward_loop_cons by apply forward_init_ok.
    unfold forward_body, forward_init. cbn [rr_err fs_bufs].
    rewrite set_len_lens, length_replicate. done.
  - done.
  - done.
  - intros n e fills src dst. unfold Basic.forward.
    rewrite basic_forward_loop_cons by apply (forward_init_ok Basic.bufLen).
    unfold Basic.forward_body. cbn [rr_err rr_fills fs_bufs fs_sizes fs_outBufs].
    rewrite set_len_lens, length_replicate.
    destruct (basic_forward_loop_head src dst _ (basic_after_read_error_ok fills))
      as [tr Htr].
    exists tr. cbn [prepend fst]. rewrite Htr. done.
Qed.

(** The failing input of C2, run: one failing [Read], then a packet. *)
Example basic_forward_retries :
  let src := [ReadResult 0 (Some "file already closed"%string) [];
              ReadResult 1 None [Fill [Byte.x45] 1 None]] in
  write_calls (Basic.forward src []).1
    = [[ [Byte.x45; Byte.x00; Byte.x00; Byte.x00; Byte.x00; Byte.x00;
          Byte.x00; Byte.x00; Byte.x00; Byte.x00; Byte.x00] ]]
  /\ length (read_calls (Basic.forward src []).1) = 3%nat
  /\ (forward src []).2 = Returned
  /\ length (read_calls (forward src []).1) = 1%nat.
Proof. vm_compute. done. Qed.

(** ** The channel pipeline: shape of the reachable states *)

Arguments write_calls : simpl never.
Arguments read_calls : simpl never.
Arguments written : simpl never.

Lemma write_calls_quiet tr evs :
  write_calls evs = [] -> write_calls (tr ++ evs) = write_calls tr.
Proof. intros H. by rewrite write_calls_app, H, app_nil_r. Qed.

Lemma slice_reslice_inv s k s' :
  slice_reslice s k = Some s' ->
  0 <= k <= s_cap s /\ s' = Slice (s_ptr s) k (s_cap s).
Proof.
  unfold slice_reslice.
  destruct (Z.leb_spec 0 k), (Z.leb_spec k (s_cap s)); simpl; try done.
  intros [= <-]. split; [lia | done].
Qed.

Lemma slice_reslice_Some s k :
  0 <= k <= s_cap s -> slice_reslice s k = Some (Slice (s_ptr s) k (s_cap s)).
Proof.
  intros Hk. unfold slice_reslice.
  destruct (Z.leb_spec 0 k), (Z.leb_spec k (s_cap s)); simpl; try lia; done.
Qed.

Lemma pool_get_full choice h p h' p' s :
  pool_get choice h p = (h', p', s) ->
  Forall full_buf p -> full_buf s /\ Forall full_buf p'.
Proof.
  unfold pool_get. intros Hget Hp.
  destruct (p !! choice) as [s0|] eqn:Hs0.
  - injection Hget as <- <- <-. split.
    + eapply Forall_lookup_1; eauto.
    + by apply Forall_delete.
  - injection Hget as <- <- <-. split; [done | done].
Qed.

Lemma bool_decide_pool_same (p : option (list slice)) (q : list slice) :
  is_Some p -> bool_decide (Some q <> None) = bool_decide (p <> None).
Proof. intros [x ->]. done. Qed.

Lemma dir_ok_pool p q d :
  bool_decide (q <> None) = bool_decide (p <> None) -> dir_ok p d -> dir_ok q d.
Proof.
  intros Hpq (Hr & Hw & Hch & Hcap & Hru & Hwu & Htr).
  unfold dir_ok. rewrite Hpq. done.
Qed.

Ltac proj_simpl :=
  cbn [d_src d_dst d_ch d_reader d_writer d_trace r_pc r_readBufs r_sizes
       r_usePool w_pc w_bufs w_originalBufs w_usePool set_reader set_writer
       add_events with_writer pkt_buf pkt_size s_ptr s_len s_cap] in *.

Lemma acquire_full up choice h pool hg poolg s :
  acquire up choice h pool = Some (hg, poolg, s) ->
  Forall full_buf (pool_items pool) ->
  full_buf s /\ Forall full_buf (pool_items poolg)
  /\ bool_decide (poolg <> None) = bool_decide (pool <> None).
Proof.
  unfold acquire. intros Hacq Hpool. destruct up.
  - destruct pool as [p|]; [|done].
    destruct (pool_get choice h p) as [[hg' pg] s'] eqn:Hget.
    injection Hacq as <- <- <-.
    apply pool_get_full in Hget as [? ?]; done.
  - unfold alloc in Hacq. injection Hacq as <- <- <-. done.
Qed.

Lemma reader_step_ok choice h pool d h' pool' d' :
  reader_step choice h pool d = Some (h', pool', d') ->
  Forall full_buf (pool_items pool) -> dir_ok pool d ->
  Forall full_buf (pool_items pool')
  /\ bool_decide (pool' <> None) = bool_decide (pool <> None)
  /\ dir_ok pool' d'.
Proof.
  intros Hstep Hpool (Hr & Hw & Hch & Hcap & Hru & Hwu & Htr).
  destruct Hr as (Hlb & Hls & Hcb & Hpc).
  unfold reader_step in Hstep.
  destruct d as [src dst ch [pc bufs sizes up] wr tr]; proj_simpl.
  destruct pc as [|n i|n i b size|n i pkt| |].
  - (* RRead *)
    destruct src as [|r src]; [done|].
    destruct (rr_err r) as [e|]; injection Hstep as <- <- <-;
      (split; [done|]; split; [done|]);
      unfold dir_ok, reader_ok; simpl;
      rewrite apply_fills_length, store_sizes_length;
      (split_and!; try done; try (by apply apply_fills_cap));
      by rewrite write_calls_quiet.
  - (* RLoop *)
    destruct (Z.ltb_spec (Z.of_nat i) n) as [Hi|Hi].
    2:{ injection Hstep as <- <- <-. split_and!; done. }
    destruct (acquire up choice h pool) as [[[hg poolg] s]|] eqn:Hgot.
    2:{ injection Hstep as <- <- <-. split_and!; done. }
    apply acquire_full in Hgot as (Hs & Hpg & Hsame); [|done].
    destruct Hs as [Hs1 Hs2].
    destruct (sizes !! i) as [sz|] eqn:Hsz.
    2:{ injection Hstep as <- <- <-.
        split; [done|]. split; [done|]. unfold dir_ok. rewrite Hsame.
        split_and!; done. }
    destruct (Z.ltb_spec (s_cap s) (int_add sz offset)) as [Hsmall|Hfit].
    + unfold alloc in Hstep. injection Hstep as <- <- <-.
      split; [done|]. split; [done|].
      unfold dir_ok, reader_ok. rewrite Hsame. proj_simpl.
      split_and!; try done; try lia; try (by exists sz).
      by rewrite write_calls_quiet.
    + injection Hstep as <- <- <-.
      split; [done|]. split; [done|].
      unfold dir_ok, reader_ok. rewrite Hsame. proj_simpl.
      split_and!; try done; try lia; try (by exists sz); try (by left).
  - (* RCopy *)
    destruct Hpc as (Hi & Hlc & Hsize & Hcase & sz & Hsz & ->).
    destruct (bufs !! i) as [rb|] eqn:Hrb.
    2:{ injection Hstep as <- <- <-. split_and!; done. }
    destruct (reslice rb (int_add sz offset)) as [srcb|] eqn:Hres.
    2:{ injection Hstep as <- <- <-. split_and!; done. }
    injection Hstep as <- <- <-.
    apply reslice_inv in Hres as [Hrange _].
    assert (b_cap rb = mtuSize + offset) as Hc.
    { eapply Forall_lookup_1 in Hcb; [exact Hcb | exact Hrb]. }
    assert (s_cap b = maxPktSize) as Hfull.
    { destruct Hcase as [Hc1 | Hc1]; [done|].
      unfold maxPktSize, mtuSize, offset in *. lia. }
    split; [done|]. split; [done|].
    unfold dir_ok, reader_ok, pkt_ok, full_buf. proj_simpl.
    split_and!; try done; try lia.
  - (* RSend *)
    case_decide as Hroom; [|done].
    injection Hstep as <- <- <-.
    split; [done|]. split; [done|].
    unfold dir_ok, reader_ok. proj_simpl.
    split_and!; try done.
    + apply Forall_app. split; [done|]. by constructor.
    + rewrite length_app. simpl. lia.
  - done.
  - done.
Qed.

Lemma take_packet_ok wr n pkt :
  pkt_ok pkt ->
  length (w_bufs wr) = Z.to_nat batchSize ->
  length (w_originalBufs wr) = Z.to_nat batchSize ->
  (n < Z.to_nat batchSize)%nat ->
  batch_ok wr n ->
  exists wr',
    take_packet wr n pkt = Some wr'
    /\ w_bufs wr'
       = <[n := Slice (s_ptr (pkt_buf pkt)) (pkt_size pkt) maxPktSize]> (w_bufs wr)
    /\ w_originalBufs wr'
       = (if w_usePool wr then <[n := pkt_buf pkt]> (w_originalBufs wr)
          else w_originalBufs wr)
    /\ w_usePool wr' = w_usePool wr
    /\ batch_ok wr' (S n).
Proof.
  intros [[Hl Hc] Hsz] Hlb Hlo Hn Hbatch.
  unfold take_packet.
  rewrite slice_reslice_Some
    by (rewrite Hc; unfold maxPktSize, mtuSize, offset in *; lia).
  simpl. rewrite decide_True by lia. rewrite Hc.
  assert (exists wr',
    (if w_usePool wr
     then if decide (n < length (w_originalBufs wr))%nat
          then Some (Writer (w_pc wr)
                       (<[n:=Slice (s_ptr (pkt_buf pkt)) (pkt_size pkt) maxPktSize]>
                          (w_bufs wr))
                       (<[n:=pkt_buf pkt]> (w_originalBufs wr)) true)
          else None
     else Some (Writer (w_pc wr)
                  (<[n:=Slice (s_ptr (pkt_buf pkt)) (pkt_size pkt) maxPktSize]>
                     (w_bufs wr))
                  (w_originalBufs wr) false)) = Some wr'
    /\ wr' = Writer (w_pc wr)
               (<[n:=Slice (s_ptr (pkt_buf pkt)) (pkt_size pkt) maxPktSize]>
                  (w_bufs wr))
               (if w_usePool wr then <[n:=pkt_buf pkt]> (w_originalBufs wr)
                else w_originalBufs wr)
               (w_usePool wr)) as (wr' & -> & ->).
  { destruct (w_usePool wr); [rewrite decide_True by lia|]; by eexists. }
  eexists. split; [done|]. proj_simpl. split_and!; try done.
  intros j Hj. unfold batch_ok in Hbatch. proj_simpl.
  destruct (decide (j = n)) as [->|Hne].
  - eexists. rewrite list_lookup_insert_eq by lia.
    split; [done|]. proj_simpl. split_and!; try done; try lia.
    intros Hup. rewrite Hup.
    rewrite list_lookup_insert_eq by lia.
    destruct (pkt_buf pkt) as [p l c]. simpl in *. congruence.
  - destruct (Hbatch j) as (b & Hb & Hcb & Hlb' & Ho); [lia|].
    exists b. rewrite list_lookup_insert_ne by done.
    split_and!; try done; try lia.
    intros Hup. rewrite Hup. rewrite list_lookup_insert_ne by done. auto.
Qed.

Lemma pool_of_flag (pool : option (list slice)) :
  true = bool_decide (pool <> None) -> exists p, pool = Some p.
Proof. destruct pool; [by eexists | done]. Qed.

Lemma writer_step_ok h pool d h' pool' d' :
  writer_step h pool d = Some (h', pool', d') ->
  Forall full_buf (pool_items pool) -> dir_ok pool d ->
  h' = h
  /\ Forall full_buf (pool_items pool')
  /\ bool_decide (pool' <> None) = bool_decide (pool <> None)
  /\ dir_ok pool' d'.
Proof.
  intros Hstep Hpool (Hr & Hw & Hch & Hcap & Hru & Hwu & Htr).
  destruct Hw as (Hlb & Hlo & Hpc).
  unfold writer_step in Hstep.
  destruct d as [src dst ch rd [pc bufs orig up] tr]; proj_simpl.
  destruct pc as [|n|n|n i|]; [| | | |done].
  - (* WRecv *)
    set (wr := Writer WRecv bufs orig up) in *.
    destruct ch as [|pkt ch']; [done|].
    apply Forall_cons in Hch as [Hpkt Hch'].
    destruct (take_packet_ok wr 0 pkt) as (wr' & Htp & Hb' & Ho' & Hu' & Hbatch);
      try done.
    { unfold batchSize. lia. }
    { intros j Hj. lia. }
    rewrite Htp in Hstep.
    injection Hstep as <- <- <-. split_and!; try done.
    unfold dir_ok, writer_ok. proj_simpl. simpl in Hcap.
    split_and!; try done; try lia.
    + rewrite Hb', length_insert. done.
    + rewrite Ho'. destruct (w_usePool wr); [rewrite length_insert|]; done.
    + unfold batchSize. lia.
    + by rewrite Hu'.
  - (* WCollect *)
    set (wr := Writer (WCollect n) bufs orig up) in *.
    destruct Hpc as [Hn Hbatch].
    destruct (Z.ltb_spec (Z.of_nat n) batchSize) as [Hlt|Hge].
    2:{ injection Hstep as <- <- <-. split_and!; try done. }
    destruct ch as [|pkt ch'].
    { injection Hstep as <- <- <-. split_and!; try done. }
    apply Forall_cons in Hch as [Hpkt Hch'].
    destruct (take_packet_ok wr n pkt) as (wr' & Htp & Hb' & Ho' & Hu' & Hbatch');
      try done.
    { lia. }
    rewrite Htp in Hstep.
    injection Hstep as <- <- <-. split_and!; try done.
    unfold dir_ok, writer_ok. proj_simpl. simpl in Hcap.
    split_and!; try done; try lia.
    + rewrite Hb', length_insert. done.
    + rewrite Ho'. destruct (w_usePool wr); [rewrite length_insert|]; done.
    + by rewrite Hu'.
  - (* WWrite *)
    destruct Hpc as [Hn Hbatch].
    rewrite decide_True in Hstep by lia.
    rewrite slice_to_Some in Hstep by lia.
    destruct (next_write _ dst) as [w dst'] eqn:Hnw.
    injection Hstep as <- <- <-. split_and!; try done.
    unfold dir_ok, writer_ok. proj_simpl.
    split_and!; try done.
    + destruct up; [|done]. split_and!; try done; lia.
    + change (?a :: ?b) with ([a] ++ b).
      rewrite app_assoc, (write_calls_quiet _ (log_write_err w)).
      2:{ unfold log_write_err. by destruct (wr_err w). }
      rewrite write_calls_app. apply Forall_app. split; [done|].
      constructor; [|constructor]. unfold batch_sized.
      rewrite length_fmap, length_take, Nat2Z.id, Hlb. lia.
  - (* WPut *)
    destruct Hpc as (Hn & Hi & Hup & Hbatch). proj_simpl. subst up.
    destruct (pool_of_flag pool Hwu) as [p ->].
    destruct (decide (i < n)%nat) as [Hlt|Hge].
    2:{ injection Hstep as <- <- <-. split_and!; try done. }
    destruct (Hbatch i Hlt) as (b & Hb & Hcb & Hlb' & Ho).
    proj_simpl. rewrite (Ho eq_refl) in Hstep.
    injection Hstep as <- <- <-.
    split; [done|]. split; [|split; [done|]].
    + simpl. apply Forall_app. split; [done|]. by repeat constructor.
    + unfold dir_ok, writer_ok. proj_simpl.
      split_and!; try done; lia.
Qed.

Lemma step_inv a s s' :
  step a s = Some s' ->
  exists d h pool d',
    sys_crashed s = false
    /\ sys_dirs s !! action_dir a = Some d
    /\ match a with
       | StepReader _ choice => reader_step choice (sys_heap s) (sys_pool s) d
       | StepWriter _ => writer_step (sys_heap s) (sys_pool s) d
       end = Some (h, pool, d')
    /\ s' = System h pool (<[action_dir a := d']> (sys_dirs s)) (sys_log s)
                   (dir_panicked d').
Proof.
  unfold step. destruct (sys_crashed s); [done|].
  destruct (sys_dirs s !! action_dir a) as [d|]; [|done]. simpl.
  intros Hstep. exists d.
  destruct a as [k choice|k]; simpl in *.
  - destruct (reader_step choice (sys_heap s) (sys_pool s) d)
      as [[[h pool] d']|]; [|done].
    simpl in Hstep. injection Hstep as <-. by exists h, pool, d'.
  - destruct (writer_step (sys_heap s) (sys_pool s) d)
      as [[[h pool] d']|]; [|done].
    simpl in Hstep. injection Hstep as <-. by exists h, pool, d'.
Qed.

Lemma step_ok a s s' : step a s = Some s' -> sys_ok s -> sys_ok s'.
Proof.
  intros Hstep [Hpool Hdirs].
  apply step_inv in Hstep as (d & h & pool & d' & _ & Hd & Hstep & ->).
  assert (dir_ok (sys_pool s) d) as Hdok.
  { eapply Forall_lookup_1; eauto. }
  assert (Forall full_buf (pool_items pool)
          /\ bool_decide (pool <> None) = bool_decide (sys_pool s <> None)
          /\ dir_ok pool d') as (Hp' & Hsame & Hd').
  { destruct a as [k choice|k].
    - eapply reader_step_ok; eauto.
    - apply writer_step_ok in Hstep as (_ & ? & ? & ?); done. }
  split; simpl; [done|].
  apply Forall_insert; [|done].
  eapply Forall_impl; [exact Hdirs|]. intros d0. by apply dir_ok_pool.
Qed.

Lemma reachable_ok s0 s : sys_ok s0 -> reachable s0 s -> sys_ok s.
Proof. intros H0. induction 1; [done|]. eapply step_ok; eauto. Qed.

Lemma reachable_run sched : forall s0 s, reachable s0 s -> reachable s0 (run sched s).
Proof.
  induction sched as [|a sched IH]; intros s0 s Hs; simpl; [done|].
  apply IH. destruct (step a s) as [s'|] eqn:Hstep; simpl; [|done].
  eapply reach_step; eauto.
Qed.

Lemma run_reachable sched s : reachable s (run sched s).
Proof. apply reachable_run. constructor. Qed.

(** *** The state [Run] starts from *)

Lemma Run_queued up tun1 tun2 :
  sys_heap (Run true up tun1 tun2).1 = []
  /\ sys_pool (Run true up tun1 tun2).1 = (if up then Some [] else None)
  /\ sys_dirs (Run true up tun1 tun2).1
     = [new_direction tun1 tun2 up; new_direction tun2 tun1 up]
  /\ sys_crashed (Run true up tun1 tun2).1 = false.
Proof. by destruct up. Qed.

Lemma new_direction_ok pool src dst up :
  up = bool_decide (pool <> None) -> dir_ok pool (new_direction src dst up).
Proof.
  intros Hup. unfold dir_ok, new_direction, reader_ok, writer_ok. proj_simpl.
  rewrite !length_replicate.
  split_and!; try done.
  - apply Forall_replicate. done.
  - simpl. lia.
Qed.

Lemma Run_queued_ok up tun1 tun2 : sys_ok (Run true up tun1 tun2).1.
Proof.
  destruct (Run_queued up tun1 tun2) as (Hh & Hp & Hd & Hc).
  unfold sys_ok. rewrite Hp, Hd.
  split; [by destruct up|].
  repeat constructor; apply new_direction_ok; by destruct up.
Qed.

Lemma run_ok up tun1 tun2 sched :
  sys_ok (run sched (Run true up tun1 tun2).1).
Proof.
  eapply reachable_ok; [apply Run_queued_ok | apply run_reachable].
Qed.

(** ** Properties of one direction that no other goroutine can disturb *)

Lemma local_invariant (P : direction -> Prop) s0 s :
  (forall choice h pool d h' pool' d',
     reader_step choice h pool d = Some (h', pool', d') -> P d -> P d') ->
  (forall h pool d h' pool' d',
     writer_step h pool d = Some (h', pool', d') -> P d -> P d') ->
  Forall P (sys_dirs s0) -> reachable s0 s -> Forall P (sys_dirs s).
Proof.
  intros Hr Hw H0. induction 1 as [|s a s' _ IH Hstep]; [done|].
  apply step_inv in Hstep as (d & h & pool & d' & _ & Hd & Hstep & ->).
  simpl. apply Forall_insert; [done|].
  assert (P d) as HP by (eapply Forall_lookup_1; eauto).
  destruct a; eauto.
Qed.

Lemma read_calls_log_write_err w : read_calls (log_write_err w) = [].
Proof. unfold log_write_err. by destruct (wr_err w). Qed.

Lemma warn_not_write_err w : EvLog warn_small ∉ log_write_err w.
Proof.
  unfold log_write_err. destruct (wr_err w) as [e|]; [|apply not_elem_of_nil].
  intros Hin. apply list_elem_of_singleton in Hin. by injection Hin.
Qed.

(** A writer step leaves the reader's side alone and adds neither a [Read]
    nor the warning to the trace. *)
Lemma writer_step_frame h pool d h' pool' d' :
  writer_step h pool d = Some (h', pool', d') ->
  d_reader d' = d_reader d /\ d_src d' = d_src d
  /\ exists evs, d_trace d' = d_trace d ++ evs
       /\ read_calls evs = [] /\ EvLog warn_small ∉ evs.
Proof.
  unfold writer_step. intros Hstep.
  assert (forall tr : list event, tr = tr ++ []) as Hnil
    by (intros; by rewrite app_nil_r).
  assert (EvLog warn_small ∉ @nil event) as Hno by apply not_elem_of_nil.
  destruct (w_pc (d_writer d)) as [|n|n|n i|]; [| | | |done].
  - destruct (d_ch d) as [|pkt ch']; [done|].
    destruct (take_packet _ _ _); injection Hstep as <- <- <-;
      split_and!; try done; by exists [].
  - destruct (Z.of_nat n <? batchSize).
    + destruct (d_ch d) as [|pkt ch'].
      * injection Hstep as <- <- <-. split_and!; try done; by exists [].
      * destruct (take_packet _ _ _); injection Hstep as <- <- <-;
          split_and!; try done; by exists [].
    + injection Hstep as <- <- <-. split_and!; try done; by exists [].
  - case_decide.
    + destruct (slice_to _ _) as [out|].
      * destruct (next_write _ _) as [w dst'].
        injection Hstep as <- <- <-. split_and!; try done.
        eexists. split; [done|]. split.
        -- change (?a :: ?b) with ([a] ++ b).
           by rewrite read_calls_app, read_calls_log_write_err.
        -- intros Hin. apply elem_of_cons in Hin as [Hin|Hin]; [done|].
           by apply warn_not_write_err in Hin.
      * injection Hstep as <- <- <-. split_and!; try done; by exists [].
    + injection Hstep as <- <- <-. split_and!; try done; by exists [].
  - case_decide.
    + destruct (w_originalBufs (d_writer d) !! i) as [s|];
        [destruct pool as [p|]|]; injection Hstep as <- <- <-;
        split_and!; try done; by exists [].
    + injection Hstep as <- <- <-. split_and!; try done; by exists [].
Qed.

Lemma store_sizes_Forall (P : Z -> Prop) sizes fs :
  Forall P sizes -> Forall (fun f => P (f_size f)) fs ->
  Forall P (store_sizes sizes fs).
Proof.
  intros Hs. revert fs. induction Hs as [|sz sizes Hsz Hs IH]; intros fs Hfs;
    destruct Hfs; simpl; try constructor; auto.
Qed.



Lemma never_small_reader choice h pool d h' pool' d' :
  reader_step choice h pool d = Some (h', pool', d') ->
  never_small d -> never_small d'.
Proof.
  intros Hstep (Hup & Hsz & Hsrc & Hpc & Htr).
  unfold reader_step in Hstep.
  destruct d as [src dst ch [pc bufs sizes up] wr tr]; proj_simpl. subst up.
  destruct pc as [|n i|n i b size|n i pkt| |]; [| | | |done|done].
  - destruct src as [|r src]; [done|].
    apply Forall_cons in Hsrc as [Hr Hsrc].
    assert (Forall size_bounded (store_sizes sizes (rr_fills r))) as Hsz'
      by (by apply store_sizes_Forall).
    destruct (rr_err r) as [e|]; injection Hstep as <- <- <-;
      unfold never_small; proj_simpl; split_and!; try done.
    + intros Hin. apply elem_of_app in Hin as [Hin|Hin]; [done|].
      apply elem_of_cons in Hin as [Hin|Hin]; [done|].
      apply list_elem_of_singleton in Hin. by injection Hin.
    + intros Hin. apply elem_of_app in Hin as [Hin|Hin]; [done|].
      apply list_elem_of_singleton in Hin. done.
  - destruct (Z.of_nat i <? n).
    2:{ injection Hstep as <- <- <-. done. }
    unfold acquire, alloc in Hstep.
    destruct (sizes !! i) as [sz|] eqn:Hi.
    2:{ injection Hstep as <- <- <-. done. }
    assert (size_bounded sz) as Hb by (eapply Forall_lookup_1; eauto).
    unfold size_bounded in Hb. cbn [s_cap] in Hstep.
    destruct (Z.ltb_spec maxPktSize (int_add sz offset)) as [Hlt|Hge].
    { unfold maxPktSize, mtuSize, offset in *. lia. }
    injection Hstep as <- <- <-. unfold never_small. proj_simpl. done.
  - destruct (bufs !! i) as [rb|]; [|injection Hstep as <- <- <-; done].
    destruct (reslice rb size);
      injection Hstep as <- <- <-; done.
  - case_decide; [|done]. injection Hstep as <- <- <-. done.
Qed.

Lemma never_small_writer h pool d h' pool' d' :
  writer_step h pool d = Some (h', pool', d') ->
  never_small d -> never_small d'.
Proof.
  intros Hstep (Hup & Hsz & Hsrc & Hpc & Htr).
  apply writer_step_frame in Hstep as (Hrd & Hs & evs & Hevs & _ & Hno).
  unfold never_small. rewrite Hrd, Hs, Hevs. split_and!; try done.
  intros Hin. apply elem_of_app in Hin as [Hin|Hin]; done.
Qed.






Lemma run_local (P : direction -> Prop) up tun1 tun2 sched :
  (forall choice h pool d h' pool' d',
     reader_step choice h pool d = Some (h', pool', d') -> P d -> P d') ->
  (forall h pool d h' pool' d',
     writer_step h pool d = Some (h', pool', d') -> P d -> P d') ->
  P (new_direction tun1 tun2 up) -> P (new_direction tun2 tun1 up) ->
  Forall P (sys_dirs (run sched (Run true up tun1 tun2).1)).
Proof.
  intros Hr Hw H1 H2.
  eapply local_invariant; [exact Hr | exact Hw | | apply run_reachable].
  destruct (Run_queued up tun1 tun2) as (_ & _ & -> & _).
  by repeat constructor.
Qed.



Lemma size_bounded_0 : size_bounded 0.
Proof. unfold size_bounded. by vm_compute. Qed.

Lemma new_direction_never_small src dst :
  Forall read_bounded (dev_reads src) -> never_small (new_direction src dst false).
Proof.
  intros Hsrc. unfold never_small, new_direction. proj_simpl.
  split_and!; try done.
  - apply Forall_replicate, size_bounded_0.
  - apply not_elem_of_nil.
Qed.

(** C4: every [Write] of [writeFromChannel] carries between 1 and
    [batchSize] packets.  The writer waits for the first packet only: in the
    collect loop it never blocks, an empty channel sends it to the [Write]
    with what it holds, and at [batchSize] packets it stops polling. *)
Theorem writer_batch_between_1_and_batchSize :
  (forall up tun1 tun2 sched,
     Forall (fun d => Forall batch_sized (write_calls (d_trace d))
                      /\ writer_count d)
            (sys_dirs (run sched (Run true up tun1 tun2).1)))
  /\ (forall h pool src dst rd bufs orig up tr,
        writer_step h pool
          (Direction src dst [] rd (Writer WRecv bufs orig up) tr) = None)
  /\ (forall h pool src dst rd bufs orig up tr n,
        writer_step h pool
          (Direction src dst [] rd (Writer (WCollect n) bufs orig up) tr)
        = Some (h, pool,
                Direction src dst [] rd (Writer (WWrite n) bufs orig up) tr))
  /\ (forall h pool src dst ch rd bufs orig up tr n,
        writer_step h pool
          (Direction src dst ch rd
             (Writer (WCollect (Z.to_nat batchSize + n)) bufs orig up) tr)
        = Some (h, pool,
                Direction src dst ch rd
                  (Writer (WWrite (Z.to_nat batchSize + n)) bufs orig up) tr))
  /\ (forall h pool d n,
        is_Some (writer_step h pool (set_writer d (WCollect n)))).
Proof.
  split_and!.
  - intros up tun1 tun2 sched.
    destruct (run_ok up tun1 tun2 sched) as [_ Hdirs].
    eapply Forall_impl; [exact Hdirs|].
    intros d (_ & (_ & _ & Hw) & _ & _ & _ & _ & Htr). split; [done|].
    unfold writer_count. destruct (w_pc (d_writer d)); try done; apply Hw.
  - done.
  - intros h pool src dst rd bufs orig up tr n. unfold writer_step. proj_simpl.
    by destruct (Z.of_nat n <? batchSize).
  - intros h pool src dst ch rd bufs orig up tr n. unfold writer_step. proj_simpl.
    destruct (Z.ltb_spec (Z.of_nat (Z.to_nat batchSize + n)) batchSize) as [Hlt|_];
      [unfold batchSize in Hlt; lia | done].
  - intros h pool d n. unfold writer_step. proj_simpl.
    destruct (Z.of_nat n <? batchSize); [|by eexists].
    destruct (d_ch d) as [|pkt ch']; [by eexists|].
    destruct (take_packet _ _ _); by eexists.
Qed.


(** C10: without the pool, for a device that keeps [sizes[i] + offset]
    within the read buffer, the fallback of [readToChannel] is never taken:
    the warning is never logged, and at the copy the packet buffer has
    capacity [maxPktSize] and the size is at most [mtuSize + offset]. *)
Theorem no_pool_fallback_unreachable tun1 tun2 sched :
  Forall read_bounded (dev_reads tun1) ->
  Forall read_bounded (dev_reads tun2) ->
  Forall (fun d =>
            (EvLog warn_small ∉ d_trace d)
            /\ match r_pc (d_reader d) with
               | RCopy _ _ pktBuf size =>
                   s_cap pktBuf = maxPktSize /\ size <= mtuSize + offset
               | _ => True
               end)
         (sys_dirs (run sched (Run true false tun1 tun2).1)).
Proof.
  intros H1 H2. eapply Forall_impl.
  - apply (run_local never_small); eauto using never_small_reader,
      never_small_writer, new_direction_never_small.
  - intros d (_ & _ & _ & Hpc & Htr). done.
Qed.

(** ** Ownership of the packet buffers *)

Arguments occ : simpl never.

Lemma occ_nil q : occ q [] = 0%nat.
Proof. done. Qed.

Lemma occ_cons q x l :
  occ q (x :: l) = ((if decide (x = q) then 1 else 0) + occ q l)%nat.
Proof.
  unfold occ. simpl. destruct (Nat.eq_dec x q); case_decide; done.
Qed.

Lemma occ_app q l1 l2 : occ q (l1 ++ l2) = (occ q l1 + occ q l2)%nat.
Proof. apply count_occ_app. Qed.

Lemma occ_perm q l1 l2 : l1 ≡ₚ l2 -> occ q l1 = occ q l2.
Proof. intros H. unfold occ. by apply Permutation_count_occ. Qed.

Lemma occ_seq q a n :
  occ q (seq a n) = if decide (a <= q < a + n)%nat then 1%nat else 0%nat.
Proof.
  revert a. induction n as [|n IH]; intros a; cbn [seq].
  - rewrite occ_nil. case_decide; [lia | done].
  - rewrite occ_cons, IH. repeat case_decide; lia.
Qed.

Lemma occ_elem q l : q ∈ l <-> (0 < occ q l)%nat.
Proof.
  unfold occ. rewrite list_elem_of_In. apply (count_occ_In Nat.eq_dec).
Qed.

Lemma occ_delete q (l : list nat) i x :
  l !! i = Some x ->
  occ q l = ((if decide (x = q) then 1 else 0) + occ q (delete i l))%nat.
Proof.
  intros Hx. rewrite (occ_perm q _ _ (delete_Permutation l i x Hx)).
  apply occ_cons.
Qed.

Lemma occ_take_drop q l n : occ q l = (occ q (take n l) + occ q (drop n l))%nat.
Proof. by rewrite <- occ_app, take_drop. Qed.

(** [lia] over counts: the counts are named first. *)
Ltac occ_lia :=
  repeat match goal with
         | |- context [occ ?q ?l] =>
             let n := fresh "n" in set (n := occ q l) in *; clearbody n
         | H : context [occ ?q ?l] |- _ =>
             let n := fresh "n" in set (n := occ q l) in *; clearbody n
         end;
  lia.

Lemma occ_concat_cons {A} (f : A -> list nat) q a l :
  occ q (concat (f <$> a :: l)) = (occ q (f a) + occ q (concat (f <$> l)))%nat.
Proof. rewrite fmap_cons. cbn [concat]. apply occ_app. Qed.

Lemma occ_concat_insert {A} (f : A -> list nat) q l k x y :
  l !! k = Some x ->
  (occ q (concat (f <$> <[k := y]> l)) + occ q (f x)
   = occ q (concat (f <$> l)) + occ q (f y))%nat.
Proof.
  revert k. induction l as [|a l IH]; intros [|k] Hk; try done.
  - injection Hk as ->. change (<[0%nat:=y]> (x :: l)) with (y :: l).
    rewrite !occ_concat_cons. occ_lia.
  - change (<[S k:=y]> (a :: l)) with (a :: <[k:=y]> l).
    rewrite !occ_concat_cons. specialize (IH k Hk). occ_lia.
Qed.

Lemma occ_concat_lookup {A} (f : A -> list nat) q l k x :
  l !! k = Some x -> (occ q (f x) <= occ q (concat (f <$> l)))%nat.
Proof.
  revert k. induction l as [|a l IH]; intros [|k] Hk; try done;
    rewrite occ_concat_cons.
  - injection Hk as ->. occ_lia.
  - specialize (IH k Hk). occ_lia.
Qed.

Lemma occ_concat_lookup2 {A} (f : A -> list nat) q l j k x y :
  j <> k -> l !! j = Some x -> l !! k = Some y ->
  (occ q (f x) + occ q (f y) <= occ q (concat (f <$> l)))%nat.
Proof.
  revert j k. induction l as [|a l IH]; intros [|j] [|k] Hjk Hj Hk;
    try done; rewrite occ_concat_cons.
  - injection Hj as ->. pose proof (occ_concat_lookup f q l k y Hk). occ_lia.
  - injection Hk as ->. pose proof (occ_concat_lookup f q l j x Hj). occ_lia.
  - assert (j <> k) as Hne by occ_lia. specialize (IH j k Hne Hj Hk). occ_lia.
Qed.

Lemma take_S_insert {A} (l : list A) n x :
  (n < length l)%nat -> take (S n) (<[n := x]> l) = take n l ++ [x].
Proof.
  intros Hn. rewrite (take_S_r _ _ x) by (by apply list_lookup_insert_eq).
  by rewrite take_insert_ge.
Qed.

Lemma pool_get_cases choice h p h' p' s :
  pool_get choice h p = (h', p', s) ->
  (h' = h /\ p !! choice = Some s /\ p' = delete choice p)
  \/ (h' = h ++ [[]] /\ p' = p /\ s_ptr s = length h).
Proof.
  unfold pool_get. destruct (p !! choice) as [s0|].
  - intros [= <- <- <-]. by left.
  - unfold alloc. intros [= <- <- <-]. by right.
Qed.

Lemma acquire_occ up choice h pool hg pg s q :
  acquire up choice h pool = Some (hg, pg, s) ->
  (length h <= length hg <= length h + 1)%nat
  /\ (forall p, heap_get hg p = heap_get h p)
  /\ (occ q (s_ptr s :: (s_ptr <$> pool_items pg))
      <= occ q (s_ptr <$> pool_items pool)
         + occ q (seq (length h) (length hg - length h)))%nat
  /\ (occ q (s_ptr <$> pool_items pg) <= occ q (s_ptr <$> pool_items pool))%nat.
Proof.
  assert (forall p, heap_get (h ++ [[]]) p = heap_get h p) as Hgrow.
  { intros p. unfold heap_get.
    destruct (decide (p < length h)%nat).
    - by rewrite lookup_app_l.
    - rewrite (lookup_ge_None_2 h) by lia.
      destruct (decide (p = length h)) as [->|].
      + by rewrite list_lookup_middle.
      + rewrite lookup_ge_None_2; [done|]. rewrite length_app. simpl. lia. }
  unfold acquire. intros Hacq. destruct up.
  - destruct pool as [p|]; [|done].
    destruct (pool_get choice h p) as [[hg' pg'] s'] eqn:Hget.
    injection Hacq as <- <- <-.
    change (pool_items (Some pg')) with pg'.
    change (pool_items (Some p)) with p.
    apply pool_get_cases in Hget as [(-> & Hs & ->)|(-> & -> & Hs)].
    + rewrite Nat.sub_diag. cbn [seq]. rewrite occ_nil.
      assert ((s_ptr <$> p) !! choice = Some (s_ptr s')) as Hs'
        by (by rewrite list_lookup_fmap, Hs).
      rewrite (occ_delete q _ _ _ Hs'), occ_cons.
      rewrite <- list_fmap_delete.
      split_and!; try done; try lia.
    + rewrite length_app. cbn [length].
      replace (length h + 1 - length h)%nat with 1%nat by lia.
      cbn [seq]. rewrite occ_cons, Hs, occ_cons, occ_nil.
      split_and!; try done; try lia.
  - unfold alloc in Hacq. injection Hacq as <- <- <-. cbn [s_ptr].
    rewrite length_app. cbn [length].
    replace (length h + 1 - length h)%nat with 1%nat by lia.
    cbn [seq]. rewrite !occ_cons, occ_nil.
    split_and!; try done; try lia.
Qed.

Ltac occ_norm :=
  rewrite ?fmap_app, ?fmap_cons, ?fmap_nil, ?occ_app, ?occ_cons, ?occ_nil,
    ?occ_seq in *.

Ltac occ_solve :=
  unfold pkt_ptr in *; occ_norm;
  cbn [pkt_buf pkt_size s_ptr s_len s_cap] in *;
  repeat case_decide; occ_lia.

Lemma heap_get_copy_ne h dst src p :
  p <> s_ptr dst -> heap_get (copy h dst src) p = heap_get h p.
Proof.
  intros Hne. unfold heap_get, copy. by rewrite list_lookup_insert_ne.
Qed.

Lemma heap_get_copy_eq h dst src :
  (s_ptr dst < length h)%nat ->
  heap_get (copy h dst src) (s_ptr dst)
  = write_prefix (heap_get h (s_ptr dst)) (take (Z.to_nat (s_len dst)) src).
Proof.
  intros Hlt. unfold heap_get at 1, copy. by rewrite list_lookup_insert_eq.
Qed.

Lemma heap_get_grow h p : heap_get (h ++ [[]]) p = heap_get h p.
Proof.
  unfold heap_get.
  destruct (decide (p < length h)%nat).
  - by rewrite lookup_app_l.
  - rewrite (lookup_ge_None_2 h) by lia.
    destruct (decide (p = length h)) as [->|].
    + by rewrite list_lookup_middle.
    + rewrite lookup_ge_None_2; [done|]. rewrite length_app. simpl. lia.
Qed.

Lemma reader_step_owned choice h pool d h' pool' d' q :
  reader_step choice h pool d = Some (h', pool', d') ->
  (length h <= length h')%nat
  /\ (occ q ((s_ptr <$> pool_items pool') ++ dir_owned d')
      <= occ q ((s_ptr <$> pool_items pool) ++ dir_owned d)
         + occ q (seq (length h) (length h' - length h)))%nat
  /\ (forall p,
        (forall n i b size, r_pc (d_reader d) = RCopy n i b size -> p <> s_ptr b) ->
        heap_get h' p = heap_get h p).
Proof.
  intros Hstep. unfold reader_step in Hstep.
  destruct d as [src dst ch [pc bufs sizes up] wr tr]; proj_simpl.
  unfold dir_owned. proj_simpl.
  destruct pc as [|n i|n i b size|n i pkt| |]; [| | | |done|done].
  - destruct src as [|r src]; [done|].
    destruct (rr_err r); injection Hstep as <- <- <-; proj_simpl;
      (split; [done|]); (split; [proj_simpl; cbn [reader_owned]; occ_solve | done]).
  - destruct (Z.of_nat i <? n).
    2:{ injection Hstep as <- <- <-. split; [done|].
        split; [proj_simpl; cbn [reader_owned]; occ_solve | done]. }
    destruct (acquire up choice h pool) as [[[hg pg] s]|] eqn:Hacq.
    2:{ injection Hstep as <- <- <-. split; [done|].
        split; [proj_simpl; cbn [reader_owned]; occ_solve | done]. }
    apply (acquire_occ _ _ _ _ _ _ _ q) in Hacq as (Hlen & Hheap & Hocc & Hocc').
    destruct (sizes !! i) as [sz|].
    2:{ injection Hstep as <- <- <-. split; [lia|].
        split; [proj_simpl; cbn [reader_owned]; occ_solve | done]. }
    destruct (s_cap s <? int_add sz offset).
    + unfold alloc in Hstep. injection Hstep as <- <- <-.
      rewrite length_app. cbn [length]. split; [lia|].
      split.
      * unfold add_events. proj_simpl. cbn [reader_owned s_ptr]. occ_solve.
      * intros p _. by rewrite heap_get_grow.
    + injection Hstep as <- <- <-. split; [lia|].
      split; [proj_simpl; cbn [reader_owned]; occ_solve | done].
  - destruct (bufs !! i) as [rb|].
    2:{ injection Hstep as <- <- <-. split; [done|].
        split; [proj_simpl; cbn [reader_owned]; occ_solve | done]. }
    destruct (reslice rb size).
    2:{ injection Hstep as <- <- <-. split; [done|].
        split; [proj_simpl; cbn [reader_owned]; occ_solve | done]. }
    injection Hstep as <- <- <-. unfold copy. rewrite length_insert.
    split; [done|]. split; [proj_simpl; cbn [reader_owned pkt_buf]; occ_solve|].
    intros p Hp. apply heap_get_copy_ne. by eapply Hp.
  - case_decide; [|done]. injection Hstep as <- <- <-.
    split; [done|]. split; [|done].
    proj_simpl. cbn [reader_owned]. unfold pkt_ptr. occ_solve.
Qed.

Lemma writer_step_owned h pool d h' pool' d' q :
  writer_step h pool d = Some (h', pool', d') -> dir_ok pool d ->
  (occ q ((s_ptr <$> pool_items pool') ++ dir_owned d')
   <= occ q ((s_ptr <$> pool_items pool) ++ dir_owned d))%nat.
Proof.
  intros Hstep (Hr & Hw & Hch & Hcap & Hru & Hwu & Htr).
  destruct Hw as (Hlb & Hlo & Hpc).
  unfold writer_step in Hstep.
  destruct d as [src dst ch rd [pc bufs orig up] tr]; proj_simpl.
  unfold dir_owned, writer_held; try unfold wr; proj_simpl.
  destruct pc as [|n|n|n i|]; [| | | |done].
  - set (wr := Writer WRecv bufs orig up) in *.
    destruct ch as [|pkt ch']; [done|].
    apply Forall_cons in Hch as [Hpkt Hch'].
    destruct (take_packet_ok wr 0 pkt) as (wr' & Htp & Hb' & Ho' & Hu' & Hbatch);
      try done.
    { unfold batchSize. lia. }
    { intros j Hj. lia. }
    rewrite Htp in Hstep. injection Hstep as <- <- <-. unfold dir_owned, writer_held; try unfold wr; proj_simpl.
    rewrite Hb'. cbn [w_bufs wr].
    rewrite take_S_insert by (rewrite Hlb; unfold batchSize; lia).
    cbn [take]. unfold pkt_ptr. occ_solve.
  - set (wr := Writer (WCollect n) bufs orig up) in *.
    destruct Hpc as [Hn Hbatch].
    destruct (Z.ltb_spec (Z.of_nat n) batchSize) as [Hlt|Hge].
    2:{ injection Hstep as <- <- <-. unfold dir_owned, writer_held; try unfold wr; proj_simpl. occ_solve. }
    destruct ch as [|pkt ch'].
    { injection Hstep as <- <- <-. unfold dir_owned, writer_held; try unfold wr; proj_simpl. occ_solve. }
    apply Forall_cons in Hch as [Hpkt Hch'].
    destruct (take_packet_ok wr n pkt) as (wr' & Htp & Hb' & Ho' & Hu' & Hbatch');
      try done.
    { lia. }
    rewrite Htp in Hstep. injection Hstep as <- <- <-. unfold dir_owned, writer_held; try unfold wr; proj_simpl.
    rewrite Hb'. cbn [w_bufs wr].
    rewrite take_S_insert by lia.
    unfold pkt_ptr. occ_solve.
  - case_decide.
    + destruct (slice_to bufs (Z.of_nat n)) as [out|].
      * destruct (next_write _ dst) as [w dst'].
        injection Hstep as <- <- <-. unfold dir_owned, writer_held; try unfold wr; proj_simpl.
        destruct up; [rewrite drop_0|]; occ_solve.
      * injection Hstep as <- <- <-. unfold dir_owned, writer_held; try unfold wr; proj_simpl. occ_solve.
    + injection Hstep as <- <- <-. unfold dir_owned, writer_held; try unfold wr; proj_simpl. occ_solve.
  - destruct Hpc as (Hn & Hi & Hup & Hbatch). proj_simpl. subst up.
    destruct (pool_of_flag pool Hwu) as [p ->].
    destruct (decide (i < n)%nat) as [Hlt|Hge].
    2:{ injection Hstep as <- <- <-. unfold dir_owned, writer_held; try unfold wr; proj_simpl. occ_solve. }
    destruct (Hbatch i Hlt) as (b & Hb & Hcb & Hlb' & Ho).
    proj_simpl. rewrite (Ho eq_refl) in Hstep.
    injection Hstep as <- <- <-. unfold dir_owned, writer_held; try unfold wr; proj_simpl.
    rewrite (drop_S (take n bufs) b i) by (by rewrite lookup_take_lt).
    unfold pool_put. change (pool_items (Some ?x)) with x.
    proj_simpl. occ_solve.
Qed.

Lemma step_owned a s s' : step a s = Some s' -> sys_ok s -> owned_ok s -> owned_ok s'.
Proof.
  intros Hstep [Hpool Hdirs] Hown q.
  apply step_inv in Hstep as (d & h & pool & d' & _ & Hd & Hstep & ->).
  assert (dir_ok (sys_pool s) d) as Hdok by (eapply Forall_lookup_1; eauto).
  specialize (Hown q). unfold sys_owned in *. cbn [sys_pool sys_dirs sys_heap].
  pose proof (occ_concat_insert dir_owned q _ _ _ d' Hd) as Hins.
  rewrite occ_app in *.
  assert ((length (sys_heap s) <= length h)%nat
          /\ (occ q ((s_ptr <$> pool_items pool) ++ dir_owned d')
              <= occ q ((s_ptr <$> pool_items (sys_pool s)) ++ dir_owned d)
                 + occ q (seq (length (sys_heap s)) (length h - length (sys_heap s))))%nat)
    as [Hlen Hloc].
  { destruct a as [k choice|k].
    - apply (reader_step_owned _ _ _ _ _ _ _ q) in Hstep as (? & ? & _). done.
    - pose proof (writer_step_owned _ _ _ _ _ _ q Hstep Hdok) as Hw.
      apply writer_step_ok in Hstep as (-> & _); [|done|done].
      split; [done|]. lia. }
  rewrite !occ_app, occ_seq in Hloc.
  repeat case_decide; occ_lia.
Qed.

(** ** What the buffers hold *)

Lemma list_fmap_agree {A B} (f g : A -> B) (l : list A) :
  (forall x, x ∈ l -> f x = g x) -> f <$> l = g <$> l.
Proof.
  intros H. apply list_eq. intros i. rewrite !list_lookup_fmap.
  destruct (l !! i) as [x|] eqn:Hx; [|done]. simpl. f_equal.
  apply H. by eapply list_elem_of_lookup_2.
Qed.

Lemma occ_fmap_elem {A} (f : A -> nat) (l : list A) x :
  x ∈ l -> (0 < occ (f x) (f <$> l))%nat.
Proof. intros Hx. apply occ_elem. by apply list_elem_of_fmap_2. Qed.

Lemma inflight_frame h h' d :
  (forall p, (0 < occ p (dir_owned d))%nat -> heap_get h' p = heap_get h p) ->
  inflight h' d = inflight h d.
Proof.
  intros Hsame. unfold inflight. f_equal; [|f_equal].
  - unfold writer_inflight.
    destruct (w_pc (d_writer d)) as [|m|m|m i|] eqn:Hpc; try done;
      apply list_fmap_agree; intros x Hx; unfold slice_bytes;
      (rewrite Hsame; [done|]); unfold dir_owned, writer_held; rewrite Hpc;
      rewrite occ_app; pose proof (occ_fmap_elem s_ptr _ _ Hx); lia.
  - apply list_fmap_agree. intros x Hx. unfold pkt_bytes.
    rewrite Hsame; [done|]. unfold dir_owned. rewrite !occ_app.
    pose proof (occ_fmap_elem pkt_ptr _ _ Hx). lia.
  - unfold reader_inflight.
    destruct (r_pc (d_reader d)) as [|n i|n i b size|n i pkt| |] eqn:Hpc; try done.
    unfold pkt_bytes. rewrite Hsame; [done|].
    unfold dir_owned. rewrite Hpc. cbn [reader_owned].
    unfold pkt_ptr. rewrite !occ_app, occ_cons. rewrite decide_True by done. lia.
Qed.

Lemma dir_data_frame h h' t d :
  (forall p, (0 < occ p (dir_owned d))%nat -> heap_get h' p = heap_get h p) ->
  dir_data h t d -> dir_data h' t d.
Proof.
  intros Hsame. unfold dir_data. by rewrite (inflight_frame h h' d Hsame).
Qed.

Lemma batch_packets_done n datas sizes i :
  n <= Z.of_nat i -> batch_packets n datas sizes i = [].
Proof.
  intros Hn. unfold batch_packets.
  replace (Z.to_nat n - i)%nat with 0%nat by lia. done.
Qed.

Lemma batch_packets_next n datas sizes i :
  Z.of_nat i < n ->
  batch_packets n datas sizes i
  = packet_bytes datas sizes i :: batch_packets n datas sizes (S i).
Proof.
  intros Hn. unfold batch_packets.
  replace (Z.to_nat n - i)%nat with (S (Z.to_nat n - S i))%nat by lia. done.
Qed.

Lemma written_quiet tr evs : written evs = [] -> written (tr ++ evs) = written tr.
Proof. intros H. by rewrite written_app, H, app_nil_r. Qed.

Lemma writer_step_flow h pool d h' pool' d' :
  writer_step h pool d = Some (h', pool', d') -> dir_ok pool d ->
  written (d_trace d') ++ inflight h d' = written (d_trace d) ++ inflight h d.
Proof.
  intros Hstep (Hr & Hw & Hch & Hcap & Hru & Hwu & Htr).
  destruct Hw as (Hlb & Hlo & Hpc).
  unfold writer_step in Hstep.
  destruct d as [src dst ch rd [pc bufs orig up] tr]; proj_simpl.
  unfold inflight, writer_inflight. proj_simpl.
  destruct pc as [|n|n|n i|]; [| | | |done].
  - set (wr := Writer WRecv bufs orig up) in *.
    destruct ch as [|pkt ch']; [done|].
    apply Forall_cons in Hch as [Hpkt Hch'].
    destruct (take_packet_ok wr 0 pkt) as (wr' & Htp & Hb' & Ho' & Hu' & Hbatch);
      try done.
    { unfold batchSize. lia. }
    { intros j Hj. lia. }
    rewrite Htp in Hstep. injection Hstep as <- <- <-.
    unfold inflight, writer_inflight. proj_simpl.
    rewrite Hb'. cbn [w_bufs wr].
    rewrite take_S_insert by (rewrite Hlb; unfold batchSize; lia).
    cbn [take]. rewrite fmap_cons. done.
  - set (wr := Writer (WCollect n) bufs orig up) in *.
    destruct Hpc as [Hn Hbatch].
    destruct (Z.ltb_spec (Z.of_nat n) batchSize) as [Hlt|Hge].
    2:{ injection Hstep as <- <- <-. done. }
    destruct ch as [|pkt ch'].
    { injection Hstep as <- <- <-. done. }
    apply Forall_cons in Hch as [Hpkt Hch'].
    destruct (take_packet_ok wr n pkt) as (wr' & Htp & Hb' & Ho' & Hu' & Hbatch');
      try done.
    { lia. }
    rewrite Htp in Hstep. injection Hstep as <- <- <-.
    unfold inflight, writer_inflight. proj_simpl.
    rewrite Hb'. cbn [w_bufs wr].
    rewrite take_S_insert by lia.
    rewrite fmap_app, fmap_cons, <- !app_assoc. done.
  - destruct Hpc as [Hn Hbatch].
    rewrite decide_True in Hstep by lia.
    rewrite slice_to_Some in Hstep by lia.
    destruct (next_write _ dst) as [w dst'].
    injection Hstep as <- <- <-.
    unfold inflight, writer_inflight. proj_simpl.
    change (?a :: ?b) with ([a] ++ b).
    rewrite !written_app, written_log_write_err, app_nil_r, Nat2Z.id.
    assert (written [EvWrite (slice_bytes h <$> take n bufs) offset]
            = slice_bytes h <$> take n bufs) as ->.
    { unfold written. simpl. by rewrite app_nil_r. }
    rewrite <- app_assoc. by destruct up.
  - destruct (decide (i < n)%nat).
    + destruct (orig !! i) as [s|]; [destruct pool as [p|]|];
        injection Hstep as <- <- <-; done.
    + injection Hstep as <- <- <-. done.
Qed.

Lemma pending_ext d d' :
  d_reader d' = d_reader d -> d_src d' = d_src d -> pending d' = pending d.
Proof. intros Hr Hs. unfold pending. by rewrite Hr, Hs. Qed.

Lemma writer_step_data h pool d h' pool' d' t :
  writer_step h pool d = Some (h', pool', d') -> dir_ok pool d ->
  dir_data h t d -> dir_data h t d'.
Proof.
  intros Hstep Hok Hdata.
  pose proof (writer_step_flow _ _ _ _ _ _ Hstep Hok) as Hflow.
  apply writer_step_frame in Hstep as (Hrd & Hsrc & _).
  unfold dir_data in *. rewrite Hrd. rewrite (pending_ext d d') by done.
  rewrite !app_assoc in *. by rewrite Hflow.
Qed.

Lemma dir_data_panic h t d h' d' :
  r_pc (d_reader d) <> RPanic -> r_pc (d_reader d') = RPanic ->
  written (d_trace d') ++ inflight h' d' = written (d_trace d) ++ inflight h d ->
  dir_data h t d -> dir_data h' t d'.
Proof.
  intros Hpc Hpc' Hflow Hdata. unfold dir_data in *. rewrite Hpc'.
  rewrite Hflow.
  destruct (r_pc (d_reader d)); try done;
    rewrite <- Hdata, app_assoc; by apply prefix_app_r.
Qed.

Lemma copied_bytes h b rb size :
  (s_ptr b < length h)%nat ->
  s_len b = s_cap b -> size <= s_cap b ->
  pkt_bytes (copy h b (lbuf_bytes (set_len size rb))) (Packet b size)
  = pad_take (Z.to_nat size) (b_data rb).
Proof.
  intros Hlt Hlen Hsize. unfold pkt_bytes, pkt_ptr. proj_simpl.
  rewrite heap_get_copy_eq by done.
  unfold lbuf_bytes, set_len. cbn [b_len b_data].
  rewrite take_ge by (rewrite pad_take_length; lia).
  apply pad_take_write_prefix, pad_take_length.
Qed.

Lemma inflight_same_heap h h' src dst ch rd wr tr src' dst' rd' tr' :
  (forall p, heap_get h' p = heap_get h p) ->
  reader_inflight h' (r_pc rd') = reader_inflight h (r_pc rd) ->
  inflight h' (Direction src' dst' ch rd' wr tr')
  = inflight h (Direction src dst ch rd wr tr).
Proof.
  intros Hheap Hrin. unfold inflight. proj_simpl. rewrite Hrin.
  f_equal; [|f_equal].
  - unfold writer_inflight.
    destruct (w_pc wr); try done; apply list_fmap_agree; intros x _;
      unfold slice_bytes; by rewrite Hheap.
  - apply list_fmap_agree. intros x _. unfold pkt_bytes. by rewrite Hheap.
Qed.

Lemma reader_step_data choice h pool d h' pool' d' t :
  reader_step choice h pool d = Some (h', pool', d') ->
  dir_ok pool d ->
  (forall q, (occ q (dir_owned d)
              <= if decide (q < length h)%nat then 1 else 0)%nat) ->
  dir_data h t d -> dir_data h' t d'.
Proof.
  intros Hstep (Hr & Hw & Hch & Hcap & Hru & Hwu & Htr) Hown Hdata.
  destruct Hr as (Hlb & Hls & Hcb & Hpc).
  pose proof (reader_step_owned _ _ _ _ _ _ _ 0%nat Hstep) as (_ & _ & Hheap).
  unfold reader_step in Hstep.
  destruct d as [src dst ch [pc bufs sizes up] wr tr]; proj_simpl.
  destruct pc as [|n i|n i b size|n i pkt| |]; [| | | |done|done].
  - (* RRead *)
    destruct src as [|r src]; [done|].
    unfold dir_data, pending, inflight in Hdata. proj_simpl.
    cbn [read_packets] in Hdata.
    rewrite <- (apply_fills_data _ _ _ Hcb) in Hdata.
    destruct (rr_err r) as [e|]; injection Hstep as <- <- <-;
      unfold dir_data, pending, inflight; proj_simpl;
      rewrite written_quiet by done; exact Hdata.
  - (* RLoop *)
    pose proof Hdata as Hdata0.
    unfold dir_data, pending, inflight in Hdata. proj_simpl.
    destruct (Z.ltb_spec (Z.of_nat i) n) as [Hi|Hi].
    2:{ injection Hstep as <- <- <-.
        unfold dir_data, pending, inflight. proj_simpl.
        by rewrite batch_packets_done in Hdata by lia. }
    destruct (acquire up choice h pool) as [[[hg pg] s]|] eqn:Hacq.
    2:{ injection Hstep as <- <- <-.
        refine (dir_data_panic _ _ _ _ _ _ _ _ Hdata0); done. }
    destruct (sizes !! i) as [sz|].
    2:{ injection Hstep as <- <- <-.
        refine (dir_data_panic _ _ _ _ _ _ _ _ Hdata0); try done.
        proj_simpl. f_equal. apply inflight_same_heap; [|done].
        intros p. by apply Hheap. }
    assert (forall pc' evs, written evs = [] ->
              reader_inflight h' pc' = [] ->
              match pc' with
              | RCopy n' i' _ _ => n' = n /\ i' = i
              | _ => False
              end ->
              dir_data h' t
                (Direction src dst ch (Reader pc' bufs sizes up) wr (tr ++ evs)))
      as Hgo.
    { intros pc' evs Hevs Hrin Hshape.
      unfold dir_data. proj_simpl.
      rewrite (inflight_same_heap h h' src dst ch
                 (Reader (RLoop n i) bufs sizes up) wr tr)
        by (done || (intros p; by apply Hheap)).
      rewrite written_quiet by done.
      unfold inflight, pending. proj_simpl.
      destruct pc'; try done. destruct Hshape as [-> ->]. exact Hdata. }
    destruct (s_cap s <? int_add sz offset).
    + unfold alloc in Hstep. injection Hstep as <- <- <-.
      unfold add_events. proj_simpl. by apply Hgo.
    + injection Hstep as <- <- <-. proj_simpl.
      rewrite <- (app_nil_r tr). by apply Hgo.
  - (* RCopy *)
    destruct Hpc as (Hi & Hlc & Hsize & Hcase & sz & Hsz & ->).
    destruct (bufs !! i) as [rb|] eqn:Hrb.
    2:{ injection Hstep as <- <- <-.
        refine (dir_data_panic _ _ _ _ _ _ _ _ Hdata); done. }
    destruct (reslice rb (int_add sz offset)) as [srcb|] eqn:Hres.
    2:{ injection Hstep as <- <- <-.
        refine (dir_data_panic _ _ _ _ _ _ _ _ Hdata); done. }
    apply reslice_inv in Hres as [Hrange ->].
    injection Hstep as <- <- <-.
    unfold dir_data, pending, inflight in *. proj_simpl.
    cbn [reader_inflight] in *.
    unfold dir_owned in Hown. proj_simpl. cbn [reader_owned] in Hown.
    assert (s_ptr b < length h)%nat as Hlt.
    { specialize (Hown (s_ptr b)). rewrite !occ_app, occ_cons in Hown.
      rewrite decide_True in Hown by done. case_decide; [done | lia]. }
    assert (forall p, (0 < occ p (s_ptr <$> writer_held wr)
                         + occ p (pkt_ptr <$> ch))%nat ->
              heap_get (copy h b (lbuf_bytes (set_len (int_add sz offset) rb))) p
              = heap_get h p) as Hother.
    { intros p Hp. apply heap_get_copy_ne. intros ->.
      specialize (Hown (s_ptr b)). rewrite !occ_app, occ_cons in Hown.
      rewrite decide_True in Hown by done. case_decide; lia. }
    rewrite copied_bytes by done.
    rewrite batch_packets_next in Hdata by done.
    assert (packet_bytes (b_data <$> bufs) sizes i
            = pad_take (Z.to_nat (int_add sz offset)) (b_data rb)) as Hpb.
    { unfold packet_bytes. by rewrite Hsz, list_lookup_fmap, Hrb. }
    rewrite Hpb in Hdata. rewrite <- Hdata.
    f_equal. rewrite <- !app_assoc. f_equal; [|f_equal].
    + unfold writer_inflight.
      destruct (w_pc wr) as [|m|m|m j|] eqn:Hwpc; try done;
        apply list_fmap_agree; intros x Hx; unfold slice_bytes;
        (rewrite Hother; [done|]); unfold writer_held; rewrite Hwpc;
        pose proof (occ_fmap_elem s_ptr _ _ Hx); lia.
    + apply list_fmap_agree. intros x Hx. unfold pkt_bytes.
      rewrite Hother; [done|]. pose proof (occ_fmap_elem pkt_ptr _ _ Hx). lia.
  - (* RSend *)
    case_decide; [|done]. injection Hstep as <- <- <-.
    unfold dir_data, pending, inflight in *. proj_simpl.
    cbn [reader_inflight] in *.
    rewrite fmap_app, <- !app_assoc, app_nil_l in *. exact Hdata.
Qed.

Lemma step_data totals a s s' :
  step a s = Some s' -> sys_ok s -> owned_ok s -> data_ok totals s ->
  data_ok totals s'.
Proof.
  intros Hstep [Hpool Hdirs] Hown [Hlen Hdata].
  apply step_inv in Hstep as (d & h & pool & d' & _ & Hd & Hstep & ->).
  assert (dir_ok (sys_pool s) d) as Hdok by (eapply Forall_lookup_1; eauto).
  assert (forall q, (occ q (dir_owned d)
                     <= if decide (q < length (sys_heap s))%nat then 1 else 0)%nat)
    as Hown_d.
  { intros q. specialize (Hown q). unfold sys_owned in Hown.
    rewrite occ_app in Hown.
    pose proof (occ_concat_lookup dir_owned q _ _ _ Hd). lia. }
  split; cbn [sys_dirs sys_heap]; [by rewrite length_insert|].
  intros j t dj Ht Hj.
  destruct (decide (j = action_dir a)) as [->|Hne].
  - rewrite list_lookup_insert_eq in Hj by (by eapply lookup_lt_Some).
    injection Hj as <-.
    specialize (Hdata _ _ _ Ht Hd).
    destruct a as [k choice|k].
    + eapply reader_step_data; eauto.
    + pose proof (writer_step_data _ _ _ _ _ _ t Hstep Hdok Hdata).
      apply writer_step_ok in Hstep as (-> & _); done.
  - rewrite list_lookup_insert_ne in Hj by done.
    specialize (Hdata _ _ _ Ht Hj).
    destruct a as [k choice|k].
    + pose proof (reader_step_owned _ _ _ _ _ _ _ 0%nat Hstep) as (_ & _ & Hheap).
      eapply dir_data_frame; [|exact Hdata].
      intros p Hp. apply Hheap. intros n0 i0 b size Hpc ->.
      cbn [action_dir] in *.
      pose proof (occ_concat_lookup2 dir_owned (s_ptr b) _ _ _ _ _ Hne Hj Hd) as H2.
      specialize (Hown (s_ptr b)). unfold sys_owned in Hown.
      rewrite occ_app in Hown.
      assert (0 < occ (s_ptr b) (dir_owned d))%nat.
      { unfold dir_owned. rewrite Hpc. cbn [reader_owned].
        rewrite !occ_app, occ_cons, decide_True by done. lia. }
      case_decide; lia.
    + apply writer_step_ok in Hstep as (-> & _); done.
Qed.

Lemma step_sys_inv totals a s s' :
  step a s = Some s' -> sys_inv totals s -> sys_inv totals s'.
Proof.
  intros Hstep (Hok & Hown & Hdata). split_and!.
  - eapply step_ok; eauto.
  - eapply step_owned; eauto.
  - eapply step_data; eauto.
Qed.

Lemma reachable_sys_inv totals s0 s :
  sys_inv totals s0 -> reachable s0 s -> sys_inv totals s.
Proof. intros H0. induction 1; [done|]. eapply step_sys_inv; eauto. Qed.

Lemma new_direction_data h src dst up :
  dir_data h (delivered (mtuSize + offset) (dev_reads src))
           (new_direction src dst up).
Proof.
  unfold dir_data, new_direction, pending, inflight, delivered. proj_simpl.
  cbn [writer_inflight w_pc reader_inflight].
  by rewrite fmap_replicate.
Qed.

Lemma Run_queued_inv up tun1 tun2 :
  sys_inv [delivered (mtuSize + offset) (dev_reads tun1);
           delivered (mtuSize + offset) (dev_reads tun2)]
          (Run true up tun1 tun2).1.
Proof.
  destruct (Run_queued up tun1 tun2) as (Hh & Hp & Hd & Hc).
  split_and!.
  - apply Run_queued_ok.
  - intros q. unfold sys_owned. rewrite Hp, Hd.
    assert ((s_ptr <$> pool_items (if up then Some [] else None)) = [])
      as -> by (by destruct up).
    change (occ q _) with 0%nat. case_decide; lia.
  - split; [by rewrite Hd|]. rewrite Hd.
    intros [|[|k]] t d Ht Hk; simpl in Ht, Hk; try done;
      injection Ht as <-; injection Hk as <-; apply new_direction_data.
Qed.

Lemma run_sys_inv up tun1 tun2 sched :
  sys_inv [delivered (mtuSize + offset) (dev_reads tun1);
           delivered (mtuSize + offset) (dev_reads tun2)]
          (run sched (Run true up tun1 tun2).1).
Proof.
  eapply reachable_sys_inv; [apply Run_queued_inv | apply run_reachable].
Qed.

(** ** Devices that honour the contract *)

Lemma store_sizes_ok sizes r :
  Forall size_ok sizes -> well_behaved r ->
  Forall size_ok (store_sizes sizes (rr_fills r)).
Proof.
  intros Hs [_ Hf]. apply store_sizes_Forall; [done|].
  eapply Forall_impl; [exact Hf|]. by intros f [_ ?].
Qed.

Lemma size_ok_add sz : size_ok sz -> int_add sz offset = sz + offset.
Proof.
  unfold size_ok, mtuSize. intros H. apply int_add_small. unfold offset. lia.
Qed.

Lemma forward_loop_no_panic src : forall dst st,
  fwd_ok maxPktSize st -> Forall size_ok (fs_sizes st) ->
  Forall well_behaved src ->
  (forward_loop src dst st).2 <> Panicked.
Proof.
  induction src as [|r src IH]; intros dst st Hok Hsz Hsrc.
  { by rewrite forward_loop_nil. }
  apply Forall_cons in Hsrc as [Hr Hsrc].
  pose proof (store_sizes_ok _ _ Hsz Hr) as Hsz'.
  destruct (rr_err r) as [e|] eqn:Herr.
  { rewrite forward_loop_cons by done. unfold forward_body. by rewrite Herr. }
  destruct (forward_loop_round r src st Hok Herr) as [H0 Hn].
  destruct Hr as [Hrange Hfits].
  destruct (decide (rr_n r = 0)) as [Hz|Hnz].
  - rewrite (H0 Hz). cbn [prepend snd]. apply IH; [|done|done].
    eapply (forward_body_step_ok r dst); [exact Hok|].
    unfold forward_body. rewrite Herr, Hz. done.
  - assert (forall (i : nat) (sz : Z),
              (i < Z.to_nat (rr_n r))%nat ->
              store_sizes (fs_sizes st) (rr_fills r) !! i = Some sz ->
              0 <= sz + offset <= maxPktSize) as Hsizes.
    { intros i sz _ Hi.
      assert (size_ok sz) as Hs by (eapply Forall_lookup_1; [exact Hsz'|exact Hi]).
      unfold size_ok, mtuSize, maxPktSize, offset in *. lia. }
    assert (0 < rr_n r <= batchSize) as Hpos by lia.
    destruct (Hn Hpos Hsizes) as (out & outBufs & _ & _ & Hok' & Heq).
    rewrite Heq. cbn [prepend snd]. by apply IH.
Qed.

Lemma fill_data_fits cap cap' d f :
  (length (f_data f) <= Z.to_nat cap)%nat ->
  (length (f_data f) <= Z.to_nat cap')%nat ->
  fill_data cap d f = fill_data cap' d f.
Proof. intros H1 H2. unfold fill_data. by rewrite !take_ge. Qed.

Lemma fill_datas_fits cap cap' datas fs :
  mtuSize + offset <= cap ->
  mtuSize + offset <= cap' ->
  Forall fill_fits fs ->
  fill_datas cap datas fs = fill_datas cap' datas fs.
Proof.
  intros Hc Hc' Hfs. revert datas.
  induction Hfs as [|f fs [Hf _] _ IH]; intros [|d datas]; simpl; try done.
  rewrite IH. f_equal. apply fill_data_fits; lia.
Qed.

Lemma read_packets_fits cap cap' src : forall datas sizes,
  mtuSize + offset <= cap ->
  mtuSize + offset <= cap' ->
  Forall well_behaved src ->
  read_packets cap datas sizes src = read_packets cap' datas sizes src.
Proof.
  intros datas sizes Hc Hc' Hsrc. revert datas sizes.
  induction Hsrc as [|r src [_ Hr] _ IH]; intros datas sizes; simpl; [done|].
  rewrite (fill_datas_fits cap cap') by done.
  destruct (rr_err r); [done|]. by rewrite IH.
Qed.

Lemma reader_step_calm choice h pool d h' pool' d' :
  reader_step choice h pool d = Some (h', pool', d') ->
  dir_ok pool d -> calm d -> calm d'.
Proof.
  intros Hstep (Hr & Hw & Hch & Hcap & Hru & Hwu & Htr) (Hsz & Hsrc & Hpc).
  destruct Hr as (Hlb & Hls & Hcb & Hpc').
  unfold reader_step in Hstep.
  destruct d as [src dst ch [pc bufs sizes up] wr tr]; proj_simpl.
  destruct pc as [|n i|n i b size|n i pkt| |]; [| | | |done|done].
  - destruct src as [|r src]; [done|].
    apply Forall_cons in Hsrc as [Hr Hsrc].
    pose proof (store_sizes_ok _ _ Hsz Hr) as Hsz'.
    destruct Hr as [Hrange _].
    destruct (rr_err r) as [e|]; injection Hstep as <- <- <-;
      unfold calm; proj_simpl; split_and!; done || lia.
  - destruct (Z.ltb_spec (Z.of_nat i) n) as [Hi|Hi].
    2:{ injection Hstep as <- <- <-. done. }
    assert (i < length sizes)%nat as Hlt by (rewrite Hls; lia).
    destruct (lookup_lt_is_Some_2 sizes i Hlt) as [sz Hs]. rewrite Hs in Hstep.
    assert (is_Some (acquire up choice h pool)) as [[[hg pg] s] Hacq].
    { unfold acquire. subst up. destruct pool as [p|]; simpl.
      - destruct (pool_get choice h p) as [[? ?] ?]. by eexists.
      - unfold alloc. by eexists. }
    rewrite Hacq in Hstep.
    destruct (s_cap s <? int_add sz offset).
    + unfold alloc in Hstep. injection Hstep as <- <- <-. done.
    + injection Hstep as <- <- <-. done.
  - destruct Hpc' as (Hi & Hlc & Hsize & Hcase & sz & Hs & ->).
    assert (i < length bufs)%nat as Hlt by (rewrite Hlb; lia).
    destruct (lookup_lt_is_Some_2 bufs i Hlt) as [rb Hrb]. rewrite Hrb in Hstep.
    assert (size_ok sz) as Hok by (eapply Forall_lookup_1; eauto).
    assert (b_cap rb = mtuSize + offset) as Hc.
    { eapply Forall_lookup_1 in Hcb; [exact Hcb | exact Hrb]. }
    rewrite reslice_Some in Hstep
      by (rewrite size_ok_add, Hc by done; unfold size_ok, offset in *; lia).
    injection Hstep as <- <- <-. done.
  - case_decide; [|done]. injection Hstep as <- <- <-. done.
Qed.

Lemma writer_step_calm h pool d h' pool' d' :
  writer_step h pool d = Some (h', pool', d') -> calm d -> calm d'.
Proof.
  intros Hstep Hc.
  apply writer_step_frame in Hstep as (Hrd & Hsrc & _).
  unfold calm. by rewrite Hrd, Hsrc.
Qed.

(** A property of the direction at index [k] that its own two goroutines
    keep, given the shape invariant. *)
Lemma index_invariant (P : direction -> Prop) k s0 s :
  (forall choice h pool d h' pool' d',
     reader_step choice h pool d = Some (h', pool', d') ->
     dir_ok pool d -> P d -> P d') ->
  (forall h pool d h' pool' d',
     writer_step h pool d = Some (h', pool', d') ->
     dir_ok pool d -> P d -> P d') ->
  sys_ok s0 ->
  (exists d, sys_dirs s0 !! k = Some d /\ P d) ->
  reachable s0 s ->
  sys_ok s /\ exists d, sys_dirs s !! k = Some d /\ P d.
Proof.
  intros Hr Hw Hok0 H0. induction 1 as [|s a s' _ [IHok (d & Hd & HP)] Hstep];
    [done|].
  split; [eapply step_ok; eauto|].
  destruct IHok as [_ Hdirs].
  apply step_inv in Hstep as (dk & h & pool & d' & _ & Hdk & Hstep & ->).
  cbn [sys_dirs].
  destruct (decide (k = action_dir a)) as [->|Hne].
  - rewrite Hdk in Hd. injection Hd as ->.
    exists d'. split; [apply list_lookup_insert_eq; by eapply lookup_lt_Some|].
    assert (dir_ok (sys_pool s) d) as Hdok by (eapply Forall_lookup_1; eauto).
    destruct a; eauto.
  - exists d. by rewrite list_lookup_insert_ne.
Qed.

Lemma new_direction_calm src dst up :
  Forall well_behaved (dev_reads src) -> calm (new_direction src dst up).
Proof.
  intros Hsrc. unfold calm, new_direction. proj_simpl.
  split_and!; try done. apply Forall_replicate.
  unfold size_ok, mtuSize. lia.
Qed.

Lemma run_calm k up tun1 tun2 sched d0 :
  sys_dirs (Run true up tun1 tun2).1 !! k = Some d0 -> calm d0 ->
  exists d, sys_dirs (run sched (Run true up tun1 tun2).1) !! k = Some d /\ calm d.
Proof.
  intros Hd0 Hc.
  eapply (index_invariant calm k (Run true up tun1 tun2).1).
  - apply reader_step_calm.
  - intros h pool d h' pool' d' Hstep _. by eapply writer_step_calm.
  - apply Run_queued_ok.
  - by exists d0.
  - apply run_reachable.
Qed.

(** ** Order and content of what is written *)

Lemma dir_data_prefix h total d :
  dir_data h total d -> written (d_trace d) `prefix_of` total.
Proof.
  unfold dir_data.
  destruct (r_pc (d_reader d)); intros H;
    try (rewrite <- H; by apply prefix_app_r);
    eapply prefix_app_l; exact H.
Qed.

Lemma delivered_forward_init cap src :
  read_packets cap (b_data <$> fs_bufs (forward_init cap))
               (fs_sizes (forward_init cap)) src
  = delivered cap src.
Proof. unfold forward_init, delivered. cbn [fs_bufs fs_sizes]. by rewrite fmap_replicate. Qed.

Lemma run_data up tun1 tun2 sched :
  Forall2 (fun total d =>
             dir_data (sys_heap (run sched (Run true up tun1 tun2).1)) total d
             /\ written (d_trace d) `prefix_of` total)
          [delivered (mtuSize + offset) (dev_reads tun1);
           delivered (mtuSize + offset) (dev_reads tun2)]
          (sys_dirs (run sched (Run true up tun1 tun2).1)).
Proof.
  destruct (run_sys_inv up tun1 tun2 sched) as (_ & _ & Hlen & Hdata).
  apply Forall2_same_length_lookup_2; [done|].
  intros k t d Ht Hd. specialize (Hdata k t d Ht Hd).
  split; [done|]. by eapply dir_data_prefix.
Qed.

(** C6: within one direction the packets reach the destination in the order
    they were read.  [forward] has written exactly the packets delivered so
    far (a prefix of them if it panicked); in every state of the channel
    pipeline the packets written, then those in the writer's batch, in the
    channel and in the reader's hand, then those still to be copied, are
    the delivered packets in order, so what is written is a prefix of
    them. *)
Theorem packets_written_in_read_order :
  (forall src dst,
     match (forward src dst).2 with
     | Panicked => written (forward src dst).1 `prefix_of` delivered maxPktSize src
     | _ => written (forward src dst).1 = delivered maxPktSize src
     end)
  /\ (forall up tun1 tun2 sched,
        Forall2 (fun total d =>
                   dir_data (sys_heap (run sched (Run true up tun1 tun2).1)) total d
                   /\ written (d_trace d) `prefix_of` total)
                [delivered (mtuSize + offset) (dev_reads tun1);
                 delivered (mtuSize + offset) (dev_reads tun2)]
                (sys_dirs (run sched (Run true up tun1 tun2).1))).
Proof.
  split.
  - intros src dst. unfold forward.
    destruct (forward_loop_written src dst (forward_init maxPktSize)
                (forward_init_ok maxPktSize)) as [Hpre Heq].
    rewrite delivered_forward_init in Hpre, Heq.
    destruct ((forward_loop src dst (forward_init maxPktSize)).2); auto.
  - apply run_data.
Qed.

Lemma forward_writes_delivered src dst :
  Forall well_behaved src ->
  written (forward src dst).1 = delivered (mtuSize + offset) src.
Proof.
  intros Hsrc. unfold forward.
  destruct (forward_loop_written src dst (forward_init maxPktSize)
              (forward_init_ok maxPktSize)) as [_ Heq].
  rewrite Heq.
  - rewrite delivered_forward_init. unfold delivered.
    apply read_packets_fits; [unfold maxPktSize, mtuSize, offset; lia|lia|done].
  - apply forward_loop_no_panic; [apply forward_init_ok| |done].
    unfold forward_init. cbn [fs_sizes]. apply Forall_replicate.
    unfold size_ok, mtuSize. lia.
Qed.

Lemma pipeline_accounts k up tun1 tun2 sched src dst0 :
  [(tun1, tun2); (tun2, tun1)] !! k = Some (src, dst0) ->
  Forall well_behaved (dev_reads src) ->
  exists d,
    sys_dirs (run sched (Run true up tun1 tun2).1) !! k = Some d
    /\ r_pc (d_reader d) <> RPanic
    /\ written (d_trace d)
         ++ inflight (sys_heap (run sched (Run true up tun1 tun2).1)) d
         ++ pending d
       = delivered (mtuSize + offset) (dev_reads src).
Proof.
  intros Hk Hsrc.
  destruct (Run_queued up tun1 tun2) as (_ & _ & Hd0 & _).
  assert (sys_dirs (Run true up tun1 tun2).1 !! k = Some (new_direction src dst0 up)
          /\ [delivered (mtuSize + offset) (dev_reads tun1);
              delivered (mtuSize + offset) (dev_reads tun2)] !! k
             = Some (delivered (mtuSize + offset) (dev_reads src))) as [Hnew Htot].
  { rewrite Hd0. destruct k as [|[|k]]; simpl in Hk; try done;
      injection Hk as <- <-; done. }
  destruct (run_calm k up tun1 tun2 sched _ Hnew (new_direction_calm _ _ _ Hsrc))
    as (d & Hd & _ & _ & Hpc).
  destruct (run_sys_inv up tun1 tun2 sched) as (_ & _ & _ & Hdata).
  specialize (Hdata k _ d Htot Hd).
  exists d. split; [done|].
  assert (r_pc (d_reader d) <> RPanic) as Hnp.
  { intros Heq. by rewrite Heq in Hpc. }
  split; [done|].
  unfold dir_data in Hdata. by destruct (r_pc (d_reader d)).
Qed.

(** C3: for a source device that honours the contract of [Read], the three
    configurations write the same packets in the same order: [forward]
    writes all the delivered packets, and in every state of the channel
    pipeline, with or without the pool, the reader has not panicked and the
    packets written, in flight and still to be copied are those same
    packets in order, so that what the pipeline has written is a prefix of
    what [forward] writes.  Only the grouping into [Write] calls is free. *)
Theorem three_strategies_same_output tun1 tun2 dst :
  Forall well_behaved (dev_reads tun1) ->
  written (forward (dev_reads tun1) dst).1
    = delivered (mtuSize + offset) (dev_reads tun1)
  /\ (forall up sched,
        exists d,
          sys_dirs (run sched (Run true up tun1 tun2).1) !! 0%nat = Some d
          /\ r_pc (d_reader d) <> RPanic
          /\ written (d_trace d)
               ++ inflight (sys_heap (run sched (Run true up tun1 tun2).1)) d
               ++ pending d
             = delivered (mtuSize + offset) (dev_reads tun1)
          /\ written (d_trace d)
               `prefix_of` written (forward (dev_reads tun1) dst).1)
  /\ (forall up sched dst',
        Forall well_behaved (dev_reads tun2) ->
        exists d,
          sys_dirs (run sched (Run true up tun1 tun2).1) !! 1%nat = Some d
          /\ r_pc (d_reader d) <> RPanic
          /\ written (d_trace d)
               ++ inflight (sys_heap (run sched (Run true up tun1 tun2).1)) d
               ++ pending d
             = written (forward (dev_reads tun2) dst').1).
Proof.
  intros H1.
  pose proof (forward_writes_delivered (dev_reads tun1) dst H1) as Hfwd.
  split; [done|]. split.
  - intros up sched.
    destruct (pipeline_accounts 0 up tun1 tun2 sched tun1 tun2 eq_refl H1)
      as (d & Hd & Hpc & Heq).
    exists d. split_and!; try done.
    rewrite Hfwd, <- Heq. by apply prefix_app_r.
  - intros up sched dst' H2.
    destruct (pipeline_accounts 1 up tun1 tun2 sched tun2 tun1 eq_refl H2)
      as (d & Hd & Hpc & Heq).
    exists d. split_and!; try done.
    by rewrite (forward_writes_delivered _ dst' H2).
Qed.

(** ** Errors of [Write], and the way back to the pool *)

Lemma forward_loop_head src dst st :
  fwd_ok maxPktSize st ->
  exists tr, (forward_loop src dst st).1 = EvRead full_lens offset :: tr.
Proof.
  intros Hok. destruct src as [|r src].
  { rewrite forward_loop_nil by done. by eexists. }
  rewrite forward_loop_cons by done.
  destruct (forward_body_read_event r dst st Hok) as [evs Hevs].
  destruct (forward_body _ _ _ _) as [evs' dst' st'|evs' o];
    destruct Hevs as [-> _]; by eexists.
Qed.

Lemma writer_steps_S k h pool d :
  writer_steps (S k) (h, pool, d)
  = match writer_step h pool d with
    | Some st' => writer_steps k st'
    | None => (h, pool, d)
    end.
Proof. done. Qed.

Lemma writer_put_run h src dst ch rd bufs orig tr n m : forall i p,
  (n <= length orig)%nat -> (i + m = n)%nat ->
  writer_steps (S m)
    (h, Some p, Direction src dst ch rd (Writer (WPut n i) bufs orig true) tr)
  = (h, Some (p ++ drop i (take n orig)),
     Direction src dst ch rd (Writer WRecv bufs orig true) tr).
Proof.
  induction m as [|m IH]; intros i p Hn Him.
  - rewrite writer_steps_S. unfold writer_step. proj_simpl.
    rewrite decide_False by lia. cbn [writer_steps].
    rewrite drop_ge by (rewrite length_take; lia). by rewrite app_nil_r.
  - rewrite writer_steps_S. unfold writer_step. proj_simpl.
    rewrite decide_True by lia.
    destruct (lookup_lt_is_Some_2 orig i) as [s Hs]; [lia|].
    rewrite Hs. unfold set_writer. proj_simpl.
    rewrite (IH (S i) (pool_put p s)) by lia.
    unfold pool_put. rewrite <- app_assoc.
    rewrite (drop_S (take n orig) s i) by (rewrite lookup_take_lt by lia; done).
    done.
Qed.

(** C8: an error of [Write] ends neither loop.  In [forward] the round ends
    with the log line and the loop goes on to the next [Read] from the same
    state as after a successful [Write].  In [writeFromChannel] with the
    pool, whatever [Write] returns, the [n] buffers of the batch are put
    back in the pool and the writer is back at the channel; in every run
    the first [n] entries of [originalBufs] are the full buffers of the
    batch. *)
Theorem write_error_not_fatal :
  (forall r src dst st k k' e,
     fwd_ok maxPktSize st -> rr_err r = None -> 0 < rr_n r <= batchSize ->
     (forall i sz, (i < Z.to_nat (rr_n r))%nat ->
        store_sizes (fs_sizes st) (rr_fills r) !! i = Some sz ->
        0 <= sz + offset <= maxPktSize) ->
     exists out st' tr,
       forward_loop (r :: src) (WriteResult k (Some e) :: dst) st
       = prepend [EvRead full_lens offset; EvWrite (lbuf_bytes <$> out) offset;
                  EvLog ("Write error: " ++ e)]
           (forward_loop src dst st')
       /\ forward_loop (r :: src) (WriteResult k' None :: dst) st
          = prepend [EvRead full_lens offset; EvWrite (lbuf_bytes <$> out) offset]
              (forward_loop src dst st')
       /\ (forward_loop src dst st').1 = EvRead full_lens offset :: tr)
  /\ (forall h p src dst w ch rd bufs orig tr n,
        (1 <= n <= length bufs)%nat -> (n <= length orig)%nat ->
        writer_steps (n + 2)
          (h, Some p,
           Direction src (w :: dst) ch rd (Writer (WWrite n) bufs orig true) tr)
        = (h, Some (p ++ take n orig),
           Direction src dst ch rd (Writer WRecv bufs orig true)
             (tr ++ EvWrite (slice_bytes h <$> take n bufs) offset
                 :: log_write_err w)))
  /\ (forall up tun1 tun2 sched,
        Forall (fun d => writer_ok (d_writer d))
               (sys_dirs (run sched (Run true up tun1 tun2).1))).
Proof.
  split_and!.
  - intros r src dst st k k' e Hok Herr Hn Hsizes.
    destruct (forward_loop_round r src st Hok Herr) as [_ H1].
    destruct (H1 Hn Hsizes) as (out & outBufs & Hlen & Hout & Hok' & Heq).
    destruct (forward_loop_head src dst _ Hok') as [tr Htr].
    eexists out, _, tr. split_and!; [| |exact Htr].
    + by rewrite Heq.
    + by rewrite Heq.
  - intros h p src dst w ch rd bufs orig tr n Hn Ho.
    replace (n + 2)%nat with (S (S n)) by lia.
    rewrite writer_steps_S. unfold writer_step. proj_simpl.
    rewrite decide_True by lia.
    rewrite slice_to_Some by lia. cbn [next_write].
    rewrite Nat2Z.id.
    rewrite (writer_put_run _ _ _ _ _ _ _ _ n n 0%nat) by lia.
    by rewrite drop_0.
  - intros up tun1 tun2 sched.
    destruct (run_ok up tun1 tun2 sched) as [_ Hdirs].
    eapply Forall_impl; [exact Hdirs|]. by intros d (_ & Hw & _).
Qed.

Lemma run_pool_flag up tun1 tun2 sched :
  bool_decide (sys_pool (run sched (Run true up tun1 tun2).1) <> None) = up.
Proof.
  assert (forall s, reachable (Run true up tun1 tun2).1 s ->
                    sys_ok s /\ bool_decide (sys_pool s <> None) = up) as Hall.
  { induction 1 as [|s a s' _ [IH1 IH2] Hstep].
    - split; [apply Run_queued_ok|].
      destruct (Run_queued up tun1 tun2) as (_ & -> & _). by destruct up.
    - split; [eapply step_ok; eauto|].
      destruct IH1 as [Hpool Hdirs].
      apply step_inv in Hstep as (d & h & pool & d' & _ & Hd & Hstep & ->).
      assert (dir_ok (sys_pool s) d) as Hdok by (eapply Forall_lookup_1; eauto).
      cbn [sys_pool]. rewrite <- IH2.
      destruct a as [k choice|k].
      + by apply reader_step_ok in Hstep as (_ & ? & _).
      + by apply writer_step_ok in Hstep as (_ & _ & ? & _). }
  apply Hall, run_reachable.
Qed.

(** ** The undersized-buffer fallback and the pool *)


(** ** The strategy switch *)

(** C9, amended: without the channel pipeline the pool flag changes nothing
    but the first log line, which prints both flags: the same two [forward]
    goroutines are started, the pool is never made, no pipeline direction
    exists, and the log is that first line followed by the same lines. *)
Theorem direct_run_differs_in_banner_only (up up' : bool) (tun1 tun2 : device) :
  (Run false up tun1 tun2).2 = (Run false up' tun1 tun2).2
  /\ (Run false up tun1 tun2).2
     = Direct (forward (dev_reads tun1) (dev_writes tun2))
              (forward (dev_reads tun2) (dev_writes tun1))
  /\ sys_pool (Run false up tun1 tun2).1 = None
  /\ sys_dirs (Run false up tun1 tun2).1 = []
  /\ sys_heap (Run false up tun1 tun2).1 = []
  /\ sys_crashed (Run false up tun1 tun2).1 = false
  /\ sys_log (Run false up tun1 tun2).1
     = EvLog (banner false up) :: tail (sys_log (Run false up' tun1 tun2).1).
Proof. split_and!; reflexivity. Qed.

(** ** The theorems at concrete inputs *)

Lemma forward_zero_retry_else_one_write_witness :
  let r := ReadResult 2 None [Fill [Byte.x45; Byte.x01] 20 None;
                               Fill [Byte.x45] 30 None] in
  let st := forward_init maxPktSize in
  let bufs := apply_fills (set_len (mtuSize + offset) <$> fs_bufs st) (rr_fills r) in
  let sizes := store_sizes (fs_sizes st) (rr_fills r) in
  fwd_ok maxPktSize st /\ rr_err r = None /\ 0 < rr_n r <= batchSize
  /\ exists out outBufs,
       length out = Z.to_nat (rr_n r)
       /\ (forall i, (i < Z.to_nat (rr_n r))%nat ->
             exists b sz, bufs !! i = Some b /\ sizes !! i = Some sz
               /\ reslice b (sz + offset) = Some (set_len (sz + offset) b)
               /\ out !! i = Some (set_len (sz + offset) b))
       /\ forward_loop [r] [] st
          = prepend (EvRead (replicate (Z.to_nat batchSize) (mtuSize + offset)) offset
                       :: EvWrite (lbuf_bytes <$> out) offset
                       :: log_write_err (next_write (length out) []).1)
              (forward_loop [] (next_write (length out) []).2
                 (FwdState bufs outBufs sizes)).
Proof.
  intros r st bufs sizes.
  split; [apply forward_init_ok|]. split; [reflexivity|]. split; [by vm_compute|].
  apply (forward_zero_retry_else_one_write r [] [] st).
  - apply forward_init_ok.
  - reflexivity.
  - by vm_compute.
  - intros i sz Hi Hs. vm_compute in Hi.
    destruct i as [|[|i]]; [| |lia]; vm_compute in Hs; injection Hs as <-;
      by vm_compute.
Defined.

Lemma three_strategies_same_output_witness :
  let tun1 := Device [one_packet 1 None] [] in
  Forall well_behaved (dev_reads tun1)
  /\ Forall well_behaved (dev_reads idle_device)
  /\ written (forward (dev_reads tun1) []).1
     = delivered (mtuSize + offset) (dev_reads tun1)
  /\ (forall up sched,
        exists d,
          sys_dirs (run sched (Run true up tun1 idle_device).1) !! 0%nat = Some d
          /\ r_pc (d_reader d) <> RPanic
          /\ written (d_trace d)
               ++ inflight (sys_heap (run sched (Run true up tun1 idle_device).1)) d
               ++ pending d
             = delivered (mtuSize + offset) (dev_reads tun1)
          /\ written (d_trace d)
               `prefix_of` written (forward (dev_reads tun1) []).1)
  /\ (forall up sched,
        exists d,
          sys_dirs (run sched (Run true up tun1 idle_device).1) !! 1%nat = Some d
          /\ r_pc (d_reader d) <> RPanic
          /\ written (d_trace d)
               ++ inflight (sys_heap (run sched (Run true up tun1 idle_device).1)) d
               ++ pending d
             = written (forward (dev_reads idle_device) []).1).
Proof.
  intros tun1.
  assert (Forall well_behaved (dev_reads tun1)) as H1.
  { repeat constructor; simpl; try lia; by vm_compute. }
  assert (Forall well_behaved (dev_reads idle_device)) as H2 by constructor.
  split; [exact H1|]. split; [exact H2|].
  destruct (three_strategies_same_output tun1 idle_device [] H1) as (Ha & Hb & Hc).
  split; [exact Ha|]. split; [exact Hb|].
  intros up sched. exact (Hc up sched [] H2).
Defined.


Lemma no_pool_fallback_unreachable_witness :
  let tun1 := Device [one_packet 64 None] [] in
  let sched := [StepReader 0 0; StepReader 0 0; StepReader 0 0] in
  Forall read_bounded (dev_reads tun1)
  /\ Forall read_bounded (dev_reads idle_device)
  /\ Forall (fun d =>
               (EvLog warn_small ∉ d_trace d)
               /\ match r_pc (d_reader d) with
                  | RCopy _ _ pktBuf size =>
                      s_cap pktBuf = maxPktSize /\ size <= mtuSize + offset
                  | _ => True
                  end)
            (sys_dirs (run sched (Run true false tun1 idle_device).1)).
Proof.
  intros tun1 sched.
  assert (Forall read_bounded (dev_reads tun1)) as H1.
  { repeat constructor. by vm_compute. }
  assert (Forall read_bounded (dev_reads idle_device)) as H2 by constructor.
  split; [exact H1|]. split; [exact H2|].
  exact (no_pool_fallback_unreachable tun1 idle_device sched H1 H2).
Defined.

Lemma write_error_not_fatal_witness :
  let r := one_packet 20 None in
  let st := forward_init maxPktSize in
  (fwd_ok maxPktSize st /\ rr_err r = None /\ 0 < rr_n r <= batchSize
   /\ exists out st' tr,
        forward_loop [r] [WriteResult 0 (Some "input/output error"%string)] st
        = prepend [EvRead full_lens offset; EvWrite (lbuf_bytes <$> out) offset;
                   EvLog "Write error: input/output error"]
            (forward_loop [] [] st')
        /\ forward_loop [r] [WriteResult 1 None] st
           = prepend [EvRead full_lens offset; EvWrite (lbuf_bytes <$> out) offset]
               (forward_loop [] [] st')
        /\ (forward_loop [] [] st').1 = EvRead full_lens offset :: tr)
  /\ ((1 <= 1 <= length [Slice 0 74 maxPktSize])%nat
      /\ (1 <= length [Slice 0 maxPktSize maxPktSize])%nat
      /\ writer_steps 3
           ([[Byte.x45]], Some [],
            Direction [] [WriteResult 0 (Some "input/output error"%string)] []
              (Reader RRead [] [] true)
              (Writer (WWrite 1) [Slice 0 74 maxPktSize]
                      [Slice 0 maxPktSize maxPktSize] true) [])
         = ([[Byte.x45]], Some [Slice 0 maxPktSize maxPktSize],
            Direction [] [] [] (Reader RRead [] [] true)
              (Writer WRecv [Slice 0 74 maxPktSize]
                      [Slice 0 maxPktSize maxPktSize] true)
              [EvWrite [pad_take 74 [Byte.x45]] offset;
               EvLog "Write error: input/output error"])).
Proof.
  intros r st.
  destruct write_error_not_fatal as (Hfwd & Hwr & _).
  split.
  - split; [apply forward_init_ok|]. split; [reflexivity|].
    split; [by vm_compute|].
    apply (Hfwd r [] [] st 0 1 "input/output error"%string).
    + apply forward_init_ok.
    + reflexivity.
    + by vm_compute.
    + intros i sz Hi Hs. vm_compute in Hi.
      destruct i as [|i]; [|lia]. vm_compute in Hs. injection Hs as <-.
      by vm_compute.
  - split; [simpl; lia|]. split; [simpl; lia|].
    apply (Hwr [[Byte.x45]] [] [] []
             (WriteResult 0 (Some "input/output error"%string)) []
             (Reader RRead [] [] true) [Slice 0 74 maxPktSize]
             [Slice 0 maxPktSize maxPktSize] [] 1%nat); simpl; lia.
Defined.


(** ** A run of the three configurations, evaluated

    The device delivers a 64-byte packet, then a 1500-byte and a 40-byte
    packet in one call.  With the pool, the second call reuses the buffer
    the writer put back after the first. *)
Example three_packets_all_strategies :
  let a := one_packet 64 None in
  let bc := ReadResult 2 None [Fill [Byte.x46] 1500 None; Fill [Byte.x47] 40 None] in
  let tun1 := Device [a; bc] [] in
  let first := replicate 5 (StepReader 0 0) ++ replicate 5 (StepWriter 0) in
  let second := replicate 8 (StepReader 0 0) ++ replicate 7 (StepWriter 0) in
  let batches := [[pad_take 74 [Byte.x45]];
                  [pad_take 1510 [Byte.x46]; pad_take 50 [Byte.x47]]] in
  write_calls (forward (dev_reads tun1) []).1 = batches
  /\ (fun d => write_calls (d_trace d))
       <$> sys_dirs (run (first ++ second) (Run true false tun1 idle_device).1)
     = [batches; []]
  /\ (fun d => write_calls (d_trace d))
       <$> sys_dirs (run (first ++ second) (Run true true tun1 idle_device).1)
     = [batches; []]
  /\ sys_pool (run (first ++ second) (Run true true tun1 idle_device).1)
     = Some [Slice 0 maxPktSize maxPktSize; Slice 1 maxPktSize maxPktSize]
  /\ (fun d => write_calls (d_trace d))
       <$> sys_dirs (run (replicate 13 (StepReader 0 0) ++ replicate 5 (StepWriter 0))
                        (Run true false tun1 idle_device).1)
     = [[[pad_take 74 [Byte.x45]; pad_take 1510 [Byte.x46]; pad_take 50 [Byte.x47]]];
        []].
Proof. vm_compute. split_and!; done. Qed.

(** ** Where the specification and the code part *)



(** Against C9 as stated: the two runs differ, in their first log line. *)
Lemma direct_runs_differ_in_log :
  Run false true idle_device idle_device <> Run false false idle_device idle_device
  /\ head (sys_log (Run false true idle_device idle_device).1)
     = Some (EvLog "Starting TUN forwarding demo (useChannel: false, usePool: true)")
  /\ head (sys_log (Run false false idle_device idle_device).1)
     = Some (EvLog "Starting TUN forwarding demo (useChannel: false, usePool: false)").
Proof.
  split_and!; [|reflexivity|reflexivity].
  intros H. apply (f_equal (fun x => head (sys_log x.1))) in H.
  vm_compute in H. discriminate H.
Qed.

(** * The command line *)

Lemma string_prefix_app p s : String.prefix p (p ++ s) = true.
Proof.
  induction p as [|c p IH]; simpl; [by destruct s|].
  destruct (Ascii.ascii_dec c c); [done|congruence].
Qed.

Lemma substring_app p s :
  String.substring (String.length p) (String.length s) (p ++ s) = s.
Proof.
  induction p as [|c p IH]; simpl; [|done].
  induction s as [|c s IH]; simpl; [done|]. by rewrite IH.
Qed.

Lemma string_length_app (p s : string) :
  String.length (p ++ s) = (String.length p + String.length s)%nat.
Proof. induction p; simpl; [done|]. by rewrite IHp. Qed.

Lemma TrimPrefix_app p s : TrimPrefix (p ++ s) p = s.
Proof.
  unfold TrimPrefix, HasPrefix. rewrite string_prefix_app, string_length_app.
  replace (String.length p + String.length s - String.length p)%nat
    with (String.length s) by lia.
  apply substring_app.
Qed.

Lemma mode_of_app m : mode_of ("-mode=" ++ m) = Some m.
Proof.
  unfold mode_of, HasPrefix. rewrite string_prefix_app. f_equal. apply TrimPrefix_app.
Qed.

Lemma parse_args_snoc args arg :
  parse_args (args ++ [arg]) = parse_arg (parse_args args) arg.
Proof. unfold parse_args. by rewrite foldl_app. Qed.

Lemma parse_arg_mode f arg :
  fl_mode (parse_arg f arg) = default (fl_mode f) (mode_of arg).
Proof.
  unfold parse_arg, mode_of. destruct (HasPrefix arg "-mode="); [done|].
  by repeat case_match.
Qed.

Lemma parse_arg_useChannel f arg :
  fl_useChannel (parse_arg f arg) = true
  <-> fl_useChannel f = true \/ arg = "-useChannel"%string.
Proof.
  unfold parse_arg.
  destruct (HasPrefix arg "-mode=") eqn:Hp; simpl.
  { split; [by left|]. intros [H| ->]; [done|]. by vm_compute in Hp. }
  destruct (String.eqb_spec arg "-useChannel") as [->|Hne]; simpl.
  { split; [by right|done]. }
  destruct (String.eqb arg "-usePool"); simpl;
    (split; [by left|by intros [?|?]]).
Qed.

Lemma parse_arg_usePool f arg :
  fl_usePool (parse_arg f arg) = true
  <-> fl_usePool f = true \/ arg = "-usePool"%string.
Proof.
  unfold parse_arg.
  destruct (HasPrefix arg "-mode=") eqn:Hp; simpl.
  { split; [by left|]. intros [H| ->]; [done|]. by vm_compute in Hp. }
  destruct (String.eqb_spec arg "-useChannel") as [->|Hne]; simpl.
  { split; [by left|]. by intros [H|H]. }
  destruct (String.eqb_spec arg "-usePool") as [->|Hne']; simpl.
  { split; [by right|done]. }
  split; [by left|by intros [?|?]].
Qed.

Lemma parse_args_flags args :
  (fl_useChannel (parse_args args) = true <-> "-useChannel"%string ∈ args)
  /\ (fl_usePool (parse_args args) = true <-> "-usePool"%string ∈ args)
  /\ fl_mode (parse_args args) = default ""%string (last (omap mode_of args)).
Proof.
  induction args as [|arg args IH] using rev_ind.
  { split_and!; [split; [done|by intros ?%elem_of_nil]..|done]. }
  destruct IH as (IHc & IHp & IHm). rewrite parse_args_snoc.
  split_and!.
  - rewrite parse_arg_useChannel, IHc, elem_of_app, list_elem_of_singleton.
    split; (intros [?|?]; [by left|by right]).
  - rewrite parse_arg_usePool, IHp, elem_of_app, list_elem_of_singleton.
    split; (intros [?|?]; [by left|by right]).
  - rewrite parse_arg_mode, IHm, omap_app. simpl.
    destruct (mode_of arg); simpl; [by rewrite last_snoc|by rewrite app_nil_r].
Qed.

(** X1 (main, the argument loop): after the loop, [useChannel] is set exactly
    when [-useChannel] is among the arguments, [usePool] exactly when
    [-usePool] is, and [mode] is what follows [-mode=] in the last argument
    that starts with it, the empty string when there is none. *)
Theorem main_flags_from_arguments (args : list string) :
  (fl_useChannel (parse_args args) = true <-> "-useChannel"%string ∈ args)
  /\ (fl_usePool (parse_args args) = true <-> "-usePool"%string ∈ args)
  /\ fl_mode (parse_args args) = default ""%string (last (omap mode_of args)).
Proof. apply parse_args_flags. Qed.

Lemma omap_mode_of_none rest :
  Forall (fun a => HasPrefix a "-mode=" = false) rest -> omap mode_of rest = [].
Proof.
  induction 1 as [|a rest Ha _ IH]; [done|]. simpl.
  unfold mode_of at 1. by rewrite Ha.
Qed.

Lemma parse_args_last_mode args m rest :
  Forall (fun a => HasPrefix a "-mode=" = false) rest ->
  fl_mode (parse_args (args ++ ("-mode=" ++ m)%string :: rest)) = m.
Proof.
  intros Hrest. destruct (parse_args_flags (args ++ ("-mode=" ++ m)%string :: rest))
    as (_ & _ & ->).
  rewrite cons_middle, app_assoc, !omap_app, (omap_mode_of_none rest Hrest).
  change (omap mode_of [("-mode=" ++ m)%string])
    with (match mode_of ("-mode=" ++ m) with Some y => [y] | None => [] end).
  by rewrite mode_of_app, app_nil_r, last_snoc.
Qed.

(** X2 (main, the dispatch): the last [-mode=] argument decides. When it is
    [-mode=normal], [normal_tun.Run] is called and [-usePool] is dropped;
    with any other value [tun.Run] is called with both flags. *)
Theorem main_last_mode_decides (args rest : list string) (m : string) :
  Forall (fun a => HasPrefix a "-mode=" = false) rest ->
  let argv := args ++ ("-mode=" ++ m)%string :: rest in
  main argv
  = if String.eqb m "normal"
    then CallNormalRun (fl_useChannel (parse_args argv))
    else CallTunRun (fl_useChannel (parse_args argv)) (fl_usePool (parse_args argv)).
Proof.
  intros Hrest argv. subst argv. unfold main. cbv zeta.
  by rewrite (parse_args_last_mode args m rest Hrest).
Qed.

Lemma main_last_mode_decides_witness :
  main ["-usePool"; "-mode=fast"; "-mode=normal"; "-useChannel"]%string
  = CallNormalRun true.
Proof.
  exact (main_last_mode_decides ["-usePool"; "-mode=fast"]%string
           ["-useChannel"]%string "normal"
           ltac:(repeat constructor)).
Defined.

Lemma main0_mode args :
  main0 args
  = if String.eqb (default ""%string (last (omap mode_of args))) "normal"
    then CallNormalRun0 else CallTunRun0.
Proof.
  unfold main0. cbv zeta.
  match goal with |- (if String.eqb ?a _ then _ else _) = _ =>
    assert (a = default ""%string (last (omap mode_of args))) as ->; [|done]
  end.
  induction args as [|arg args IH] using rev_ind; [done|].
  rewrite foldl_app, omap_app. simpl. rewrite IH. unfold mode_of.
  destruct (HasPrefix arg "-mode="); simpl;
    [by rewrite last_snoc|by rewrite app_nil_r].
Qed.

(** X3 (the two versions of main): on every command line the older [main],
    which knows the mode only, starts the same package as the newer one. *)
Theorem main_versions_same_package (args : list string) :
  main0 args = CallNormalRun0 <-> exists uc, main args = CallNormalRun uc.
Proof.
  rewrite main0_mode. unfold main.
  destruct (parse_args_flags args) as (_ & _ & ->).
  destruct (String.eqb _ "normal"); split; try done; [by eexists|by intros [? ?]].
Qed.

(** * Bringing the interfaces up *)

(** X4 (setupTun): the address is assigned before the link is set up, and the
    link is not touched when assigning the address failed. The commands run
    are the first [k + 1] of the two, for [k] the number that succeed; nil is
    returned, and the success line logged, exactly when both succeed; each
    command uses up one answer of the system. *)
Theorem setupTun_stops_at_first_failure (name ip cidr : string) (sh : shell) :
  let k := leading_ok 2 (sh_script sh) in
  let '(r, sh', log) := setupTun name ip cidr sh in
  sh_ran sh' = sh_ran sh ++ take (S k) (tun_setup_commands name ip cidr)
  /\ sh_script sh' = drop (S k `min` 2) (sh_script sh)
  /\ (r = None <-> k = 2%nat)
  /\ (log <> [] <-> k = 2%nat).
Proof.
  destruct sh as [script ran]. unfold setupTun, runCmd. simpl.
  destruct script as [|[o1 [e1|]] [|[o2 [e2|]] script]]; simpl;
    rewrite <-?app_assoc; simpl; split_and!; try done; try (split; done);
    by rewrite ?drop_0.
Qed.

#[local] Arguments Run : simpl never.
#[local] Arguments banner : simpl never.

(** X5 (tun.Run, start-up): [Run] reaches the forwarding code exactly when
    both [CreateTUN] calls and all four [ip] commands succeed. Whatever
    happens, the commands it has run are a prefix of the four, in order, and
    none is run when creating tun11 failed; when it does start, its log opens
    with the banner and the two set-up lines. *)
Theorem Run_starts_only_after_full_setup (uc up : bool)
    (create1 create2 : option string) (tun1 tun2 : device) (sh : shell) :
  let b := Run_boot uc up create1 create2 tun1 tun2 sh in
  let ran := match b with Fatal _ sh' | Up sh' _ => sh_ran sh' end in
  ((exists sh' r, b = Up sh' r)
   <-> create1 = None /\ create2 = None /\ leading_ok 4 (sh_script sh) = 4%nat)
  /\ (exists k, ran = sh_ran sh ++ take k tun_commands)
  /\ (create1 <> None -> ran = sh_ran sh)
  /\ (forall sh' r, b = Up sh' r ->
      r = Run uc up tun1 tun2
      /\ ran = sh_ran sh ++ tun_commands
      /\ take 3 (sys_log r.1)
         = EvLog (banner uc up)
             :: (setupTun "tun11" "10.0.1.1" "24" sh).2
             ++ (setupTun "tun22" "10.0.2.1" "24"
                   (setupTun "tun11" "10.0.1.1" "24" sh).1.2).2).
Proof.
  destruct sh as [script ran]. unfold Run_boot, setupTun, runCmd.
  simpl.
  destruct create1 as [e1|].
  { split_and!; [split; [by intros (? & ? & ?)|by intros (? & _)]
                |by exists 0%nat; rewrite app_nil_r|done|done]. }
  destruct script as [|[o1 [c1|]] script]; simpl.
  - destruct create2 as [e2|]; simpl.
    + split_and!; [split; [by intros (? & ? & ?)|by intros (? & ? & _)]
                  |exists 2%nat; by rewrite <-app_assoc|done|done].
    + split_and!; [split; [done|by do 2 eexists]
                  |exists 4%nat; by rewrite <-!app_assoc|done|].
      intros sh' r [= <- <-]. split_and!; [done|by rewrite <-!app_assoc|].
      unfold Run. by destruct uc, up.
  - split_and!; [split; [by intros (? & ? & ?)|intros (_ & _ & H); simpl in H; lia]
                |by exists 1%nat|done|done].
  - destruct script as [|[o2 [c2|]] script]; simpl.
    + destruct create2 as [e2|]; simpl.
      * split_and!; [split; [by intros (? & ? & ?)|by intros (? & ? & _)]
                    |exists 2%nat; by rewrite <-app_assoc|done|done].
      * split_and!; [split; [done|by do 2 eexists]
                    |exists 4%nat; by rewrite <-!app_assoc|done|].
        intros sh' r [= <- <-]. split_and!; [done|by rewrite <-!app_assoc|].
        unfold Run. by destruct uc, up.
    + split_and!; [split; [by intros (? & ? & ?)|intros (_ & _ & H); simpl in H; lia]
                  |exists 2%nat; by rewrite <-app_assoc|done|done].
    + destruct create2 as [e2|]; simpl.
      { split_and!; [split; [by intros (? & ? & ?)|by intros (? & ? & _)]
                    |exists 2%nat; by rewrite <-app_assoc|done|done]. }
      destruct script as [|[o3 [c3|]] script]; simpl.
      * split_and!; [split; [done|by do 2 eexists]
                    |exists 4%nat; by rewrite <-!app_assoc|done|].
        intros sh' r [= <- <-]. split_and!; [done|by rewrite <-!app_assoc|].
        unfold Run. by destruct uc, up.
      * split_and!; [split; [by intros (? & ? & ?)|intros (_ & _ & H); simpl in H; lia]
                    |exists 3%nat; by rewrite <-!app_assoc|done|done].
      * destruct script as [|[o4 [c4|]] script]; simpl.
        -- split_and!; [split; [done|by do 2 eexists]
                       |exists 4%nat; by rewrite <-!app_assoc|done|].
           intros sh' r [= <- <-]. split_and!; [done|by rewrite <-!app_assoc|].
           unfold Run. by destruct uc, up.
        -- split_and!; [split; [by intros (? & ? & ?)|intros (_ & _ & H); simpl in H; lia]
                       |exists 4%nat; by rewrite <-!app_assoc|done|done].
        -- split_and!; [split; [done|by do 2 eexists]
                       |exists 4%nat; by rewrite <-!app_assoc|done|].
           intros sh' r [= <- <-]. split_and!; [done|by rewrite <-!app_assoc|].
           unfold Run. by destruct uc, up.
Qed.

Lemma setupNetwork_shape (sh : shell) :
  let k := leading_ok 4 (sh_script sh) in
  let '(r, sh', log) := Normal.setupNetwork sh in
  sh_ran sh' = sh_ran sh ++ take (S k) Normal.network_commands
  /\ sh_script sh' = drop (S k `min` 4) (sh_script sh)
  /\ (r = None <-> k = 4%nat)
  /\ (Normal.NLog "--- Network Configuration Complete ---" ∈ log <-> k = 4%nat).
Proof.
  destruct sh as [script ran]. unfold Normal.setupNetwork, Normal.runCommand.
  simpl.
  destruct script as [|[o1 [e1|]] [|[o2 [e2|]] [|[o3 [e3|]] [|[o4 [e4|]] script]]]];
    simpl; rewrite <-?app_assoc; simpl;
    (split_and!;
     [done
     |by rewrite ?drop_0
     |split; (done || lia)
     |rewrite ?elem_of_cons, elem_of_nil; split; [|lia || (intros _; tauto)];
      intros H; decompose [or] H; done]).
Qed.

(** X6 (normal_tun.setupNetwork): the four commands are tried in the order
    tun11 address, tun11 up, tun22 address, tun22 up, and none is run after
    one that failed. With [k] the number that succeed, the first [k + 1] are
    run; nil is returned, and the closing line logged, exactly when all four
    succeed. *)
Theorem setupNetwork_stops_at_first_failure (sh : shell) :
  let k := leading_ok 4 (sh_script sh) in
  let '(r, sh', log) := Normal.setupNetwork sh in
  sh_ran sh' = sh_ran sh ++ take (S k) Normal.network_commands
  /\ sh_script sh' = drop (S k `min` 4) (sh_script sh)
  /\ (r = None <-> k = 4%nat)
  /\ (Normal.NLog "--- Network Configuration Complete ---" ∈ log <-> k = 4%nat).
Proof. apply setupNetwork_shape. Qed.

(** X21 (normal_tun.Run, start-up): forwarding starts exactly when the
    process runs as root, both interfaces were created and all four [ip]
    commands succeeded. No command is run unless both interfaces exist, and
    the commands run are always the first ones of the four, in order. When
    forwarding starts, it is by the two pipelines if [useChannel] is set and
    by the two direct loops otherwise, one for each direction. *)
Theorem normal_Run_starts_only_after_full_setup (uc : bool) (euid : Z)
    (new1 new2 : option string) (tun1 tun2 : Normal.iface) (sh : shell) :
  let b := Normal.Run uc euid new1 new2 tun1 tun2 sh in
  ((exists log sh' st, b = Normal.Up log sh' st)
   <-> euid = 0 /\ new1 = None /\ new2 = None
       /\ leading_ok 4 (sh_script sh) = 4%nat)
  /\ (euid <> 0 \/ new1 <> None \/ new2 <> None -> Normal.boot_shell b = sh)
  /\ (exists k, sh_ran (Normal.boot_shell b)
                = sh_ran sh ++ take k Normal.network_commands)
  /\ (forall log sh' st, b = Normal.Up log sh' st ->
      st = if uc
           then Normal.Queued (Normal.forwardWithChannel tun1 tun2)
                              (Normal.forwardWithChannel tun2 tun1)
           else Normal.Direct (Normal.forward tun1 tun2)
                              (Normal.forward tun2 tun1)).
Proof.
  cbn zeta. unfold Normal.Run.
  destruct (Z.eqb_spec euid 0) as [->|Hne]; cbn [negb].
  2:{ split_and!; [split; [by intros (? & ? & ? & ?)|by intros (? & _)]
                  |done|by exists 0%nat; rewrite app_nil_r|done]. }
  destruct new1 as [e1|].
  { split_and!; [split; [by intros (? & ? & ? & ?)|by intros (_ & ? & _)]
                |done|by exists 0%nat; rewrite app_nil_r|done]. }
  destruct new2 as [e2|].
  { split_and!; [split; [by intros (? & ? & ? & ?)|by intros (_ & _ & ? & _)]
                |done|by exists 0%nat; rewrite app_nil_r|done]. }
  pose proof (setupNetwork_shape sh) as Hnet. cbn zeta in Hnet.
  destruct (Normal.setupNetwork sh) as [[r sh'] log].
  destruct Hnet as (Hran & _ & Hr & _).
  destruct r as [e|].
  - split_and!.
    + split; [by intros (? & ? & ? & ?)|]. intros (_ & _ & _ & Hk).
      by apply Hr in Hk.
    + intros [?|[?|?]]; done.
    + by eexists.
    + done.
  - split_and!.
    + split; [intros _; split_and!; try done; by apply Hr|].
      intros _. destruct uc; by do 3 eexists.
    + intros [?|[?|?]]; done.
    + destruct uc; by eexists.
    + intros log' sh'' st. destruct uc; by intros [= _ _ <-].
Qed.


(** * Package normal_tun *)

Lemma normal_written_app tr1 tr2 :
  Normal.written (tr1 ++ tr2) = Normal.written tr1 ++ Normal.written tr2.
Proof. unfold Normal.written. by rewrite omap_app. Qed.

Lemma normal_reads_made_app tr1 tr2 :
  Normal.reads_made (tr1 ++ tr2)
  = (Normal.reads_made tr1 + Normal.reads_made tr2)%nat.
Proof. unfold Normal.reads_made. by rewrite omap_app, length_app. Qed.

Lemma normal_packet_of_Some buf n p :
  Normal.packet_of buf n = Some p ->
  p = pad_take (Z.to_nat n) buf /\ 0 <= n <= Normal.bufSize.
Proof.
  unfold Normal.packet_of. destruct (0 <=? n) eqn:H0; [|done].
  destruct (n <=? Normal.bufSize) eqn:H1; [|done]. simpl. intros [= <-].
  split; [done|lia].
Qed.

Lemma normal_forward_loop_written sn dn reads : forall writes buf,
  let tr := (Normal.forward_loop sn dn reads writes buf).1 in
  let o := (Normal.forward_loop sn dn reads writes buf).2 in
  Normal.written tr `prefix_of` Normal.delivered reads buf
  /\ (o = BlockedOnRead -> Normal.written tr = Normal.delivered reads buf)
  /\ (Forall (fun w => wr_err w = None) writes -> o <> Panicked ->
      Normal.written tr = Normal.delivered reads buf)
  /\ (forall k w e, writes !! k = Some w -> wr_err w = Some e ->
      (length (Normal.written tr) <= S k)%nat)
  /\ (length (Normal.written tr) <= Normal.reads_made tr
      <= S (length (Normal.written tr)))%nat.
Proof.
  induction reads as [|r reads IH]; intros writes buf; cbn zeta.
  { simpl. split_and!; try done; try (intros; simpl; lia). }
  cbn [Normal.forward_loop Normal.delivered].
  destruct (Normal.nr_err r) as [e|] eqn:Herr.
  { simpl. split_and!; try done; try (intros; simpl; lia); try apply prefix_nil. }
  destruct (Normal.packet_of _ _) as [p|] eqn:Hp.
  2:{ simpl. split_and!; try done; try (intros; simpl; lia); try apply prefix_nil. }
  apply normal_packet_of_Some in Hp as [-> Hn].
  set (p := pad_take _ _).
  destruct (next_write (length p) writes) as [w writes'] eqn:Hnw.
  destruct (wr_err w) as [e|] eqn:Hw.
  { cbn [fst snd]. change (Normal.written _) with [p].
    split_and!; try done.
    - by apply prefix_cons, prefix_nil.
    - intros Hall _. destruct writes as [|w0 writes]; simplify_eq/=.
      apply Forall_cons in Hall as [? _]. congruence.
    - simpl. lia.
    - simpl. unfold Normal.reads_made. simpl. lia. }
  destruct (IH writes' (Normal.after_read buf r)) as (IH1 & IH2 & IH3 & IH4 & IH5).
  unfold Normal.cons_events. cbn [fst snd].
  rewrite normal_written_app, normal_reads_made_app.
  change (Normal.written [Normal.NRead; Normal.NWrite p]) with [p].
  change (Normal.reads_made [Normal.NRead; Normal.NWrite p]) with 1%nat.
  cbn [app length].
  split_and!.
  - by apply prefix_cons.
  - intros Ho. by rewrite IH2.
  - intros Hall Ho. rewrite IH3; [done| |done].
    destruct writes as [|w0 writes]; simplify_eq/=; [done|].
    by apply Forall_cons in Hall as [_ ?].
  - intros k w0 e Hk He.
    destruct writes as [|w1 writes]; simplify_eq/=.
    destruct k as [|k]; simplify_eq/=.
    specialize (IH4 k w0 e Hk He). lia.
  - lia.
  - lia.
Qed.

(** X7 (normal_tun.forward, delivery): the packets are written in the order
    they were read, each exactly once: what is written is always a prefix of
    what the source delivers up to its first failing [Read], and all of it
    when the loop is waiting in [Read], or has returned and no [Write]
    failed. A [Write] is made for one [Read] each, before the next [Read]. *)
Theorem normal_forward_one_write_per_read (src dst : Normal.iface) :
  let tr := (Normal.forward src dst).1 in
  let total := Normal.delivered (Normal.if_reads src) [] in
  match (Normal.forward src dst).2 with
  | BlockedOnRead => Normal.written tr = total
  | Returned =>
      Normal.written tr `prefix_of` total
      /\ (Forall (fun w => wr_err w = None) (Normal.if_writes dst) ->
          Normal.written tr = total)
  | Panicked => Normal.written tr `prefix_of` total
  end
  /\ (length (Normal.written tr) <= Normal.reads_made tr
      <= S (length (Normal.written tr)))%nat.
Proof.
  unfold Normal.forward.
  destruct (normal_forward_loop_written (Normal.if_name src) (Normal.if_name dst)
              (Normal.if_reads src) (Normal.if_writes dst) [])
    as (H1 & H2 & H3 & _ & H5).
  cbn zeta. split; [|done].
  destruct (Normal.forward_loop _ _ _ _ _).2 eqn:Ho; [by apply H2| |done].
  split; [done|]. intros Hall. by apply H3.
Qed.

Lemma normal_forward_one_write_per_read_witness :
  Normal.written
    (Normal.forward
       (Normal.Iface "tun11"%string
          [Normal.ReadResult [Byte.x45; Byte.x00] 2 None;
           Normal.ReadResult [Byte.x46] 1 None;
           Normal.ReadResult [] 0 (Some "closed"%string)] [])
       (Normal.Iface "tun22"%string [] [])).1
  = [[Byte.x45; Byte.x00]; [Byte.x46]].
Proof.
  exact (proj2 (proj1 (normal_forward_one_write_per_read
           (Normal.Iface "tun11"%string
              [Normal.ReadResult [Byte.x45; Byte.x00] 2 None;
               Normal.ReadResult [Byte.x46] 1 None;
               Normal.ReadResult [] 0 (Some "closed"%string)] [])
           (Normal.Iface "tun22"%string [] []))) ltac:(constructor)).
Defined.

(** X8 (normal_tun.forward, write errors): a failing [Write] ends the loop.
    When the [k]-th answer of the destination (from 0) is an error, at most
    [k + 1] packets are ever written, however many the source delivers. *)
Theorem normal_forward_write_error_is_final (src dst : Normal.iface)
    (k : nat) (w : write_result) (e : string) :
  Normal.if_writes dst !! k = Some w -> wr_err w = Some e ->
  (length (Normal.written (Normal.forward src dst).1) <= S k)%nat.
Proof.
  intros Hk He. unfold Normal.forward.
  destruct (normal_forward_loop_written (Normal.if_name src) (Normal.if_name dst)
              (Normal.if_reads src) (Normal.if_writes dst) [])
    as (_ & _ & _ & H4 & _).
  by apply (H4 k w e).
Qed.

Lemma normal_forward_write_error_is_final_witness :
  (length (Normal.written
     (Normal.forward
        (Normal.Iface "tun11"%string
           [Normal.ReadResult [Byte.x45] 1 None;
            Normal.ReadResult [Byte.x46] 1 None;
            Normal.ReadResult [Byte.x47] 1 None] [])
        (Normal.Iface "tun22"%string [] [WriteResult 0 (Some "EIO"%string)])).1) <= 1)%nat.
Proof.
  exact (normal_forward_write_error_is_final
           (Normal.Iface "tun11"%string
              [Normal.ReadResult [Byte.x45] 1 None;
               Normal.ReadResult [Byte.x46] 1 None;
               Normal.ReadResult [Byte.x47] 1 None] [])
           (Normal.Iface "tun22"%string [] [WriteResult 0 (Some "EIO"%string)])
           0 (WriteResult 0 (Some "EIO"%string)) "EIO"%string eq_refl eq_refl).
Defined.

Lemma closed_msg_not_read_error dst src e :
  Normal.NLog ("Error reading from " ++ src ++ ": " ++ e ++ ". Goroutine terminating.")
  <> Normal.NLog (Normal.closed_msg dst).
Proof. unfold Normal.closed_msg. simpl. by intros [=]. Qed.

Lemma closed_msg_not_write_error dst name e :
  Normal.NLog ("Error writing to " ++ name ++ ": " ++ e ++ ". Goroutine terminating.")
  <> Normal.NLog (Normal.closed_msg dst).
Proof. unfold Normal.closed_msg. simpl. by intros [=]. Qed.

Ltac npipe_simpl :=
  cbn [Normal.p_src Normal.p_dst Normal.p_reads Normal.p_writes Normal.p_buffer
       Normal.p_ch Normal.p_closed Normal.p_rd Normal.p_wr Normal.p_trace] in *.

Lemma normal_written_quiet tr evs :
  Normal.written evs = [] -> Normal.written (tr ++ evs) = Normal.written tr.
Proof. intros H. by rewrite normal_written_app, H, app_nil_r. Qed.

Lemma normal_reader_step_inv total p p' :
  Normal.reader_step p = Some p' ->
  normal_inv total p -> normal_inv total p'.
Proof.
  unfold Normal.reader_step, normal_inv, Normal.pipe_ok, Normal.accounted,
    Normal.inflight, Normal.pending.
  destruct p as [src dst reads writes buf ch closed rd wr tr]. npipe_simpl.
  intros Hstep ((Hch & Hcl & Hlog & Hdone) & Hacc).
  destruct rd as [|pkt| |]; try done.
  - destruct reads as [|r reads]; [done|].
    assert (wr <> Normal.WrDone) as Hwr by (intros Hw; by destruct (Hdone Hw) as [? _]).
    cbn [Normal.delivered] in Hacc.
    destruct (Normal.nr_err r) as [e|] eqn:Herr.
    { apply (inj Some) in Hstep; subst p'. npipe_simpl. split; [split_and!|].
      - done.
      - split; [by left|done].
      - rewrite <-Hlog, !elem_of_app, !elem_of_cons, elem_of_nil.
        split; [|by left]. intros [?|[?|[H|?]]]; try done;
        by apply closed_msg_not_read_error in H.
      - done.
      - rewrite normal_written_quiet by done.
        destruct wr; try done; by rewrite ?app_nil_r in *. }
    destruct (Normal.packet_of _ _) as [pkt|] eqn:Hp;
      apply (inj Some) in Hstep; subst p'; npipe_simpl.
    + apply normal_packet_of_Some in Hp as [-> Hn].
      split; [split_and!|].
      * done.
      * split; [intros ->; destruct Hcl as [[?|?] _]; done|by intros [?|?]].
      * rewrite <-Hlog, !elem_of_app, !elem_of_cons, elem_of_nil.
        split; [|by left]. by intros [?|[?|?]].
      * done.
      * rewrite normal_written_quiet by done.
        destruct wr; try done; rewrite <-Hacc; by rewrite <-?app_assoc.
    + split; [split_and!|].
      * done.
      * split; [by right|done].
      * rewrite <-Hlog, !elem_of_app, !elem_of_cons, elem_of_nil.
        split; [|by left]. by intros [?|[?|?]].
      * done.
      * rewrite normal_written_quiet by done.
        destruct wr; try done; rewrite <-Hacc; by apply prefix_app_r.
  - destruct (decide _) as [Hlt|]; [|done]. apply (inj Some) in Hstep; subst p'. npipe_simpl.
    assert (wr <> Normal.WrDone) as Hwr by (intros Hw; by destruct (Hdone Hw) as [? _]).
    split; [split_and!|].
    + rewrite length_app. simpl. lia.
    + split; [intros ->; destruct Hcl as [[?|?] _]; done|by intros [?|?]].
    + done.
    + done.
    + destruct wr; try done; rewrite <-Hacc; by rewrite <-?app_assoc, ?app_nil_r.
Qed.

Lemma normal_writer_step_inv total p p' :
  Normal.writer_step p = Some p' -> Normal.p_rd p <> Normal.RdPanic ->
  normal_inv total p -> normal_inv total p'.
Proof.
  unfold Normal.writer_step, normal_inv, Normal.pipe_ok, Normal.accounted,
    Normal.inflight, Normal.pending.
  destruct p as [src dst reads writes buf ch closed rd wr tr]. npipe_simpl.
  intros Hstep Hnp ((Hch & Hcl & Hlog & Hdone) & Hacc).
  destruct wr as [|pkt| |]; try done.
  - destruct ch as [|pkt ch].
    + destruct closed; [|done]. apply (inj Some) in Hstep; subst p'. npipe_simpl.
      destruct Hcl as [[Hrd|Hrd] _]; [done| |done]. subst rd.
      split; [split_and!|]; try done.
      * split; [by left|done].
      * rewrite elem_of_app, list_elem_of_singleton. split; [done|by right].
      * by rewrite normal_written_quiet.
    + apply (inj Some) in Hstep; subst p'. npipe_simpl.
      split; [split_and!|]; try done;
        try (simpl in Hch; lia); try (by rewrite Hlog);
        destruct rd; try done; by rewrite Hlog.
  - destruct (next_write _ _) as [w writes']. apply (inj Some) in Hstep; subst p'.
    npipe_simpl.
    assert (Normal.written
              (tr ++ Normal.NWrite pkt ::
                 match wr_err w with
                 | Some e => [Normal.NLog ("Error writing to " ++ dst ++ ": " ++ e
                                             ++ ". Goroutine terminating.")]
                 | None => []
                 end) = Normal.written tr ++ [pkt]) as Hw.
    { rewrite normal_written_app. f_equal. by destruct (wr_err w). }
    rewrite Hw.
    split; [split_and!|]; try done.
    * rewrite elem_of_app, elem_of_cons.
      split; [|intros Hd; by destruct (wr_err w)].
      intros [H|[?|H]]; [by apply Hlog in H|done|]. exfalso.
      destruct (wr_err w); [|by apply elem_of_nil in H].
      apply list_elem_of_singleton in H. symmetry in H.
      by apply closed_msg_not_write_error in H.
    * intros Hd. by destruct (wr_err w).
    * destruct (wr_err w).
      -- destruct rd; try done;
           rewrite <-Hacc, <-!app_assoc, (app_assoc _ [pkt]);
           by apply prefix_app_r.
      -- destruct rd; try done; rewrite <-Hacc; by rewrite <-!app_assoc.
Qed.

Lemma normal_step_inv total who p p' :
  Normal.step who p = Some p' -> normal_inv total p -> normal_inv total p'.
Proof.
  unfold Normal.step. intros Hstep Hinv.
  destruct (Normal.p_rd p) eqn:Hrd; try done;
    (destruct who;
     [by eapply normal_reader_step_inv
     |eapply normal_writer_step_inv; [done|by rewrite Hrd|done]]).
Qed.

Lemma normal_run_inv total sched : forall p,
  normal_inv total p -> normal_inv total (Normal.run sched p).
Proof.
  induction sched as [|who sched IH]; intros p Hinv; [done|]. simpl.
  apply IH. destruct (Normal.step who p) as [p'|] eqn:Hstep; [|done].
  by eapply normal_step_inv.
Qed.

Lemma normal_init_inv src dst :
  normal_inv (Normal.delivered (Normal.if_reads src) [])
             (Normal.forwardWithChannel src dst).
Proof.
  unfold normal_inv, Normal.pipe_ok, Normal.accounted, Normal.forwardWithChannel.
  npipe_simpl. split; [split_and!|]; try done.
  - simpl. unfold chanCap. lia.
  - split; [done|by intros [?|?]].
  - split; [by intros ?%elem_of_nil|done].
Qed.

(** X9 (normal_tun.readFromTun / writeToTun, accounting): under every
    schedule, what has been written, then what the writer holds, the channel
    and what the reader holds, then what the reader will still read, is
    exactly what the source delivers up to its first failing [Read], in
    order. After a failing [Write] or a panic of the reader what was written
    stays a prefix of it. The channel never holds more than 2048 packets. *)
Theorem normal_pipeline_accounts (src dst : Normal.iface) (sched : list bool) :
  let p := Normal.run sched (Normal.forwardWithChannel src dst) in
  Normal.accounted (Normal.delivered (Normal.if_reads src) []) p
  /\ Normal.written (Normal.p_trace p)
       `prefix_of` Normal.delivered (Normal.if_reads src) []
  /\ (length (Normal.p_ch p) <= 2048)%nat.
Proof.
  intros p.
  destruct (normal_run_inv _ sched _ (normal_init_inv src dst))
    as ((Hch & _) & Hacc).
  fold p in Hch, Hacc. split_and!; [done| |done].
  unfold Normal.accounted in Hacc.
  destruct (Normal.p_wr p), (Normal.p_rd p); try done;
    rewrite <-Hacc; by apply prefix_app_r.
Qed.

Lemma normal_run_dst sched : forall q,
  Normal.p_dst (Normal.run sched q) = Normal.p_dst q.
Proof.
  induction sched as [|who sched IH]; intros q; [done|]. simpl.
  rewrite IH. destruct (Normal.step who q) as [q'|] eqn:Hs; [|done]. simpl.
  unfold Normal.step, Normal.reader_step, Normal.writer_step in Hs.
  repeat case_match; by simplify_eq.
Qed.

(** X10 (normal_tun.writeToTun, the closed channel): once the writer has
    logged that the channel is closed, the reader has returned on a read
    error, the channel is empty, and every packet read before that error has
    been written, in order. *)
Theorem normal_closed_means_all_written (src dst : Normal.iface)
    (sched : list bool) :
  let p := Normal.run sched (Normal.forwardWithChannel src dst) in
  Normal.NLog (Normal.closed_msg (Normal.if_name dst)) ∈ Normal.p_trace p ->
  Normal.p_rd p = Normal.RdDone
  /\ Normal.p_ch p = []
  /\ Normal.p_closed p = true
  /\ Normal.written (Normal.p_trace p)
     = Normal.delivered (Normal.if_reads src) [].
Proof.
  intros p Hlog.
  destruct (normal_run_inv _ sched _ (normal_init_inv src dst))
    as ((Hch & Hcl & Hl & Hdone) & Hacc).
  fold p in Hch, Hcl, Hl, Hdone, Hacc.
  assert (Normal.p_dst p = Normal.if_name dst) as Hdst.
  { subst p. by rewrite normal_run_dst. }
  rewrite Hdst in Hl. apply Hl in Hlog. destruct (Hdone Hlog) as [Hrd Hempty].
  split_and!; [done|done|apply Hcl; by left|].
  unfold Normal.accounted, Normal.inflight, Normal.pending in Hacc.
  rewrite Hlog, Hrd, Hempty in Hacc. by rewrite !app_nil_r in Hacc.
Qed.

Lemma normal_closed_means_all_written_witness :
  Normal.written
    (Normal.p_trace
       (Normal.run [true; true; true; false; false; false]
          (Normal.forwardWithChannel one_then_closed sink)))
  = [[Byte.x45]].
Proof.
  refine (proj2 (proj2 (proj2
    (normal_closed_means_all_written one_then_closed sink
       [true; true; true; false; false; false] _)))).
  vm_compute. repeat constructor.
Defined.

Lemma normal_run_app s1 s2 p :
  Normal.run (s1 ++ s2) p = Normal.run s2 (Normal.run s1 p).
Proof. revert p. induction s1 as [|who s1 IH]; intros p; [done|]. simpl. apply IH. Qed.

Lemma normal_failed_step who p p' :
  Normal.step who p = Some p' -> Normal.p_wr p = Normal.WrFailed ->
  Normal.p_wr p' = Normal.WrFailed
  /\ Normal.written (Normal.p_trace p') = Normal.written (Normal.p_trace p)
  /\ (length (Normal.p_ch p) <= length (Normal.p_ch p'))%nat.
Proof.
  unfold Normal.step, Normal.reader_step, Normal.writer_step.
  destruct p as [src dst reads writes buf ch closed rd wr tr]. npipe_simpl.
  intros Hstep ->.
  destruct rd, who; try done; repeat case_match; try done;
    apply (inj Some) in Hstep; subst p'; npipe_simpl;
    rewrite ?normal_written_quiet by done; rewrite ?length_app;
    split_and!; try done; lia.
Qed.

(** X11 (normal_tun.writeToTun, write errors): once a [Write] has failed the
    writer is gone for good. Whatever runs afterwards, nothing more is
    written and nothing is taken from the channel, which the reader goes on
    filling. *)
Theorem normal_nothing_written_after_write_error (src dst : Normal.iface)
    (sched more : list bool) :
  let p := Normal.run sched (Normal.forwardWithChannel src dst) in
  let q := Normal.run more p in
  Normal.p_wr p = Normal.WrFailed ->
  Normal.p_wr q = Normal.WrFailed
  /\ Normal.written (Normal.p_trace q) = Normal.written (Normal.p_trace p)
  /\ (length (Normal.p_ch p) <= length (Normal.p_ch q))%nat.
Proof.
  intros p q. subst q. generalize p. clear p.
  induction more as [|who more IH]; intros p Hp; [done|]. simpl.
  destruct (Normal.step who p) as [p'|] eqn:Hstep; simpl; [|by apply IH].
  destruct (normal_failed_step who p p' Hstep Hp) as (Hw & Hwr & Hch).
  destruct (IH p' Hw) as (? & -> & ?). split_and!; [done|done|lia].
Qed.

Lemma normal_nothing_written_after_write_error_witness :
  Normal.written
    (Normal.p_trace
       (Normal.run [true; true; true; false; false; false]
          (Normal.run [true; true; false; false]
             (Normal.forwardWithChannel one_then_closed broken_sink))))
  = [[Byte.x45]].
Proof.
  refine (proj1 (proj2
    (normal_nothing_written_after_write_error one_then_closed broken_sink
       [true; true; false; false] [true; true; true; false; false; false] _))).
  reflexivity.
Defined.

Lemma normal_writer_finishes k : forall p,
  Normal.p_rd p = Normal.RdDone -> Normal.p_closed p = true ->
  Normal.p_wr p <> Normal.WrFailed ->
  Forall (fun w => wr_err w = None) (Normal.p_writes p) ->
  (writer_work p <= k)%nat ->
  Normal.p_wr (Normal.run (replicate k false) p) = Normal.WrDone.
Proof.
  unfold writer_work.
  induction k as [|k IH]; intros p Hrd Hcl Hwr Hall Hk.
  { simpl. destruct (Normal.p_wr p); try done; lia. }
  simpl. unfold Normal.step. rewrite Hrd. unfold Normal.writer_step.
  destruct p as [src dst reads writes buf ch closed rd wr tr]. npipe_simpl.
  subst rd closed.
  destruct wr as [|pkt| |]; try done.
  - destruct ch as [|pkt ch]; simpl.
    + apply IH; npipe_simpl; try done. simpl. lia.
    + apply IH; npipe_simpl; try done. simpl in *. lia.
  - destruct writes as [|w writes]; simpl.
    + apply IH; npipe_simpl; try done. lia.
    + apply Forall_cons in Hall as [Hw Hall]. rewrite Hw.
      apply IH; npipe_simpl; try done. lia.
  - simpl. apply IH; npipe_simpl; try done. lia.
Qed.

(** X12 (normal_tun, shutdown of a direction): after the reader has returned
    on a read error, the writer, left to run with a destination that accepts
    every packet, writes all that is queued and returns through the closed
    channel; by then every packet read has been written, in order. Two steps
    a queued packet and two more are enough. *)
Theorem normal_writer_drains_after_close (src dst : Normal.iface)
    (sched : list bool) :
  let p := Normal.run sched (Normal.forwardWithChannel src dst) in
  let q := Normal.run (replicate (2 * length (Normal.p_ch p) + 2) false) p in
  Normal.p_rd p = Normal.RdDone ->
  Normal.p_wr p <> Normal.WrFailed ->
  Forall (fun w => wr_err w = None) (Normal.p_writes p) ->
  Normal.p_wr q = Normal.WrDone
  /\ Normal.p_ch q = []
  /\ Normal.written (Normal.p_trace q)
     = Normal.delivered (Normal.if_reads src) [].
Proof.
  intros p q Hrd Hwr Hall.
  destruct (normal_run_inv _ sched _ (normal_init_inv src dst))
    as ((_ & Hcl & _) & _). fold p in Hcl.
  assert (Normal.p_wr q = Normal.WrDone) as Hq.
  { apply normal_writer_finishes; try done; [apply Hcl; by left|].
    unfold writer_work. destruct (Normal.p_wr p); lia. }
  destruct (normal_run_inv _ (sched ++ replicate (2 * length (Normal.p_ch p) + 2) false)
              _ (normal_init_inv src dst)) as ((_ & _ & _ & Hdone) & Hacc).
  rewrite normal_run_app in Hdone, Hacc. fold p in Hdone, Hacc. fold q in Hdone, Hacc.
  destruct (Hdone Hq) as [Hrdq Hch]. split_and!; [done|done|].
  unfold Normal.accounted, Normal.inflight, Normal.pending in Hacc.
  rewrite Hq, Hrdq, Hch in Hacc. by rewrite !app_nil_r in Hacc.
Qed.

Lemma normal_writer_drains_after_close_witness :
  Normal.written
    (Normal.p_trace
       (Normal.run (replicate 4 false)
          (Normal.run [true; true; true]
             (Normal.forwardWithChannel one_then_closed sink))))
  = [[Byte.x45]].
Proof.
  refine (proj2 (proj2
    (normal_writer_drains_after_close one_then_closed sink [true; true; true]
       _ _ _))); [reflexivity|discriminate|constructor].
Defined.

(** * The direct forwarders *)

Lemma sequential_weaken b tr : sequential false tr = true -> sequential b tr = true.
Proof. destruct tr as [|[]]; simpl; try done. Qed.

Lemma sequential_app b evs rest :
  sequential b evs = true -> sequential false rest = true ->
  sequential b (evs ++ rest) = true.
Proof.
  revert b. induction evs as [|e evs IH]; intros b Hevs Hrest; simpl.
  { by apply sequential_weaken. }
  destruct e; simpl in *.
  - by apply IH.
  - apply andb_true_iff in Hevs as [-> Hevs]. simpl. by apply IH.
  - by apply IH.
Qed.

Lemma batch_shaped cap bufs sizes n outBufs out batch :
  Forall (fun b => b_cap b = cap) bufs ->
  length outBufs = Z.to_nat batchSize -> n <> 0 ->
  reslice_out bufs sizes 0 (Z.to_nat n) outBufs = Some out ->
  slice_to out n = Some batch ->
  write_shaped cap (EvWrite (lbuf_bytes <$> batch) offset).
Proof.
  intros Hcap Hlen Hn Hro Hst.
  apply slice_to_inv in Hst as [Hrange ->].
  apply reslice_out_spec in Hro as [Hlo Hout].
  split; [done|]. rewrite length_fmap, length_take. split; [lia|].
  apply Forall_forall. intros p Hp.
  apply list_elem_of_fmap in Hp as (b & -> & Hb).
  apply list_elem_of_lookup in Hb as [j Hj].
  apply lookup_take_Some in Hj as [Hj Hlt].
  rewrite Hout in Hj. rewrite decide_True in Hj by lia.
  unfold resliced in Hj.
  destruct (sizes !! j) as [sz|]; [|done]. simpl in Hj.
  destruct (bufs !! j) as [b0|] eqn:Hb0; [|done]. simpl in Hj.
  apply reslice_inv in Hj as [Hk ->].
  unfold lbuf_bytes. rewrite pad_take_length. simpl.
  rewrite (Forall_lookup_1 _ _ _ _ Hcap Hb0) in Hk. lia.
Qed.

Lemma log_write_err_shape cap w :
  Forall (write_shaped cap) (log_write_err w)
  /\ sequential false (log_write_err w) = true.
Proof. unfold log_write_err. destruct (wr_err w); by repeat constructor. Qed.

Lemma forward_body_shape r dst bufs st :
  Forall (fun b => b_cap b = maxPktSize) bufs ->
  length (fs_outBufs st) = Z.to_nat batchSize ->
  let evs := match forward_body r dst bufs st with
             | Continue evs _ _ | Stop evs _ => evs
             end in
  Forall (write_shaped maxPktSize) evs /\ sequential false evs = true.
Proof.
  intros Hcap Hlen. unfold forward_body.
  destruct (rr_err r); [by repeat constructor|].
  destruct (rr_n r =? 0) eqn:Hn; [by repeat constructor|].
  destruct (reslice_out _ _ _ _ _) as [out|] eqn:Hro; [|by repeat constructor].
  destruct (slice_to _ _) as [batch|] eqn:Hst; [|by repeat constructor].
  destruct (next_write _ _) as [w dst'].
  destruct (log_write_err_shape maxPktSize w) as [Hl1 Hl2].
  split.
  - constructor; [done|]. constructor; [|done].
    eapply (batch_shaped maxPktSize); [| |by apply Z.eqb_neq|exact Hro|exact Hst].
    + by apply apply_fills_cap.
    + done.
  - simpl. by apply sequential_weaken.
Qed.

Lemma forward_loop_shape src : forall dst st,
  fwd_ok maxPktSize st ->
  Forall (write_shaped maxPktSize) (forward_loop src dst st).1
  /\ sequential false (forward_loop src dst st).1 = true.
Proof.
  induction src as [|r src IH]; intros dst st Hok.
  { rewrite forward_loop_nil by done. by repeat constructor. }
  rewrite forward_loop_cons by done.
  pose proof (forward_body_shape r dst (set_len (mtuSize + offset) <$> fs_bufs st) st)
    as Hsh.
  pose proof (forward_body_step_ok r dst st) as Hstep.
  destruct Hsh as [Hs1 Hs2]; [apply set_len_cap, Hok|apply Hok|].
  destruct (forward_body _ _ _ _) as [evs dst' st'|evs o]; [|done].
  destruct (IH dst' st' (Hstep _ _ _ Hok eq_refl)) as [IH1 IH2].
  simpl. split; [by apply Forall_app|by apply sequential_app].
Qed.

Lemma sequential_counts b tr :
  sequential b tr = true ->
  (length (write_calls tr)
   <= (if b then 1 else 0) + length (read_calls tr))%nat.
Proof.
  revert b. induction tr as [|e tr IH]; intros b Hs; [simpl; lia|].
  change (e :: tr) with ([e] ++ tr).
  rewrite write_calls_app, read_calls_app, !length_app.
  destruct e; simpl in Hs.
  - specialize (IH true Hs). simpl in *. destruct b; lia.
  - apply andb_true_iff in Hs as [-> Hs]. specialize (IH false Hs). simpl in *. lia.
  - specialize (IH false Hs). simpl in *. destruct b; lia.
Qed.

(** X13 (tun.forward, the shape of its calls): every [Write] of the direct
    forwarder hands over between 1 and 128 packets at offset 10, none longer
    than the 65545 bytes of a buffer, and comes directly after the [Read]
    that filled them: reads and writes never overlap and nothing is held
    back from one round to the next. *)
Theorem forward_writes_one_batch_per_read (src : list read_result)
    (dst : list write_result) :
  Forall (write_shaped maxPktSize) (forward src dst).1
  /\ sequential false (forward src dst).1 = true
  /\ (length (write_calls (forward src dst).1)
      <= length (read_calls (forward src dst).1))%nat.
Proof.
  destruct (forward_loop_shape src dst (forward_init maxPktSize)
              (forward_init_ok maxPktSize)) as [H1 H2].
  split_and!; [done|done|]. apply (sequential_counts false _ H2).
Qed.

(** ** The stand-alone [forward] *)

Lemma basic_forward_body_None r dst bufs st :
  rr_err r = None -> Basic.forward_body r dst bufs st = forward_body r dst bufs st.
Proof. intros H. unfold Basic.forward_body, forward_body. by rewrite H. Qed.

Lemma basic_forward_body_Some r dst bufs st e :
  rr_err r = Some e ->
  Basic.forward_body r dst bufs st
  = Continue [EvRead (b_len <$> bufs) Basic.offset; EvLog ("Read error: " ++ e)] dst
      (FwdState (apply_fills bufs (rr_fills r)) (fs_outBufs st)
                (store_sizes (fs_sizes st) (rr_fills r))).
Proof. intros H. unfold Basic.forward_body. by rewrite H. Qed.

Lemma basic_forward_body_step_ok r dst st evs dst' st' :
  fwd_ok maxPktSize st ->
  Basic.forward_body r dst (set_len Basic.bufLen <$> fs_bufs st) st
    = Continue evs dst' st' ->
  fwd_ok maxPktSize st'.
Proof.
  intros Hok Hb. destruct (rr_err r) as [e|] eqn:Herr.
  - rewrite (basic_forward_body_Some _ _ _ _ e Herr) in Hb. simplify_eq.
    destruct Hok as (H1 & H2 & H3 & H4). unfold fwd_ok. cbn [fs_bufs fs_outBufs fs_sizes].
    split_and!.
    + by rewrite apply_fills_length, length_fmap.
    + by apply apply_fills_cap, set_len_cap.
    + done.
    + by rewrite store_sizes_length.
  - rewrite basic_forward_body_None in Hb by done.
    eapply forward_body_ok; [exact Hok| | |exact Hb].
    + rewrite length_fmap. apply Hok.
    + apply set_len_cap, Hok.
Qed.

Lemma basic_forward_loop_facts src : forall dst st,
  fwd_ok maxPktSize st ->
  let res := Basic.forward_loop src dst st in
  res.2 <> Returned
  /\ written res.1
       `prefix_of` read_packets_all maxPktSize (b_data <$> fs_bufs st) (fs_sizes st) src
  /\ (res.2 <> Panicked ->
      written res.1
      = read_packets_all maxPktSize (b_data <$> fs_bufs st) (fs_sizes st) src)
  /\ Forall (write_shaped maxPktSize) res.1
  /\ sequential false res.1 = true.
Proof.
  induction src as [|r src IH]; intros dst st Hok; cbn zeta.
  { rewrite basic_forward_loop_nil by done. simpl. by repeat constructor. }
  rewrite basic_forward_loop_cons by done.
  pose proof (basic_forward_body_step_ok r dst st) as Hstep.
  destruct (rr_err r) as [e|] eqn:Herr.
  - rewrite (basic_forward_body_Some _ _ _ _ e Herr) in *.
    destruct (IH dst _ (Hstep _ _ _ Hok eq_refl)) as (IH1 & IH2 & IH3 & IH4 & IH5).
    cbn [fs_bufs fs_sizes] in IH2, IH3.
    rewrite (apply_fills_data maxPktSize), set_len_data in IH2, IH3
      by apply set_len_cap, Hok.
    unfold prepend. cbn [fst snd read_packets_all]. rewrite Herr.
    rewrite written_app. change (written [_; _]) with (@nil (list byte)).
    split_and!; try done.
    + by repeat constructor.
  - rewrite basic_forward_body_None in * by done.
    pose proof (forward_body_written r dst (set_len Basic.bufLen <$> fs_bufs st) st) as Hw.
    pose proof (forward_body_shape r dst (set_len Basic.bufLen <$> fs_bufs st) st) as Hsh.
    rewrite set_len_data in Hw.
    destruct Hsh as [Hs1 Hs2]; [apply set_len_cap, Hok|apply Hok|].
    destruct (forward_body _ _ _ _) as [evs dst' st'|evs o].
    + destruct Hw as (_ & Hwr & Hdat & Hsz); [apply set_len_cap, Hok|].
      destruct (IH dst' st' (Hstep _ _ _ Hok eq_refl)) as (IH1 & IH2 & IH3 & IH4 & IH5).
      unfold prepend. cbn [fst snd read_packets_all]. rewrite Herr, written_app, Hwr.
      rewrite Hdat, Hsz in IH2, IH3.
      split_and!.
      * done.
      * by apply prefix_app.
      * intros Hnp. by rewrite IH3.
      * by apply Forall_app.
      * by apply sequential_app.
    + cbn [fst snd read_packets_all]. rewrite Herr.
      destruct o; destruct Hw as [Hw Herr']; try (apply set_len_cap, Hok);
        try done.
      rewrite Hw. split_and!; try done. apply prefix_nil.
Qed.

Lemma basic_forward_init_ok :
  fwd_ok maxPktSize
    (FwdState (replicate (Z.to_nat Basic.batch) (make_lbuf Basic.bufLen))
              (replicate (Z.to_nat Basic.batch) nil_lbuf)
              (replicate (Z.to_nat Basic.batch) 0)).
Proof. apply (forward_init_ok maxPktSize). Qed.

(** X14 (the stand-alone forward): the loop has no way out but a panic. It
    never returns, and it writes, in the order read and each once, the
    packets of every successful [Read], those that follow a failing [Read]
    included, one batch of at most 128 after each such [Read]. *)
Theorem basic_forward_never_returns_skips_errors (src : list read_result)
    (dst : list write_result) :
  let res := Basic.forward src dst in
  res.2 <> Returned
  /\ match res.2 with
     | Panicked => written res.1 `prefix_of` delivered_all maxPktSize src
     | _ => written res.1 = delivered_all maxPktSize src
     end
  /\ Forall (write_shaped maxPktSize) res.1
  /\ sequential false res.1 = true.
Proof.
  destruct (basic_forward_loop_facts src dst _ basic_forward_init_ok)
    as (H1 & H2 & H3 & H4 & H5).
  cbn zeta. unfold Basic.forward. split_and!; try done.
  destruct (Basic.forward_loop _ _ _).2 eqn:Ho; [by apply H3|by apply H3|done].
Qed.

Lemma read_packets_prefix_all cap src : forall datas sizes,
  read_packets cap datas sizes src `prefix_of` read_packets_all cap datas sizes src.
Proof.
  induction src as [|r src IH]; intros datas sizes; simpl; [done|].
  destruct (rr_err r); [apply prefix_nil|]. by apply prefix_app.
Qed.

Lemma read_packets_all_no_error cap src : forall datas sizes,
  Forall (fun r => rr_err r = None) src ->
  read_packets_all cap datas sizes src = read_packets cap datas sizes src.
Proof.
  induction src as [|r src IH]; intros datas sizes Hall; simpl; [done|].
  apply Forall_cons in Hall as [-> Hall]. by rewrite IH.
Qed.

Lemma forward_written_delivered src dst :
  written (forward src dst).1 `prefix_of` delivered maxPktSize src
  /\ ((forward src dst).2 <> Panicked ->
      written (forward src dst).1 = delivered maxPktSize src).
Proof.
  destruct (forward_loop_written src dst _ (forward_init_ok maxPktSize)) as [H1 H2].
  split; [exact H1|exact H2].
Qed.

(** X15 (the two versions of forward): as long as the stand-alone version
    does not panic, it writes everything the version of the channel program
    writes, in the same order, and goes on from where that one returns at a
    read error; on a source that never fails, and without a panic, the two
    write the same packets. *)
Theorem forward_versions_agree_up_to_read_error (src : list read_result)
    (dst dst' : list write_result) :
  (Basic.forward src dst').2 <> Panicked ->
  written (forward src dst).1 `prefix_of` written (Basic.forward src dst').1
  /\ (Forall (fun r => rr_err r = None) src -> (forward src dst).2 <> Panicked ->
      written (forward src dst).1 = written (Basic.forward src dst').1).
Proof.
  intros Hnp.
  destruct (basic_forward_loop_facts src dst' _ basic_forward_init_ok)
    as (_ & _ & H3 & _).
  cbn zeta in H3. fold (Basic.forward src dst') in H3. specialize (H3 Hnp).
  destruct (forward_written_delivered src dst) as [F1 F2].
  rewrite H3. split.
  - etrans; [exact F1|]. apply read_packets_prefix_all.
  - intros Hall Hf. rewrite (F2 Hf). symmetry.
    by apply read_packets_all_no_error.
Qed.

Lemma forward_versions_agree_up_to_read_error_witness :
  written (forward [one_packet 64 None; ReadResult 0 (Some "EBADF"%string) [];
                    one_packet 20 None] []).1
  `prefix_of`
  written (Basic.forward [one_packet 64 None; ReadResult 0 (Some "EBADF"%string) [];
                          one_packet 20 None] []).1.
Proof.
  refine (proj1 (forward_versions_agree_up_to_read_error
            [one_packet 64 None; ReadResult 0 (Some "EBADF"%string) [];
             one_packet 20 None] [] [] _)).
  vm_compute. discriminate.
Defined.

(** * The channel pipeline *)

Lemma owned_ok_NoDup s :
  owned_ok s ->
  NoDup (sys_owned s)
  /\ Forall (fun q => (q < length (sys_heap s))%nat) (sys_owned s).
Proof.
  intros Hown. split.
  - apply NoDup_ListNoDup, (NoDup_count_occ Nat.eq_dec). intros q.
    specialize (Hown q). unfold occ in Hown. case_decide; lia.
  - apply Forall_forall. intros q Hq.
    specialize (Hown q). unfold occ in Hown.
    apply list_elem_of_In, (count_occ_In Nat.eq_dec) in Hq.
    case_decide; [done|lia].
Qed.

(** X16 (readToChannel / writeFromChannel, buffer ownership): under every
    schedule, with or without the pool, a packet buffer is in one place
    only: in the pool, or in one channel, or in the hands of one goroutine.
    So a buffer taken from the pool is never one that a queued packet or a
    batch being written still uses, and every buffer held is allocated. *)
Theorem pipeline_buffers_have_one_holder (up : bool) (tun1 tun2 : device)
    (sched : list action) :
  let s := run sched (Run true up tun1 tun2).1 in
  NoDup ((s_ptr <$> pool_items (sys_pool s)) ++ concat (dir_owned <$> sys_dirs s))
  /\ Forall (fun q => (q < length (sys_heap s))%nat) (sys_owned s).
Proof.
  intros s. destruct (run_sys_inv up tun1 tun2 sched) as (_ & Hown & _).
  by apply owned_ok_NoDup.
Qed.

Lemma writer_step_None h pool d :
  writer_ok (d_writer d) ->
  writer_step h pool d = None <-> w_pc (d_writer d) = WRecv /\ d_ch d = [].
Proof.
  intros (_ & _ & Hpc). unfold writer_step.
  destruct (w_pc (d_writer d)) eqn:Hw; [| | | |done].
  - destruct (d_ch d); [done|]. split; [|by intros [_ ?]].
    by destruct (take_packet _ _ _).
  - split; [|by intros [? _]]. repeat case_match; done.
  - split; [|by intros [? _]]. repeat case_match; done.
  - split; [|by intros [? _]]. repeat case_match; done.
Qed.

Lemma reader_step_None choice h pool d :
  (length (d_ch d) <= chanCap)%nat ->
  reader_step choice h pool d = None
  <-> (r_pc (d_reader d) = RRead /\ d_src d = [])
      \/ (exists n i p, r_pc (d_reader d) = RSend n i p
                        /\ length (d_ch d) = chanCap)
      \/ r_pc (d_reader d) = RDone \/ r_pc (d_reader d) = RPanic.
Proof.
  intros Hch. unfold reader_step.
  destruct (r_pc (d_reader d)) as [|n i|n i b sz|n i p| |] eqn:Hr.
  - destruct (d_src d) as [|r src].
    + split; [by left|done].
    + split; [by destruct (rr_err r)|].
      intros [[_ ?]|[(? & ? & ? & ? & _)|[?|?]]]; done.
  - split; [repeat case_match; done|].
    intros [[? _]|[(? & ? & ? & ? & _)|[?|?]]]; done.
  - split; [repeat case_match; done|].
    intros [[? _]|[(? & ? & ? & ? & _)|[?|?]]]; done.
  - case_decide as Hlt.
    + split; [done|].
      intros [[? _]|[(? & ? & ? & _ & ?)|[?|?]]]; try done. lia.
    + split; [|done]. intros _. right. left. exists n, i, p. split; [done|lia].
  - split; [|done]. intros _. right. right. by left.
  - split; [|done]. intros _. right. right. by right.
Qed.

(** X17 (readToChannel / writeFromChannel, where they wait): under every
    schedule a channel holds at most 2048 packets and the writer never
    panics. The writer can take no step only at its receive with the channel
    empty; the reader only in [Read] on a device that has nothing more, at
    its send with the channel full, or once it has returned or panicked. *)
Theorem pipeline_waits_only_where_it_blocks (up : bool) (tun1 tun2 : device)
    (sched : list action) :
  let s := run sched (Run true up tun1 tun2).1 in
  Forall (fun d =>
    (length (d_ch d) <= 2048)%nat
    /\ w_pc (d_writer d) <> WPanic
    /\ (writer_step (sys_heap s) (sys_pool s) d = None
        <-> w_pc (d_writer d) = WRecv /\ d_ch d = [])
    /\ forall choice,
         reader_step choice (sys_heap s) (sys_pool s) d = None
         <-> (r_pc (d_reader d) = RRead /\ d_src d = [])
             \/ (exists n i p, r_pc (d_reader d) = RSend n i p
                               /\ length (d_ch d) = 2048%nat)
             \/ r_pc (d_reader d) = RDone \/ r_pc (d_reader d) = RPanic)
    (sys_dirs s).
Proof.
  intros s. destruct (run_ok up tun1 tun2 sched) as [_ Hdirs]. fold s in Hdirs.
  eapply Forall_impl; [exact Hdirs|]. cbn beta.
  intros d (_ & Hw & _ & Hch & _). split_and!.
  - exact Hch.
  - intros Hp. destruct Hw as (_ & _ & Hpc). by rewrite Hp in Hpc.
  - by apply writer_step_None.
  - intros choice. by apply reader_step_None.
Qed.

Lemma run_direction_data k up tun1 tun2 sched src dst0 d :
  [(tun1, tun2); (tun2, tun1)] !! k = Some (src, dst0) ->
  sys_dirs (run sched (Run true up tun1 tun2).1) !! k = Some d ->
  dir_data (sys_heap (run sched (Run true up tun1 tun2).1))
           (delivered (mtuSize + offset) (dev_reads src)) d
  /\ dir_ok (sys_pool (run sched (Run true up tun1 tun2).1)) d.
Proof.
  intros Hk Hd. split.
  - assert ([delivered (mtuSize + offset) (dev_reads tun1);
             delivered (mtuSize + offset) (dev_reads tun2)] !! k
            = Some (delivered (mtuSize + offset) (dev_reads src))) as Ht.
    { destruct k as [|[|k]]; by simplify_eq/=. }
    by destruct (Forall2_lookup_lr _ _ _ _ _ _ (run_data up tun1 tun2 sched) Ht Hd).
  - destruct (run_ok up tun1 tun2 sched) as [_ Hdirs].
    by apply (Forall_lookup_1 _ _ _ _ Hdirs Hd).
Qed.

Lemma rest_all_written h t d :
  dir_data h t d -> reader_at_rest d ->
  w_pc (d_writer d) = WRecv -> d_ch d = [] ->
  written (d_trace d) = t.
Proof.
  unfold dir_data, inflight, writer_inflight, reader_inflight, pending.
  intros Hdata Hrest Hw Hch. rewrite Hw, Hch in Hdata.
  destruct Hrest as [[Hr Hsrc]|Hr]; rewrite Hr in Hdata.
  - rewrite Hsrc in Hdata. simpl in Hdata. by rewrite app_nil_r in Hdata.
  - simpl in Hdata. by rewrite app_nil_r in Hdata.
Qed.

(** X18 (readToChannel / writeFromChannel, nothing left behind): when
    neither goroutine of a direction can take a step and its reader has not
    panicked, every packet its source delivered up to the first failing
    [Read] has been written to the destination, in order: none is left in
    the channel or in a goroutine's hands. *)
Theorem pipeline_idle_means_all_written (k : nat) (up : bool)
    (tun1 tun2 src dst0 : device) (sched : list action) (d : direction) :
  let s := run sched (Run true up tun1 tun2).1 in
  [(tun1, tun2); (tun2, tun1)] !! k = Some (src, dst0) ->
  sys_dirs s !! k = Some d ->
  (forall choice, reader_step choice (sys_heap s) (sys_pool s) d = None) ->
  writer_step (sys_heap s) (sys_pool s) d = None ->
  r_pc (d_reader d) <> RPanic ->
  written (d_trace d) = delivered (mtuSize + offset) (dev_reads src).
Proof.
  intros s Hk Hd Hrd Hwr Hnp.
  destruct (run_direction_data k up tun1 tun2 sched src dst0 d Hk Hd)
    as [Hdata Hok].
  fold s in Hdata, Hok. destruct Hok as (_ & Hw & _ & Hch & _).
  apply writer_step_None in Hwr as [Hpc Hempty]; [|done].
  apply (rest_all_written _ _ _ Hdata); [|done|done].
  apply (reader_step_None 0 _ _ _ Hch) in Hrd
    as [?|[(n & i & p & _ & Hfull)|[?|?]]]; [by left| |by right|done].
  rewrite Hempty in Hfull. done.
Qed.

Lemma pipeline_idle_means_all_written_witness :
  written
    (d_trace
       (default (new_direction idle_device idle_device false)
          (sys_dirs
             (run [StepReader 0 0; StepReader 0 0; StepReader 0 0;
                   StepReader 0 0; StepReader 0 0;
                   StepWriter 0; StepWriter 0; StepWriter 0]
                (Run true false (Device [one_packet 64 None] []) idle_device).1)
           !! 0%nat)))
  = delivered (mtuSize + offset) [one_packet 64 None].
Proof.
  apply (pipeline_idle_means_all_written 0 false
           (Device [one_packet 64 None] []) idle_device
           (Device [one_packet 64 None] []) idle_device
           [StepReader 0 0; StepReader 0 0; StepReader 0 0;
            StepReader 0 0; StepReader 0 0;
            StepWriter 0; StepWriter 0; StepWriter 0]);
    [reflexivity|reflexivity|intros choice; reflexivity|reflexivity|discriminate].
Defined.

Lemma step_log a s s' : step a s = Some s' -> sys_log s' = sys_log s.
Proof.
  unfold step. destruct (sys_crashed s); [done|].
  destruct (sys_dirs s !! action_dir a); [|done]. simpl.
  destruct a; simpl; (destruct (_ : option step_result) as [[[? ?] ?]|]; [|done]);
    by intros [= <-].
Qed.

Lemma run_log sched : forall s, sys_log (run sched s) = sys_log s.
Proof.
  induction sched as [|a sched IH]; intros s; [done|]. simpl. rewrite IH.
  destruct (step a s) eqn:Hs; [|done]. by apply step_log in Hs.
Qed.

(** X19 (forwardWithChannel, the pool): [Run] makes the pool at the first
    call of [forwardWithChannel] only, when [usePool] is set, logs it once,
    and never disables it. From then on, under every schedule, the pool
    exists exactly when [usePool] was set and all four goroutines work with
    that setting. *)
Theorem pool_made_once_and_kept (up : bool) (tun1 tun2 : device)
    (sched : list action) :
  let s := run sched (Run true up tun1 tun2).1 in
  (sys_pool s <> None <-> up = true)
  /\ Forall (fun d => r_usePool (d_reader d) = up /\ w_usePool (d_writer d) = up)
            (sys_dirs s)
  /\ sys_log s
     = [EvLog (banner true up);
        EvLog "Successfully set up TUN device tun11 with address 10.0.1.1/24";
        EvLog "Successfully set up TUN device tun22 with address 10.0.2.1/24";
        EvLog "Using channel-based forwarding."]
       ++ (if up then [EvLog "Initialized sync.Pool for packet buffers."] else [])
       ++ [EvLog "Forwarding started. Press Ctrl+C to exit."].
Proof.
  intros s. pose proof (run_pool_flag up tun1 tun2 sched) as Hflag. fold s in Hflag.
  split_and!.
  - rewrite <-Hflag. by rewrite bool_decide_eq_true.
  - destruct (run_ok up tun1 tun2 sched) as [_ Hdirs]. fold s in Hdirs.
    eapply Forall_impl; [exact Hdirs|]. cbn beta.
    intros d (_ & _ & _ & _ & Hr & Hw & _). by rewrite Hr, Hw, Hflag.
  - subst s. rewrite run_log. by destruct up.
Qed.

Lemma writer_step_todo h pool d h' pool' d' :
  writer_step h pool d = Some (h', pool', d') ->
  (writer_todo d' < writer_todo d)%nat.
Proof.
  unfold writer_step, writer_todo.
  destruct d as [src dst ch rd [pc bufs orig upw] tr]. proj_simpl.
  intros Hstep.
  destruct pc as [|n|n|n i|]; [| | | |done].
  - destruct ch as [|pkt ch]; [done|].
    destruct (take_packet _ _ _) as [[pc' bufs' orig' up']|]; simplify_eq; proj_simpl;
      simpl; lia.
  - destruct (Z.of_nat n <? batchSize).
    + destruct ch as [|pkt ch].
      * simplify_eq. proj_simpl. simpl. lia.
      * destruct (take_packet _ _ _) as [[pc' bufs' orig' up']|]; simplify_eq;
          proj_simpl; simpl; lia.
    + simplify_eq. proj_simpl. simpl. lia.
  - case_decide.
    + destruct (slice_to _ _); [|simplify_eq; proj_simpl; simpl; lia].
      destruct (next_write _ _) as [w dst']. simplify_eq. proj_simpl.
      destruct upw; simpl; lia.
    + simplify_eq. proj_simpl. simpl. lia.
  - case_decide.
    + destruct (orig !! i), pool; simplify_eq; proj_simpl; simpl; lia.
    + simplify_eq. proj_simpl. simpl. lia.
Qed.

Lemma writer_steps_drain m : forall h pool d t,
  Forall full_buf (pool_items pool) -> dir_ok pool d -> dir_data h t d ->
  (writer_todo d <= m)%nat ->
  let '(h', pool', d') := writer_steps m (h, pool, d) in
  dir_data h' t d'
  /\ w_pc (d_writer d') = WRecv /\ d_ch d' = []
  /\ d_reader d' = d_reader d /\ d_src d' = d_src d.
Proof.
  induction m as [|m IH]; intros h pool d t Hpool Hok Hdata Hm.
  { simpl. destruct Hok as (_ & (_ & _ & Hpc) & _).
    unfold writer_todo in Hm.
    destruct (w_pc (d_writer d)); try done; try lia.
    split_and!; try done. destruct (d_ch d); [done|simpl in Hm; lia]. }
  rewrite writer_steps_S.
  destruct (writer_step h pool d) as [[[h' pool'] d']|] eqn:Hstep.
  - destruct (writer_step_ok _ _ _ _ _ _ Hstep Hpool Hok) as (-> & Hpool' & _ & Hok').
    pose proof (writer_step_data _ _ _ _ _ _ t Hstep Hok Hdata) as Hdata'.
    pose proof (writer_step_todo _ _ _ _ _ _ Hstep) as Hlt.
    destruct (writer_step_frame _ _ _ _ _ _ Hstep) as (Hrd & Hsrc & _).
    specialize (IH h pool' d' t Hpool' Hok' Hdata' ltac:(lia)).
    destruct (writer_steps m (h, pool', d')) as [[h2 pool2] d2].
    destruct IH as (? & ? & ? & -> & ->). by split_and!.
  - destruct Hok as (_ & Hw & _).
    apply writer_step_None in Hstep as [? ?]; [|done]. by split_and!.
Qed.

(** X20 (writeFromChannel, draining): once the reader of a direction has
    stopped, in [Read] on a device with nothing more or by returning on a
    read error, the writer left to run empties the channel: after at most
    five steps a queued packet plus those of the batch in hand it waits at
    the empty channel, and by then every packet the source delivered has
    been written, in order, whether or not a [Write] failed on the way. *)
Theorem pipeline_writer_drains_channel (k : nat) (up : bool)
    (tun1 tun2 src dst0 : device) (sched : list action) (d : direction) :
  let s := run sched (Run true up tun1 tun2).1 in
  [(tun1, tun2); (tun2, tun1)] !! k = Some (src, dst0) ->
  sys_dirs s !! k = Some d ->
  reader_at_rest d ->
  let d' := (writer_steps (writer_todo d) (sys_heap s, sys_pool s, d)).2 in
  w_pc (d_writer d') = WRecv /\ d_ch d' = []
  /\ written (d_trace d') = delivered (mtuSize + offset) (dev_reads src).
Proof.
  intros s Hk Hd Hrest.
  destruct (run_direction_data k up tun1 tun2 sched src dst0 d Hk Hd)
    as [Hdata Hok].
  fold s in Hdata, Hok.
  destruct (run_ok up tun1 tun2 sched) as [Hpool _]. fold s in Hpool.
  pose proof (writer_steps_drain (writer_todo d) _ _ _ _ Hpool Hok Hdata
                ltac:(lia)) as Hdrain.
  destruct (writer_steps _ _) as [[h' pool'] d'].
  destruct Hdrain as (Hdata' & Hpc & Hch & Hrd & Hsrc). cbn [snd].
  split_and!; [done|done|].
  apply (rest_all_written _ _ _ Hdata'); [|done|done].
  unfold reader_at_rest in *. by rewrite Hrd, Hsrc.
Qed.

Lemma pipeline_writer_drains_channel_witness :
  length (d_ch queued_one_direction) = 1%nat
  /\ written
       (d_trace
          (writer_steps (writer_todo queued_one_direction)
             (sys_heap queued_one_system, sys_pool queued_one_system,
              queued_one_direction)).2)
     = delivered (mtuSize + offset) [one_packet 64 None].
Proof.
  split; [reflexivity|].
  refine (proj2 (proj2
    (pipeline_writer_drains_channel 0 false
       (Device [one_packet 64 None] []) idle_device
       (Device [one_packet 64 None] []) idle_device
       [StepReader 0 0; StepReader 0 0; StepReader 0 0;
        StepReader 0 0; StepReader 0 0] queued_one_direction _ _ _)));
    [reflexivity|reflexivity|by left].
Defined.

Lemma normal_packet_of_in_range buf n :
  0 <= n <= Normal.bufSize ->
  Normal.packet_of buf n = Some (pad_take (Z.to_nat n) buf).
Proof.
  intros Hn. unfold Normal.packet_of.
  destruct (Z.leb_spec 0 n), (Z.leb_spec n Normal.bufSize); simpl; try lia; done.
Qed.

Lemma normal_forward_loop_no_panic sn dn reads : forall writes buf,
  Forall count_in_range reads ->
  (Normal.forward_loop sn dn reads writes buf).2 <> Panicked.
Proof.
  induction reads as [|r reads IH]; intros writes buf Hall; [done|].
  apply Forall_cons in Hall as [Hr Hall]. cbn [Normal.forward_loop].
  destruct (Normal.nr_err r); [done|].
  rewrite normal_packet_of_in_range by done.
  destruct (next_write _ _) as [w writes']. destruct (wr_err w); [done|].
  apply IH, Hall.
Qed.

Lemma normal_reader_step_no_panic p p' :
  Normal.reader_step p = Some p' ->
  Forall count_in_range (Normal.p_reads p) -> Normal.p_rd p <> Normal.RdPanic ->
  Forall count_in_range (Normal.p_reads p') /\ Normal.p_rd p' <> Normal.RdPanic.
Proof.
  unfold Normal.reader_step.
  destruct p as [src dst reads writes buf ch closed rd wr tr]. npipe_simpl.
  intros Hstep Hall Hnp. destruct rd as [|pkt| |]; try done.
  - destruct reads as [|r reads]; [done|].
    apply Forall_cons in Hall as [Hr Hall].
    rewrite normal_packet_of_in_range in Hstep by done.
    destruct (Normal.nr_err r); apply (inj Some) in Hstep; subst p'; by npipe_simpl.
  - case_decide; [|done]. apply (inj Some) in Hstep; subst p'. by npipe_simpl.
Qed.

Lemma normal_writer_step_reader p p' :
  Normal.writer_step p = Some p' ->
  Normal.p_reads p' = Normal.p_reads p /\ Normal.p_rd p' = Normal.p_rd p.
Proof.
  unfold Normal.writer_step.
  destruct p as [src dst reads writes buf ch closed rd wr tr]. npipe_simpl.
  intros Hstep. destruct wr as [|pkt| |]; try done.
  - destruct ch; [destruct closed; [|done]|];
      apply (inj Some) in Hstep; subst p'; by npipe_simpl.
  - destruct (next_write _ _) as [w writes'].
    apply (inj Some) in Hstep; subst p'; by npipe_simpl.
Qed.

(** X22 (normal_tun, panics): with a source whose [Read] never returns a
    count outside the 65536-byte buffer, neither [forward] nor [readFromTun]
    panics, under any schedule and whatever the destination answers. *)
Theorem normal_no_panic_when_counts_in_range (src dst : Normal.iface)
    (sched : list bool) :
  Forall count_in_range (Normal.if_reads src) ->
  (Normal.forward src dst).2 <> Panicked
  /\ Normal.p_rd (Normal.run sched (Normal.forwardWithChannel src dst))
     <> Normal.RdPanic.
Proof.
  intros Hall. split; [by apply normal_forward_loop_no_panic|].
  assert (forall p,
            Forall count_in_range (Normal.p_reads p) ->
            Normal.p_rd p <> Normal.RdPanic ->
            Normal.p_rd (Normal.run sched p) <> Normal.RdPanic) as H.
  { induction sched as [|who sched IH]; intros p Hp Hnp; [done|]. simpl.
    destruct (Normal.step who p) as [p'|] eqn:Hstep; simpl; [|by apply IH].
    unfold Normal.step in Hstep.
    assert (Forall count_in_range (Normal.p_reads p')
            /\ Normal.p_rd p' <> Normal.RdPanic) as [? ?]; [|by apply IH].
    destruct (Normal.p_rd p) eqn:Hrd; try done;
      (destruct who;
       [apply (normal_reader_step_no_panic p); [done|done|by rewrite Hrd]
       |destruct (normal_writer_step_reader p p' Hstep) as [-> ->];
        by rewrite Hrd]). }
  by apply H.
Qed.

Lemma normal_no_panic_when_counts_in_range_witness :
  (Normal.forward one_then_closed sink).2 <> Panicked
  /\ Normal.p_rd
       (Normal.run [true; true; true; false]
          (Normal.forwardWithChannel one_then_closed sink))
     <> Normal.RdPanic.
Proof.
  apply (normal_no_panic_when_counts_in_range one_then_closed sink
           [true; true; true; false]).
  repeat constructor; vm_compute; discriminate.
Defined.
